(** * BusTub: LRU-K replacer, buffer pool manager and persistent trie

    A shallow embedding of [src/buffer/lru_k_replacer.cpp],
    [src/buffer/buffer_pool_manager.cpp] and [src/primer/trie.cpp], with the
    properties of the storage runtime stated and proved over it.

    Conventions.
    - [frame_id_t] and [page_id_t] are signed integers: [Z].
    - [size_t] counters the source does arithmetic on ([curr_size_]) are [Z]
      with the wrap-around modulo [2^64] written out. The page id counter
      [next_page_id_] is followed up to [INT_MAX] and not wrapped.
    - The trie is embedded twice: as a value ([TrieM]), and as node objects
      in memory ([TrieHeap]) where a property is about which objects a call
      writes to.
    - A run of an operation that does not return (a failed [BUSTUB_ASSERT],
      or a read of an indeterminate or out-of-bounds location) is [None] in
      the outer [option] of the operation's result. *)

From stdpp Require Import gmap strings list fin_maps.
From Equations Require Import Equations.
From Stdlib Require Import ZArith Lia Ascii String.

Local Open Scope Z_scope.

(** ** LRU-K replacer *)

Module Replacer.

Definition ULONG_MAX : Z := 2 ^ 64 - 1.

(** [size_t] arithmetic. *)
Definition wrap64 (z : Z) : Z := z mod 2 ^ 64.

(** [class LRUKNode]: the members [Evict], [RecordAccess] and [SetEvictable]
    read and write. *)
Record LRUKNode := mkNode {
  history_ : list Z;
  k_ : nat;
  fid_ : Z;
  is_evictable_ : bool
}.

(** Modelled from the spec: the constructor [LRUKNode(fid, k)] of the header
    [lru_k_replacer.h]; a new node has no history and "evictable=false". *)
Definition LRUKNode_new (fid : Z) (k : nat) : LRUKNode :=
  mkNode [] k fid false.

(** Modelled from the spec: [LRUKNode::RecordAccess] of the header
    [lru_k_replacer.h]; "The history retains at most K entries; pushing a
    new timestamp evicts the oldest when full", the front of [history_]
    being its oldest entry: "break ties by the smaller earliest-recorded
    timestamp (oldest history front)". [history_] is the [std::list] in
    storage order, the oldest timestamp first: a new timestamp goes to the
    back, and the front is dropped when more than K are held. *)
Definition node_RecordAccess (t : Z) (n : LRUKNode) : LRUKNode :=
  let h := history_ n ++ [t] in
  mkNode (drop (List.length h - k_ n) h) (k_ n) (fid_ n) (is_evictable_ n).

(** The history as the spec indexes it, "newest-first": [history[0]] is the
    most recent timestamp. *)
Definition newest_first (n : LRUKNode) : list Z := rev (history_ n).

(** Modelled from the spec: [LRUKNode::GetKDistance] of the header
    [lru_k_replacer.h]; "backward K-distance at current time t as
    t - history[K-1] if the node has recorded >= K accesses, else +inf",
    where +inf is the [ULONG_MAX] that [Evict] tests for. *)
Definition GetKDistance (t : Z) (n : LRUKNode) : Z :=
  match k_ n with
  | O => ULONG_MAX
  | S k' =>
      match newest_first n !! k' with
      | Some h => wrap64 (t - h)
      | None => ULONG_MAX
      end
  end.

(** [history_.front()]: the head of the stored list. The source calls it on
    nodes that went through [RecordAccess], whose history is not empty. *)
Definition front (n : LRUKNode) : Z := hd 0 (history_ n).

(** The earliest-recorded (least recent) timestamp a node holds: the
    smallest timestamp of its history. *)
Definition earliest (n : LRUKNode) : Z := foldr Z.min (front n) (history_ n).

(** [node_store_] is an [unordered_map<frame_id_t, LRUKNode>]: an
    association list in the map's iteration order, which the standard leaves
    open; keys are unique. [rk_] is the replacer's own [k_]. *)
Record LRUKReplacer := mkReplacer {
  node_store_ : list (Z * LRUKNode);
  current_timestamp_ : Z;
  curr_size_ : Z;
  replacer_size_ : Z;
  rk_ : nat
}.

(** [LRUKReplacer::LRUKReplacer(num_frames, k)] *)
Definition LRUKReplacer_new (num_frames : Z) (k : nat) : LRUKReplacer :=
  mkReplacer [] 0 0 num_frames k.

(** Modelled from the spec: [GetCurrentTimeStamp] of the header
    [lru_k_replacer.h]; "a monotonically increasing timestamp counter ...
    incremented on every access or eviction attempt". *)
Definition GetCurrentTimeStamp (r : LRUKReplacer) : Z * LRUKReplacer :=
  (current_timestamp_ r,
   mkReplacer (node_store_ r) (current_timestamp_ r + 1) (curr_size_ r)
     (replacer_size_ r) (rk_ r)).

(** [node_store_.find(frame_id)] *)
Fixpoint store_find (fid : Z) (st : list (Z * LRUKNode)) : option LRUKNode :=
  match st with
  | [] => None
  | (key, n) :: rest => if Z.eqb key fid then Some n else store_find fid rest
  end.

(** [node_store_.erase(frame_id)] *)
Fixpoint store_erase (fid : Z) (st : list (Z * LRUKNode)) : list (Z * LRUKNode) :=
  match st with
  | [] => []
  | (key, n) :: rest =>
      if Z.eqb key fid then rest else (key, n) :: store_erase fid rest
  end.

(** Assignment through the iterator [node_it->second]. *)
Fixpoint store_update (fid : Z) (f : LRUKNode -> LRUKNode)
    (st : list (Z * LRUKNode)) : list (Z * LRUKNode) :=
  match st with
  | [] => []
  | (key, n) :: rest =>
      if Z.eqb key fid then (key, f n) :: rest
      else (key, n) :: store_update fid f rest
  end.

(** The locals of the loop in [Evict]. [ev_out] is [*frame_id]: [None] while
    the loop has not written it. *)
Record evict_acc := mkAcc {
  ev_is_first : bool;
  ev_val : Z;
  ev_out : option Z;
  ev_curr_node : LRUKNode
}.

(** One iteration of the [for] loop of [Evict]. *)
Definition evict_step (t : Z) (acc : evict_acc) (kv : Z * LRUKNode) : evict_acc :=
  let node := snd kv in
  if negb (is_evictable_ node) then acc
  else if ev_is_first acc then
    mkAcc false (GetKDistance t node) (Some (fid_ node)) node
  else
    let tmp := GetKDistance t node in
    if (ev_val acc <? tmp)
       || ((tmp =? ev_val acc) && (ev_val acc =? ULONG_MAX)
           && (front node <? front (ev_curr_node acc)))
    then mkAcc false tmp (Some (fid_ node)) node
    else acc.

Definition evict_loop (t : Z) (st : list (Z * LRUKNode)) : evict_acc :=
  fold_left (evict_step t) st (mkAcc true 0 None (LRUKNode_new 0 0)).

(** [LRUKReplacer::Evict]. The result is [None] when the call erases through
    a [*frame_id] the loop never wrote (the caller passes an uninitialised
    local); otherwise the returned flag together with [*frame_id]. *)
Definition Evict (r : LRUKReplacer) : option (option Z * LRUKReplacer) :=
  let '(t, r1) := GetCurrentTimeStamp r in
  if curr_size_ r1 =? 0 then Some (None, r1)
  else
    match ev_out (evict_loop t (node_store_ r1)) with
    | None => None
    | Some fid =>
        Some (Some fid,
              mkReplacer (store_erase fid (node_store_ r1))
                (current_timestamp_ r1) (wrap64 (curr_size_ r1 - 1))
                (replacer_size_ r1) (rk_ r1))
    end.

(** [LRUKReplacer::RecordAccess]; [None] is the failed [BUSTUB_ASSERT]. *)
Definition RecordAccess (frame_id : Z) (r : LRUKReplacer) : option LRUKReplacer :=
  if (0 <=? frame_id) && (frame_id <=? replacer_size_ r) then
    let '(t, r1) := GetCurrentTimeStamp r in
    match store_find frame_id (node_store_ r1) with
    | None =>
        let node := node_RecordAccess t (LRUKNode_new frame_id (rk_ r1)) in
        Some (mkReplacer (node_store_ r1 ++ [(frame_id, node)])
                (current_timestamp_ r1) (curr_size_ r1)
                (replacer_size_ r1) (rk_ r1))
    | Some _ =>
        Some (mkReplacer (store_update frame_id (node_RecordAccess t) (node_store_ r1))
                (current_timestamp_ r1) (curr_size_ r1)
                (replacer_size_ r1) (rk_ r1))
    end
  else None.

Definition set_flag (b : bool) (n : LRUKNode) : LRUKNode :=
  mkNode (history_ n) (k_ n) (fid_ n) b.

(** [LRUKReplacer::SetEvictable] *)
Definition SetEvictable (frame_id : Z) (set_evictable : bool)
    (r : LRUKReplacer) : LRUKReplacer :=
  match store_find frame_id (node_store_ r) with
  | None => r
  | Some n =>
      if Bool.eqb (is_evictable_ n) set_evictable then r
      else
        mkReplacer (store_update frame_id (set_flag set_evictable) (node_store_ r))
          (current_timestamp_ r)
          (wrap64 (curr_size_ r + (if set_evictable then 1 else -1)))
          (replacer_size_ r) (rk_ r)
  end.

(** [LRUKReplacer::Remove] *)
Definition Remove (frame_id : Z) (r : LRUKReplacer) : LRUKReplacer :=
  match store_find frame_id (node_store_ r) with
  | None => r
  | Some n =>
      mkReplacer (store_erase frame_id (node_store_ r))
        (current_timestamp_ r)
        (wrap64 (curr_size_ r + (if is_evictable_ n then -1 else 0)))
        (replacer_size_ r) (rk_ r)
  end.

(** [LRUKReplacer::Size] *)
Definition Size (r : LRUKReplacer) : Z := curr_size_ r.

End Replacer.

(** ** Buffer pool manager *)

Module BPM.
Import Replacer.

(** Modelled from the spec: [INVALID_PAGE_ID] and [BUSTUB_PAGE_SIZE] of the
    header [common/config.h]; "INVALID_PAGE_ID (sentinel, typically -1 or
    0)" and "page size ... conventionally 4096 bytes". The test suite
    fetches page 0, so the sentinel is -1. *)
Definition INVALID_PAGE_ID : Z := -1.
Definition BUSTUB_PAGE_SIZE : nat := 4096.

(** Modelled from the spec: [class Page] of the header
    [storage/page/page.h]; "a fixed-size byte buffer ... plus metadata:
    page_id, pin_count, is_dirty". The reader-writer latch is left out. *)
Record Page := mkPage {
  data_ : list Byte.byte;
  page_id_ : Z;
  pin_count_ : Z;
  is_dirty_ : bool
}.

Definition zero_data : list Byte.byte := repeat Byte.x00 BUSTUB_PAGE_SIZE.

(** A default-constructed [Page]. *)
Definition Page_new : Page := mkPage zero_data INVALID_PAGE_ID 0 false.

(** Modelled from the spec: the disk store behind [disk_manager_];
    "read_page ... on unknown id the store returns an all-zero page",
    "write_page ... synchronous". [writes_] is the trace of [WritePage]
    calls, oldest first. *)
Record DiskManager := mkDisk {
  store_ : gmap Z (list Byte.byte);
  writes_ : list (Z * list Byte.byte)
}.

Definition disk_ReadPage (page_id : Z) (d : DiskManager) : list Byte.byte :=
  default zero_data (store_ d !! page_id).

Definition disk_WritePage (page_id : Z) (bytes : list Byte.byte) (d : DiskManager)
    : DiskManager :=
  mkDisk (<[page_id := bytes]> (store_ d)) (writes_ d ++ [(page_id, bytes)]).

(** The members of [class BufferPoolManager] that [buffer_pool_manager.cpp]
    reads and writes; the latch and the log manager are left out. *)
Record BufferPoolManager := mkBPM {
  pool_size_ : nat;
  pages_ : list Page;
  page_table_ : gmap Z Z;
  free_list_ : list Z;
  replacer_ : LRUKReplacer;
  next_page_id_ : Z;
  disk_manager_ : DiskManager
}.

(** [BufferPoolManager::BufferPoolManager(pool_size, disk_manager, replacer_k)].
    [next_page_id_] starts at 0: the first page the tests create is page 0. *)
Definition BufferPoolManager_new (pool_size : nat) (disk : DiskManager)
    (replacer_k : nat) : BufferPoolManager :=
  mkBPM pool_size (replicate pool_size Page_new) ∅
    (Z.of_nat <$> seq 0 pool_size)
    (LRUKReplacer_new (Z.of_nat pool_size) replacer_k) 0 disk.

(** *** State and failure

    An operation is a function from the pool's state to its result and the
    new state, or to [None] when the run does not return. *)

Definition M (A : Type) : Type := BufferPoolManager -> option (A * BufferPoolManager).

Definition ret {A} (a : A) : M A := fun s => Some (a, s).
Definition bind {A B} (c : M A) (k : A -> M B) : M B :=
  fun s => match c s with
           | Some (a, s') => k a s'
           | None => None
           end.
Definition gets {A} (f : BufferPoolManager -> A) : M A := fun s => Some (f s, s).
Definition modify (f : BufferPoolManager -> BufferPoolManager) : M unit :=
  fun s => Some (tt, f s).

Declare Scope bpm_scope.
Delimit Scope bpm_scope with bpm.
Notation "'let*' x ':=' c 'in' k" := (bind c (fun x => k))
  (at level 10, x name, c at level 100, k at level 200) : bpm_scope.
Notation "c1 ';;' c2" := (bind c1 (fun _ => c2))
  (at level 100, c2 at level 200, right associativity) : bpm_scope.
Local Open Scope bpm_scope.

Definition set_pages (ps : list Page) (s : BufferPoolManager) :=
  mkBPM (pool_size_ s) ps (page_table_ s) (free_list_ s) (replacer_ s)
    (next_page_id_ s) (disk_manager_ s).
Definition set_page_table (pt : gmap Z Z) (s : BufferPoolManager) :=
  mkBPM (pool_size_ s) (pages_ s) pt (free_list_ s) (replacer_ s)
    (next_page_id_ s) (disk_manager_ s).
Definition set_free_list (fl : list Z) (s : BufferPoolManager) :=
  mkBPM (pool_size_ s) (pages_ s) (page_table_ s) fl (replacer_ s)
    (next_page_id_ s) (disk_manager_ s).
Definition set_replacer (r : LRUKReplacer) (s : BufferPoolManager) :=
  mkBPM (pool_size_ s) (pages_ s) (page_table_ s) (free_list_ s) r
    (next_page_id_ s) (disk_manager_ s).
Definition set_next_page_id (n : Z) (s : BufferPoolManager) :=
  mkBPM (pool_size_ s) (pages_ s) (page_table_ s) (free_list_ s) (replacer_ s)
    n (disk_manager_ s).
Definition set_disk (d : DiskManager) (s : BufferPoolManager) :=
  mkBPM (pool_size_ s) (pages_ s) (page_table_ s) (free_list_ s) (replacer_ s)
    (next_page_id_ s) d.

(** [pages_[frame_id]] read: outside the array the run is undefined. *)
Definition page_at (frame_id : Z) : M Page :=
  fun s =>
    if 0 <=? frame_id then
      match pages_ s !! Z.to_nat frame_id with
      | Some pg => Some (pg, s)
      | None => None
      end
    else None.

(** [pages_[frame_id].field = ...] *)
Definition update_page (frame_id : Z) (f : Page -> Page) : M unit :=
  let* pg := page_at frame_id in
  modify (fun s => set_pages (<[Z.to_nat frame_id := f pg]> (pages_ s)) s).

Definition with_data (b : list Byte.byte) (p : Page) :=
  mkPage b (page_id_ p) (pin_count_ p) (is_dirty_ p).
Definition with_page_id (i : Z) (p : Page) :=
  mkPage (data_ p) i (pin_count_ p) (is_dirty_ p).
Definition with_pin_count (c : Z) (p : Page) :=
  mkPage (data_ p) (page_id_ p) c (is_dirty_ p).
Definition with_is_dirty (d : bool) (p : Page) :=
  mkPage (data_ p) (page_id_ p) (pin_count_ p) d.

(** [Page::ResetMemory] *)
Definition ResetMemory (p : Page) : Page := with_data zero_data p.

Definition WritePage (page_id : Z) (bytes : list Byte.byte) : M unit :=
  modify (fun s => set_disk (disk_WritePage page_id bytes (disk_manager_ s)) s).

Definition ReadPage (page_id : Z) : M (list Byte.byte) :=
  gets (fun s => disk_ReadPage page_id (disk_manager_ s)).

(** [BufferPoolManager::AllocatePage]: [next_page_id_++]. The counter has
    the width of [page_id_t], a 32-bit [int]; the embedding follows it up
    to [INT_MAX] and does not wrap it, so a statement about the value of the
    incremented counter carries the bound [next_page_id_ < 2^31 - 1]. *)
Definition AllocatePage : M Z :=
  let* n := gets next_page_id_ in
  modify (set_next_page_id (n + 1)) ;;
  ret n.

(** [BufferPoolManager::GetPage]: the frame the returned [Page *] points to. *)
Definition GetPage (page_id : Z) : M (option Z) :=
  gets (fun s => page_table_ s !! page_id).

(** [BufferPoolManager::GetAvailableFrameId] *)
Definition GetAvailableFrameId : M (option Z) :=
  let* fl := gets free_list_ in
  match fl with
  | f :: rest => modify (set_free_list rest) ;; ret (Some f)
  | [] =>
      fun s =>
        match Evict (replacer_ s) with
        | Some (res, r') => Some (res, set_replacer r' s)
        | None => None
        end
  end.

(** [BufferPoolManager::PinPageToFrame(page, frame_id)], [page] being
    [&pages_[page_frame]]. *)
Definition PinPageToFrame (page_frame : Z) (frame_id : Z) : M unit :=
  let* pg := page_at page_frame in
  modify (fun s => set_page_table (<[page_id_ pg := frame_id]> (page_table_ s)) s) ;;
  update_page page_frame (fun p => with_pin_count (pin_count_ p + 1) p) ;;
  (fun s => match RecordAccess frame_id (replacer_ s) with
            | Some r' => Some (tt, set_replacer r' s)
            | None => None
            end) ;;
  modify (fun s => set_replacer (SetEvictable frame_id false (replacer_ s)) s).

(** [BufferPoolManager::NewPageHelper] *)
Definition NewPageHelper (frame_id : Z) : M (Z * Z) :=
  let* page_id := AllocatePage in
  update_page frame_id ResetMemory ;;
  update_page frame_id (with_page_id page_id) ;;
  update_page frame_id (with_pin_count 0) ;;
  update_page frame_id (with_is_dirty false) ;;
  PinPageToFrame frame_id frame_id ;;
  ret (page_id, frame_id).

(** The write-back and unmapping of the frame about to be reused, shared by
    [NewPage] and [DoFetchPage]. *)
Definition write_back_and_unmap (frame_id : Z) : M unit :=
  let* pg := page_at frame_id in
  (if is_dirty_ pg then WritePage (page_id_ pg) (data_ pg) else ret tt) ;;
  let* pg' := page_at frame_id in
  modify (fun s => set_page_table (delete (page_id_ pg') (page_table_ s)) s).

(** [BufferPoolManager::NewPage]: [None] for [nullptr], else the allocated
    page id and the frame the returned [Page *] points to. *)
Definition NewPage : M (option (Z * Z)) :=
  let* got := GetAvailableFrameId in
  match got with
  | None => ret None
  | Some frame_id =>
      write_back_and_unmap frame_id ;;
      let* res := NewPageHelper frame_id in
      ret (Some res)
  end.

(** [BufferPoolManager::DoFetchPage] *)
Definition DoFetchPage (page_id : Z) : M (option Z) :=
  if page_id =? INVALID_PAGE_ID then ret None
  else
    let* it := gets (fun s => page_table_ s !! page_id) in
    match it with
    | Some f =>
        update_page f (with_is_dirty true) ;;
        PinPageToFrame f f ;;
        ret (Some f)
    | None =>
        let* got := GetAvailableFrameId in
        match got with
        | None => ret None
        | Some frame_id =>
            write_back_and_unmap frame_id ;;
            let* bytes := ReadPage page_id in
            update_page frame_id (with_data bytes) ;;
            update_page frame_id (with_page_id page_id) ;;
            update_page frame_id (with_pin_count 0) ;;
            update_page frame_id (with_is_dirty false) ;;
            PinPageToFrame frame_id frame_id ;;
            ret (Some frame_id)
        end
    end.

(** [BufferPoolManager::FetchPage] *)
Definition FetchPage (page_id : Z) : M (option Z) := DoFetchPage page_id.

(** [BufferPoolManager::UnpinPage] *)
Definition UnpinPage (page_id : Z) (is_dirty : bool) : M bool :=
  let* page := GetPage page_id in
  match page with
  | None => ret false
  | Some f =>
      update_page f (with_is_dirty is_dirty) ;;
      let* pg := page_at f in
      if pin_count_ pg <=? 0 then ret false
      else
        update_page f (fun p => with_pin_count (pin_count_ p - 1) p) ;;
        let* pg' := page_at f in
        (if pin_count_ pg' =? 0 then
           modify (fun s => set_replacer (SetEvictable f true (replacer_ s)) s)
         else ret tt) ;;
        ret true
  end.

(** [BufferPoolManager::FlushPage] *)
Definition FlushPage (page_id : Z) : M bool :=
  let* next := gets next_page_id_ in
  if (page_id =? INVALID_PAGE_ID) || (next <=? page_id) then ret false
  else
    let* page := GetPage page_id in
    match page with
    | None => ret false
    | Some f =>
        let* pg := page_at f in
        WritePage page_id (data_ pg) ;;
        update_page f (with_is_dirty false) ;;
        ret true
    end.

(** The body of the loop of [FlushAllPages] at [frame_id]. *)
Definition flush_frame (frame_id : Z) : M unit :=
  let* pg := page_at frame_id in
  if negb (page_id_ pg =? INVALID_PAGE_ID) && is_dirty_ pg
  then FlushPage (page_id_ pg) ;; ret tt
  else ret tt.

Fixpoint for_each (fs : list Z) (body : Z -> M unit) : M unit :=
  match fs with
  | [] => ret tt
  | f :: rest => body f ;; for_each rest body
  end.

(** [BufferPoolManager::FlushAllPages] *)
Definition FlushAllPages : M unit :=
  let* n := gets pool_size_ in
  for_each (Z.of_nat <$> seq 0 n) flush_frame.

(** [BufferPoolManager::DeletePage] *)
Definition DeletePage (page_id : Z) : M bool :=
  let* it := gets (fun s => page_table_ s !! page_id) in
  match it with
  | None => ret true
  | Some frame_id =>
      let* page := page_at frame_id in
      if 0 <? pin_count_ page then ret false
      else
        modify (fun s => set_page_table (delete page_id (page_table_ s)) s) ;;
        modify (fun s => set_free_list (free_list_ s ++ [frame_id]) s) ;;
        update_page frame_id ResetMemory ;;
        update_page frame_id (with_pin_count 0) ;;
        update_page frame_id (with_page_id INVALID_PAGE_ID) ;;
        update_page frame_id (with_is_dirty false) ;;
        ret true
  end.

(** A client writing [bytes] through the [Page *] of frame [frame_id]. *)
Definition WriteData (frame_id : Z) (bytes : list Byte.byte) : M unit :=
  update_page frame_id (with_data bytes).

(** Modelled from the spec: the drop of a page guard, of
    [storage/page/page_guard.cpp]; "on drop, the guard releases its latch
    (if any) and calls unpin_page(page_id, is_dirty_observed)". *)
Definition GuardDrop (page_id : Z) (is_dirty : bool) : M unit :=
  UnpinPage page_id is_dirty ;; ret tt.

(** *** Runs of the pool *)

(** The calls a client can make. [OpWriteData] is a write through a
    [Page *] the pool returned. *)
Inductive op :=
| OpNewPage
| OpFetchPage (page_id : Z)
| OpUnpinPage (page_id : Z) (is_dirty : bool)
| OpFlushPage (page_id : Z)
| OpFlushAllPages
| OpDeletePage (page_id : Z)
| OpGuardDrop (page_id : Z) (is_dirty : bool)
| OpWriteData (frame_id : Z) (bytes : list Byte.byte).

Definition run_op (o : op) : M unit :=
  match o with
  | OpNewPage => NewPage ;; ret tt
  | OpFetchPage p => FetchPage p ;; ret tt
  | OpUnpinPage p d => UnpinPage p d ;; ret tt
  | OpFlushPage p => FlushPage p ;; ret tt
  | OpFlushAllPages => FlushAllPages
  | OpDeletePage p => DeletePage p ;; ret tt
  | OpGuardDrop p d => GuardDrop p d
  | OpWriteData f bytes => WriteData f bytes
  end.

Fixpoint run_ops (os : list op) : M unit :=
  match os with
  | [] => ret tt
  | o :: rest => run_op o ;; run_ops rest
  end.

(** The states a pool of at most [INT_MAX] frames ([frame_id_t] is a 32-bit
    [int]) reaches from its construction. *)
Inductive reachable : BufferPoolManager -> Prop :=
| reach_new (pool_size : nat) (disk : DiskManager) (replacer_k : nat) :
    Z.of_nat pool_size <= 2 ^ 31 - 1 ->
    reachable (BufferPoolManager_new pool_size disk replacer_k)
| reach_step (s s' : BufferPoolManager) (o : op) :
    reachable s -> run_op o s = Some (tt, s') -> reachable s'.

End BPM.

(** ** Persistent trie *)

Module TrieM.

Local Open Scope nat_scope.

(** The value types [trie.cpp] instantiates [Put] and [Get] at. *)
Inductive ValueType :=
| T_uint32 | T_uint64 | T_string | T_Integer | T_MoveBlocked.

Global Instance ValueType_eq_dec : EqDecision ValueType.
Proof. solve_decision. Defined.

(** The values of each type: machine integers as [Z], [Integer] (a
    [unique_ptr<uint32_t>]) as an optional integer, [MoveBlocked] by the
    flag it carries. *)
Definition denote (T : ValueType) : Type :=
  match T with
  | T_uint32 => Z
  | T_uint64 => Z
  | T_string => string
  | T_Integer => option Z
  | T_MoveBlocked => bool
  end.

(** The dynamic type and the [value_] of a [TrieNodeWithValue<T>]. *)
Definition TrieValue : Type := { T : ValueType & denote T }.

(** [class TrieNode] and [class TrieNodeWithValue<T>] of the header
    [primer/trie.h], as [trie.cpp] uses them: [children_] is a
    [std::map<char, std::shared_ptr<const TrieNode>>]; [value_] is present
    exactly in a [TrieNodeWithValue], whose constructors set
    [is_value_node_]. *)
#[warnings="-register-all"]
Inductive TrieNode := mkTrieNode {
  children_ : gmap ascii TrieNode;
  value_ : option TrieValue
}.

Definition is_value_node_ (n : TrieNode) : bool :=
  match value_ n with Some _ => true | None => false end.

(** [class Trie]: [root_] may be [nullptr]. *)
Record Trie := mkTrie { root_ : option TrieNode }.

(** [key[index]], read within the key. *)
Definition char_at (key : string) (index : nat) : ascii :=
  match String.get index key with
  | Some c => c
  | None => Ascii.zero
  end.

(** [Search(node, key, index)]. Called with [index] past the end of the key
    the source reads outside the key; such a call is outside its contract
    and yields no node here. *)
Equations? Search (node : TrieNode) (key : string) (index : nat)
    : option TrieNode by wf (String.length key - index) lt :=
  Search node key index with Nat.eq_dec index (String.length key) := {
    | left _ := if is_value_node_ node then Some node else None;
    | right _ with le_lt_dec (String.length key) index := {
      | left _ := None;
      | right _ with children_ node !! char_at key index := {
        | None := None;
        | Some next_node := Search next_node key (index + 1) } } }.
Proof. lia. Defined.

(** [CopyCreateNewNode(old_node, has_value, value)] *)
Definition CopyCreateNewNode (old_node : option TrieNode) (has_value : bool)
    (value : TrieValue) : TrieNode :=
  match old_node, has_value with
  | None, true => mkTrieNode ∅ (Some value)
  | None, false => mkTrieNode ∅ None
  | Some n, true => mkTrieNode (children_ n) (Some value)
  | Some n, false => n
  end.

(** The child [Insert] and [RemoveRecursive] descend into:
    [node->children_.at(c)] when [node] is not null and has it, else
    [nullptr]. *)
Definition child_at (node : option TrieNode) (c : ascii) : option TrieNode :=
  match node with
  | None => None
  | Some n => children_ n !! c
  end.

(** [Insert(node, key, index, value)] *)
Equations? Insert (node : option TrieNode) (key : string) (index : nat)
    (value : TrieValue) : TrieNode by wf (String.length key - index) lt :=
  Insert node key index value with Nat.eq_dec index (String.length key) := {
    | left _ := CopyCreateNewNode node true value;
    | right _ with le_lt_dec (String.length key) index := {
      | left _ := CopyCreateNewNode node false value;
      | right _ :=
          let child := Insert (child_at node (char_at key index)) key (index + 1) value in
          let new_node := CopyCreateNewNode node false value in
          mkTrieNode (<[char_at key index := child]> (children_ new_node))
            (value_ new_node) } }.
Proof. lia. Defined.

(** [RemoveRecursive(node, key, index)] *)
Equations? RemoveRecursive (node : option TrieNode) (key : string) (index : nat)
    : option TrieNode by wf (String.length key - index) lt :=
  RemoveRecursive None key index := None;
  RemoveRecursive (Some n) key index with Nat.eq_dec index (String.length key) := {
    | left _ :=
        if decide (children_ n = ∅) then None
        else Some (mkTrieNode (children_ n) None);
    | right _ with le_lt_dec (String.length key) index := {
      | left _ := Some n;
      | right _ :=
          match RemoveRecursive (children_ n !! char_at key index) key (index + 1) with
          | Some child =>
              Some (mkTrieNode (<[char_at key index := child]> (children_ n)) (value_ n))
          | None =>
              Some (mkTrieNode (delete (char_at key index) (children_ n)) (value_ n))
          end } }.
Proof. lia. Defined.

(** [dynamic_cast<const TrieNodeWithValue<T> *>(node)] followed by
    [value_.get()]. *)
Definition cast_value (T : ValueType) (v : TrieValue) : option (denote T) :=
  match decide (projT1 v = T) with
  | left e => Some (eq_rect (projT1 v) denote (projT2 v) T e)
  | right _ => None
  end.

(** [Trie::Get<T>(key)]: [None] for [nullptr]. *)
Definition Get (T : ValueType) (t : Trie) (key : string) : option (denote T) :=
  match root_ t with
  | None => None
  | Some root =>
      match Search root key 0 with
      | None => None
      | Some node =>
          if negb (is_value_node_ node) then None
          else match value_ node with
               | Some v => cast_value T v
               | None => None
               end
      end
  end.

(** [Trie::Put<T>(key, value)] *)
Definition Put (T : ValueType) (t : Trie) (key : string) (value : denote T) : Trie :=
  mkTrie (Some (Insert (root_ t) key 0 (existT T value))).

(** [Trie::Remove(key)] *)
Definition Remove (t : Trie) (key : string) : Trie :=
  mkTrie (RemoveRecursive (root_ t) key 0).

End TrieM.

(** ** Persistent trie: the nodes in memory *)

Module TrieHeap.

Local Open Scope nat_scope.

(** A [TrieNode] or [TrieNodeWithValue<T>] object. The address of an
    object is a [positive]; [children_] holds the
    [shared_ptr<const TrieNode>]s to the children, here their addresses;
    [value_] is present exactly in a [TrieNodeWithValue]. *)
Record TrieNode := mkTrieNode {
  children_ : gmap ascii positive;
  value_ : option TrieM.TrieValue
}.

Definition is_value_node_ (n : TrieNode) : bool :=
  match value_ n with Some _ => true | None => false end.

(** The heap [h : gmap positive TrieNode] holds the node objects alive, by
    address. A [shared_ptr] keeps its object alive, so nothing is freed
    while a trie refers to it. *)

(** [class Trie]: [root_] may be [nullptr]. *)
Record Trie := mkTrie { root_ : option positive }.

(** [std::make_shared<TrieNode>(...)], and the [shared_ptr] made of the
    result of [Clone()]: a new object at an address not in use. *)
Definition make_shared (n : TrieNode) (h : gmap positive TrieNode)
    : positive * gmap positive TrieNode :=
  let a := fresh (dom h) in (a, <[a := n]> h).

(** [new_node->children_[c] = child]: a write through the pointer
    [new_node]; [None] if it points to no object. *)
Definition set_child (new_node : positive) (c : ascii) (child : positive)
    (h : gmap positive TrieNode) : option (gmap positive TrieNode) :=
  match h !! new_node with
  | Some n =>
      Some (<[new_node := mkTrieNode (<[c := child]> (children_ n)) (value_ n)]> h)
  | None => None
  end.

(** [new_node->children_.erase(c)] *)
Definition erase_child (new_node : positive) (c : ascii)
    (h : gmap positive TrieNode) : option (gmap positive TrieNode) :=
  match h !! new_node with
  | Some n =>
      Some (<[new_node := mkTrieNode (delete c (children_ n)) (value_ n)]> h)
  | None => None
  end.

(** [Search(node, key, index)] over the objects of [h]: the outer [None] is
    a read through a pointer to no object. *)
Equations? Search (h : gmap positive TrieNode) (node : positive) (key : string)
    (index : nat) : option (option positive) by wf (String.length key - index) lt :=
  Search h node key index with h !! node := {
    | None := None;
    | Some n with Nat.eq_dec index (String.length key) := {
      | left _ := Some (if is_value_node_ n then Some node else None);
      | right _ with le_lt_dec (String.length key) index := {
        | left _ := Some None;
        | right _ with children_ n !! TrieM.char_at key index := {
          | None := Some None;
          | Some next_node := Search h next_node key (index + 1) } } } }.
Proof. lia. Defined.

(** The end of [RemoveRecursive] after its recursive call:
    [new_node = node->Clone()], then [new_node->children_[c] = child] if
    [child] is not null and [new_node->children_.erase(c)] if it is. *)
Definition clone_and_link (node : positive) (c : ascii) (child : option positive)
    (h : gmap positive TrieNode) : option (option positive * gmap positive TrieNode) :=
  match h !! node with
  | None => None
  | Some n =>
      let new_node := (make_shared n h).1 in
      let h1 := (make_shared n h).2 in
      match match child with
            | Some ch => set_child new_node c ch h1
            | None => erase_child new_node c h1
            end with
      | Some h2 => Some (Some new_node, h2)
      | None => None
      end
  end.

(** [RemoveRecursive(node, key, index)] over the objects of [h]: the node
    it returns and the objects alive afterwards. *)
Equations? RemoveRecursive (node : option positive) (key : string) (index : nat)
    (h : gmap positive TrieNode) : option (option positive * gmap positive TrieNode)
    by wf (String.length key - index) lt :=
  RemoveRecursive None key index h := Some (None, h);
  RemoveRecursive (Some a) key index h with h !! a := {
    | None := None;
    | Some n with Nat.eq_dec index (String.length key) := {
      | left _ :=
          if decide (children_ n = ∅) then Some (None, h)
          else Some (Some (make_shared (mkTrieNode (children_ n) None) h).1,
                     (make_shared (mkTrieNode (children_ n) None) h).2);
      | right _ with le_lt_dec (String.length key) index := {
        | left _ := Some (Some a, h);
        | right _
            with RemoveRecursive (children_ n !! TrieM.char_at key index)
                   key (index + 1) h := {
          | None := None;
          | Some (child, h1) :=
              clone_and_link a (TrieM.char_at key index) child h1 } } } }.
Proof. lia. Defined.

(** [Trie::Get<T>(key)] on the objects of [h]; the inner [None] is
    [nullptr]. *)
Definition Get (T : TrieM.ValueType) (t : Trie) (key : string)
    (h : gmap positive TrieNode) : option (option (TrieM.denote T)) :=
  match root_ t with
  | None => Some None
  | Some root =>
      match Search h root key 0 with
      | None => None
      | Some None => Some None
      | Some (Some node) =>
          match h !! node with
          | None => None
          | Some n =>
              Some (if negb (is_value_node_ n) then None
                    else match value_ n with
                         | Some v => TrieM.cast_value T v
                         | None => None
                         end)
          end
      end
  end.

(** [Trie::Remove(key)]: the new trie and the objects alive afterwards. *)
Definition Remove (t : Trie) (key : string) (h : gmap positive TrieNode)
    : option (Trie * gmap positive TrieNode) :=
  match RemoveRecursive (root_ t) key 0 h with
  | Some (node, h') => Some (mkTrie node, h')
  | None => None
  end.

End TrieHeap.

(** * Properties *)

(** ** Facts about the node store *)

Section ReplacerStore.
Import Replacer.

Implicit Types (st : list (Z * LRUKNode)) (n m : LRUKNode) (f g : Z).

Lemma store_find_elem st f n :
  store_find f st = Some n -> (f, n) ∈ st.
Proof.
  induction st as [|[k x] st IH]; simpl; [discriminate|].
  destruct (Z.eqb_spec k f) as [->|Hne]; intros H.
  - injection H as ->. apply list_elem_of_here.
  - apply list_elem_of_further; auto.
Qed.

Lemma store_find_None_keys st f :
  store_find f st = None <-> f ∉ st.*1.
Proof.
  induction st as [|[k x] st IH]; csimpl.
  - split; [intros _; apply not_elem_of_nil | reflexivity].
  - rewrite not_elem_of_cons. destruct (Z.eqb_spec k f) as [->|Hne].
    + split; [discriminate | intros [H _]; exfalso; apply H; reflexivity].
    + rewrite IH. split; [intros ?; split; [congruence | assumption] | tauto].
Qed.

Lemma elem_store_find st f n :
  NoDup st.*1 -> (f, n) ∈ st -> store_find f st = Some n.
Proof.
  induction st as [|[k x] st IH]; csimpl; intros Hnd Hin.
  - apply elem_of_nil in Hin as [].
  - apply NoDup_cons in Hnd as [Hk Hnd].
    apply elem_of_cons in Hin as [Heq|Hin].
    + injection Heq as -> ->. rewrite Z.eqb_refl. reflexivity.
    + destruct (Z.eqb_spec k f) as [->|Hne]; [|auto].
      exfalso. apply Hk. apply list_elem_of_fmap. exists (f, n). auto.
Qed.

Lemma store_update_keys st f (h : LRUKNode -> LRUKNode) :
  (store_update f h st).*1 = st.*1.
Proof.
  induction st as [|[k x] st IH]; [reflexivity|].
  cbn [store_update]. destruct (Z.eqb k f); csimpl; congruence.
Qed.

Lemma store_find_update st f g (h : LRUKNode -> LRUKNode) :
  store_find g (store_update f h st) =
  if Z.eqb f g then h <$> store_find g st else store_find g st.
Proof.
  induction st as [|[k x] st IH]; simpl.
  - destruct (Z.eqb f g); reflexivity.
  - destruct (Z.eqb_spec k f) as [->|Hkf]; simpl.
    + destruct (Z.eqb_spec f g) as [->|Hfg]; reflexivity.
    + rewrite IH. destruct (Z.eqb_spec k g) as [->|Hkg]; [|reflexivity].
      destruct (Z.eqb_spec f g); [congruence | reflexivity].
Qed.

Lemma store_erase_keys_sub st f g :
  g ∈ (store_erase f st).*1 -> g ∈ st.*1.
Proof.
  induction st as [|[k x] st IH]; [auto|].
  cbn [store_erase]. destruct (Z.eqb k f); csimpl; rewrite !elem_of_cons; [auto|].
  intros [?|?]; auto.
Qed.

Lemma store_erase_NoDup st f :
  NoDup st.*1 -> NoDup (store_erase f st).*1.
Proof.
  induction st as [|[k x] st IH]; [auto|].
  cbn [store_erase]. csimpl.
  rewrite NoDup_cons. intros [Hk Hnd].
  destruct (Z.eqb k f); csimpl; [auto|].
  apply NoDup_cons. split; [|auto].
  intros Hin. apply Hk. eapply store_erase_keys_sub; eauto.
Qed.

Lemma store_find_erase st f g :
  NoDup st.*1 ->
  store_find g (store_erase f st) =
  if Z.eqb f g then None else store_find g st.
Proof.
  induction st as [|[k x] st IH]; csimpl; intros Hnd.
  - destruct (Z.eqb f g); reflexivity.
  - apply NoDup_cons in Hnd as [Hk Hnd].
    destruct (Z.eqb_spec k f) as [->|Hkf]; simpl.
    + destruct (Z.eqb_spec f g) as [->|Hfg]; [|reflexivity].
      apply store_find_None_keys. exact Hk.
    + rewrite IH by assumption.
      destruct (Z.eqb_spec k g) as [->|Hkg]; [|reflexivity].
      destruct (Z.eqb_spec f g); [congruence | reflexivity].
Qed.

Lemma store_erase_elem st f kv :
  kv ∈ store_erase f st -> kv ∈ st.
Proof.
  induction st as [|[k x] st IH]; simpl; [auto|].
  destruct (Z.eqb k f); rewrite !elem_of_cons; [auto|].
  intros [?|?]; auto.
Qed.

Lemma store_find_app st f g n :
  store_find g (st ++ [(f, n)]) =
  match store_find g st with
  | Some x => Some x
  | None => if Z.eqb f g then Some n else None
  end.
Proof.
  induction st as [|[k x] st IH]; simpl; [reflexivity|].
  destruct (Z.eqb k g); auto.
Qed.

(** The number of nodes whose [is_evictable_] is set. *)
Fixpoint count_evictable st : Z :=
  match st with
  | [] => 0
  | kv :: rest => (if is_evictable_ kv.2 then 1 else 0) + count_evictable rest
  end.

Lemma count_evictable_bounds st :
  0 <= count_evictable st <= Z.of_nat (List.length st).
Proof.
  induction st as [|[k x] st IH]; simpl count_evictable; simpl List.length; [lia|].
  destruct (is_evictable_ x); lia.
Qed.

Lemma count_evictable_app st st' :
  count_evictable (st ++ st') = count_evictable st + count_evictable st'.
Proof. induction st as [|kv st IH]; simpl; lia. Qed.

Lemma count_evictable_update st f n (h : LRUKNode -> LRUKNode) :
  store_find f st = Some n ->
  count_evictable (store_update f h st) =
  count_evictable st - (if is_evictable_ n then 1 else 0)
  + (if is_evictable_ (h n) then 1 else 0).
Proof.
  induction st as [|[k x] st IH]; simpl; [discriminate|].
  destruct (Z.eqb k f); simpl.
  - intros [= ->]. lia.
  - intros H. rewrite (IH H). lia.
Qed.

Lemma count_evictable_erase st f n :
  store_find f st = Some n ->
  count_evictable (store_erase f st) =
  count_evictable st - (if is_evictable_ n then 1 else 0).
Proof.
  induction st as [|[k x] st IH]; simpl; [discriminate|].
  destruct (Z.eqb k f); simpl.
  - intros [= ->]. lia.
  - intros H. rewrite (IH H). lia.
Qed.

Lemma count_evictable_pos st :
  0 < count_evictable st <-> exists kv, kv ∈ st /\ is_evictable_ kv.2 = true.
Proof.
  induction st as [|kv st IH]; simpl.
  - split; [lia | intros (? & H & _); apply elem_of_nil in H as []].
  - pose proof (count_evictable_bounds st). split.
    + destruct (is_evictable_ kv.2) eqn:E.
      * intros _. exists kv. split; [apply list_elem_of_here | auto].
      * intros H1. destruct IH as [IH _]. destruct IH as (x & ? & ?); [lia|].
        exists x. split; [apply list_elem_of_further|]; auto.
    + intros (x & [->|Hin]%elem_of_cons & Hx).
      * rewrite Hx. lia.
      * destruct IH as [_ IH]. assert (0 < count_evictable st) by eauto.
        destruct (is_evictable_ kv.2); lia.
Qed.

End ReplacerStore.

(** ** The replacer's victim selection *)

Section ReplacerEvict.
Import Replacer.

Implicit Types (st : list (Z * LRUKNode)) (n m : LRUKNode) (f g t : Z).

(** What the replacer relies on between calls: unique keys, each node filed
    under its own frame id, [curr_size_] the number of evictable nodes, and
    a node count that fits [size_t]. *)
Definition replacer_wf (r : LRUKReplacer) : Prop :=
  NoDup (node_store_ r).*1
  /\ (forall kv, kv ∈ node_store_ r -> fid_ kv.2 = kv.1)
  /\ curr_size_ r = count_evictable (node_store_ r)
  /\ Z.of_nat (List.length (node_store_ r)) < 2 ^ 64.

(** [beats t n c]: the test of [Evict]'s loop under which node [n] replaces
    the current candidate [c]. *)
Definition beats t n c : Prop :=
  GetKDistance t c < GetKDistance t n
  \/ (GetKDistance t n = GetKDistance t c
      /\ GetKDistance t c = ULONG_MAX
      /\ front n < front c).

Definition loop_inv t (seen : list (Z * LRUKNode)) (acc : evict_acc) : Prop :=
  (ev_is_first acc = true /\ ev_out acc = None
   /\ forall kv, kv ∈ seen -> is_evictable_ kv.2 = false)
  \/ (ev_is_first acc = false
      /\ exists kv, kv ∈ seen /\ is_evictable_ kv.2 = true
         /\ ev_curr_node acc = kv.2 /\ ev_out acc = Some (fid_ kv.2)
         /\ ev_val acc = GetKDistance t kv.2
         /\ forall kv', kv' ∈ seen -> is_evictable_ kv'.2 = true ->
                        ~ beats t kv'.2 kv.2).

Lemma evict_step_inv t seen acc kv :
  loop_inv t seen acc -> loop_inv t (seen ++ [kv]) (evict_step t acc kv).
Proof.
  unfold evict_step. intros Hinv.
  destruct (is_evictable_ kv.2) eqn:Hev; cbn [negb].
  - destruct Hinv as [(Hf & Hout & Hall) | (Hf & c & Hc & Hcev & Hcur & Hout & Hval & Hmax)];
      rewrite Hf.
    + right. split; [reflexivity|]. exists kv. cbn.
      repeat split; auto; [set_solver|].
      intros kv' [Hin | ->%list_elem_of_singleton]%elem_of_app Hev'.
      * rewrite (Hall _ Hin) in Hev'. discriminate.
      * unfold beats. lia.
    + rewrite Hval, Hcur.
      destruct ((GetKDistance t c.2 <? GetKDistance t kv.2)
                || ((GetKDistance t kv.2 =? GetKDistance t c.2)
                    && (GetKDistance t c.2 =? ULONG_MAX)
                    && (front kv.2 <? front c.2))) eqn:Htest.
      * right. split; [reflexivity|]. exists kv. cbn.
        repeat split; auto; [set_solver|].
        assert (Hb : beats t kv.2 c.2) by (unfold beats; lia).
        intros kv' [Hin | ->%list_elem_of_singleton]%elem_of_app Hev'.
        -- specialize (Hmax _ Hin Hev'). unfold beats in *. lia.
        -- unfold beats. lia.
      * right. split; [assumption|]. exists c.
        repeat split; auto; [set_solver|].
        intros kv' [Hin | ->%list_elem_of_singleton]%elem_of_app Hev'; [auto|].
        unfold beats. lia.
  - destruct Hinv as [(Hf & Hout & Hall) | (Hf & c & Hc & Hcev & Hcur & Hout & Hval & Hmax)].
    + left. repeat split; auto.
      intros kv' [Hin | ->%list_elem_of_singleton]%elem_of_app; auto.
    + right. split; [assumption|]. exists c.
      repeat split; auto; [set_solver|].
      intros kv' [Hin | ->%list_elem_of_singleton]%elem_of_app Hev'; [auto|].
      congruence.
Qed.

Lemma evict_fold_inv t st : forall seen acc,
  loop_inv t seen acc ->
  loop_inv t (seen ++ st) (fold_left (evict_step t) st acc).
Proof.
  induction st as [|kv st IH]; intros seen acc Hinv; simpl.
  - rewrite app_nil_r. exact Hinv.
  - replace (seen ++ kv :: st) with ((seen ++ [kv]) ++ st)
      by (rewrite <- app_assoc; reflexivity).
    apply IH. apply evict_step_inv. exact Hinv.
Qed.

Lemma evict_loop_inv t st : loop_inv t st (evict_loop t st).
Proof.
  unfold evict_loop. apply (evict_fold_inv t st []).
  left. cbn. repeat split; auto. intros kv H. apply elem_of_nil in H as [].
Qed.

(** The loop leaves [*frame_id] unwritten exactly when no node is evictable. *)
Lemma evict_loop_None t st :
  ev_out (evict_loop t st) = None <-> count_evictable st = 0.
Proof.
  pose proof (evict_loop_inv t st) as [(_ & Hout & Hall) | (_ & c & Hc & Hcev & _ & Hout & _)].
  - split; [intros _ | auto].
    pose proof (count_evictable_bounds st).
    destruct (Z.eq_dec (count_evictable st) 0) as [|Hne]; [assumption|].
    assert (Hpos : 0 < count_evictable st) by lia.
    apply count_evictable_pos in Hpos as (kv & Hin & Hev).
    rewrite (Hall _ Hin) in Hev. discriminate.
  - split; [congruence|]. intros H0.
    assert (0 < count_evictable st) by (apply count_evictable_pos; eauto). lia.
Qed.

(** The replacer after the clock tick at the head of [Evict]. *)
Definition tick (r : LRUKReplacer) : LRUKReplacer := (GetCurrentTimeStamp r).2.

Lemma Evict_selects r :
  replacer_wf r -> 0 < count_evictable (node_store_ r) ->
  exists fid n,
    Evict r = Some (Some fid,
                    mkReplacer (store_erase fid (node_store_ r))
                      (current_timestamp_ r + 1) (curr_size_ r - 1)
                      (replacer_size_ r) (rk_ r))
    /\ store_find fid (node_store_ r) = Some n
    /\ is_evictable_ n = true
    /\ forall kv, kv ∈ node_store_ r -> is_evictable_ kv.2 = true ->
                  ~ beats (current_timestamp_ r) kv.2 n.
Proof.
  intros (Hnd & Hfid & Hsz & Hlen) Hpos.
  pose proof (count_evictable_bounds (node_store_ r)) as Hb.
  unfold Evict, GetCurrentTimeStamp.
  cbn [curr_size_ node_store_ current_timestamp_ replacer_size_ rk_].
  destruct (Z.eqb_spec (curr_size_ r) 0) as [H0|_]; [lia|].
  pose proof (evict_loop_inv (current_timestamp_ r) (node_store_ r))
    as [(_ & _ & Hall) | (_ & c & Hc & Hcev & _ & Hout & _ & Hmax)].
  - apply count_evictable_pos in Hpos as (kv & Hin & Hev).
    rewrite (Hall _ Hin) in Hev. discriminate.
  - rewrite Hout. exists (fid_ c.2), c.2.
    assert (Hw : wrap64 (curr_size_ r - 1) = curr_size_ r - 1).
    { unfold wrap64. apply Z.mod_small. lia. }
    rewrite Hw. split; [reflexivity|].
    split; [|auto].
    apply elem_store_find; [assumption|].
    rewrite (Hfid _ Hc). destruct c; exact Hc.
Qed.

Lemma Evict_nothing r :
  replacer_wf r -> count_evictable (node_store_ r) = 0 ->
  Evict r = Some (None, tick r).
Proof.
  intros (_ & _ & Hsz & _) H0. unfold Evict, tick, GetCurrentTimeStamp.
  cbn [curr_size_ node_store_ current_timestamp_ replacer_size_ rk_ snd].
  rewrite Hsz, H0. reflexivity.
Qed.

End ReplacerEvict.

Section ReplacerContract.
Import Replacer.

(** What [evict()] promises, with the rule for ties at +inf left open:
    [tie] is the timestamp of a node that decides between two nodes whose
    backward K-distance is [ULONG_MAX]. *)
Definition Evict_contract (tie : LRUKNode -> Z) (r : LRUKReplacer) : Prop :=
  ((exists r', Evict r = Some (None, r')) <-> count_evictable (node_store_ r) = 0)
  /\ (0 < count_evictable (node_store_ r) ->
      exists fid n r',
        Evict r = Some (Some fid, r')
        /\ store_find fid (node_store_ r) = Some n
        /\ is_evictable_ n = true
        /\ (forall kv, kv ∈ node_store_ r -> is_evictable_ kv.2 = true ->
              GetKDistance (current_timestamp_ r) kv.2
                <= GetKDistance (current_timestamp_ r) n
              /\ (GetKDistance (current_timestamp_ r) kv.2 = ULONG_MAX ->
                  GetKDistance (current_timestamp_ r) n = ULONG_MAX ->
                  tie n <= tie kv.2))
        /\ store_find fid (node_store_ r') = None
        /\ (forall g, g <> fid ->
              store_find g (node_store_ r') = store_find g (node_store_ r))
        /\ curr_size_ r' = curr_size_ r - 1
        /\ count_evictable (node_store_ r') = count_evictable (node_store_ r) - 1).

(** [Evict] meets its contract, with ties at +inf decided by
    [history_.front()], in every well-formed state. *)
Lemma Evict_contract_wf (r : LRUKReplacer) :
  replacer_wf r -> Evict_contract front r.
Proof.
  intros Hwf. pose proof Hwf as (Hnd & Hfid & Hsz & Hlen). split.
  - split.
    + intros [r' HE].
      pose proof (count_evictable_bounds (node_store_ r)) as Hb.
      destruct (Z.eq_dec (count_evictable (node_store_ r)) 0) as [|Hne]; [assumption|].
      destruct (Evict_selects r Hwf) as (fid & n & HE' & _); [lia|].
      congruence.
    + intros H0. eexists. apply Evict_nothing; assumption.
  - intros Hpos.
    destruct (Evict_selects r Hwf Hpos) as (fid & n & HE & Hfind & Hev & Hmax).
    exists fid, n. eexists. split; [exact HE|].
    cbn [node_store_ curr_size_].
    split; [assumption|]. split; [assumption|]. split.
    { intros kv Hin Hkv. specialize (Hmax kv Hin Hkv). unfold beats in Hmax. lia. }
    split.
    { rewrite store_find_erase by assumption. rewrite Z.eqb_refl. reflexivity. }
    split.
    { intros g Hg. rewrite store_find_erase by assumption.
      destruct (Z.eqb_spec fid g); [congruence | reflexivity]. }
    split; [reflexivity|].
    rewrite (count_evictable_erase _ _ _ Hfind), Hev. reflexivity.
Qed.

(** [RecordAccess] aborts exactly when its assertion fails. *)
Lemma RecordAccess_aborts (frame_id : Z) (r : LRUKReplacer) :
  RecordAccess frame_id r = None <-> ~ (0 <= frame_id <= replacer_size_ r).
Proof.
  unfold RecordAccess, GetCurrentTimeStamp.
  cbn [curr_size_ node_store_ current_timestamp_ replacer_size_ rk_].
  destruct (Z.leb_spec 0 frame_id), (Z.leb_spec frame_id (replacer_size_ r));
    cbn [andb]; try (split; [intros _; lia | reflexivity]).
  destruct (store_find frame_id (node_store_ r)); split; (discriminate || lia).
Qed.

(** C5, at the failing input: on a replacer for [num_frames] frames,
    [record_access(num_frames)] passes the assertion and records the access
    in a new node, although [num_frames] is outside [0, num_frames). *)
Theorem RecordAccess_accepts_num_frames (num_frames : Z) (k : nat) :
  0 <= num_frames ->
  exists r',
    RecordAccess num_frames (LRUKReplacer_new num_frames k) = Some r'
    /\ store_find num_frames (node_store_ r')
       = Some (node_RecordAccess 0 (LRUKNode_new num_frames k)).
Proof.
  intros H. unfold RecordAccess, LRUKReplacer_new, GetCurrentTimeStamp.
  cbn [curr_size_ node_store_ current_timestamp_ replacer_size_ rk_ store_find].
  destruct (Z.leb_spec 0 num_frames); [|lia].
  destruct (Z.leb_spec num_frames num_frames); [|lia].
  cbn [andb]. eexists. split; [reflexivity|].
  cbn [node_store_ app store_find]. rewrite Z.eqb_refl. reflexivity.
Qed.

Lemma RecordAccess_accepts_num_frames_witness :
  exists r',
    RecordAccess 3 (LRUKReplacer_new 3 2) = Some r'
    /\ store_find 3 (node_store_ r')
       = Some (node_RecordAccess 0 (LRUKNode_new 3 2)).
Proof. apply (RecordAccess_accepts_num_frames 3 2). lia. Defined.

End ReplacerContract.

(** ** The replacer as the buffer pool sees it *)

Section ReplacerView.
Import Replacer.

Implicit Types (r : LRUKReplacer) (st : list (Z * LRUKNode)) (n : LRUKNode) (f g : Z).

Definition find_node r f : option LRUKNode := store_find f (node_store_ r).

Definition has_node r f : Prop := is_Some (find_node r f).

Definition evictable r f : Prop :=
  exists n, find_node r f = Some n /\ is_evictable_ n = true.

(** A replacer built for [N] frames whose nodes lie in [0, M). *)
Definition RInvB (N M : Z) r : Prop :=
  replacer_wf r
  /\ replacer_size_ r = N
  /\ (forall f, has_node r f -> 0 <= f < M)
  /\ M <= 2 ^ 31.

(** The replacer of a pool of [N] frames: the pool records accesses to the
    frames [0, N) only. *)
Definition RInv (N : Z) r : Prop := RInvB N N r.

Lemma store_erase_length st f :
  (List.length (store_erase f st) <= List.length st)%nat.
Proof.
  induction st as [|[k x] st IH]; simpl; [lia|].
  destruct (Z.eqb k f); simpl; lia.
Qed.

Lemma store_update_length st f (h : LRUKNode -> LRUKNode) :
  List.length (store_update f h st) = List.length st.
Proof.
  induction st as [|[k x] st IH]; simpl; [lia|].
  destruct (Z.eqb k f); simpl; lia.
Qed.

Lemma store_update_elem st f (h : LRUKNode -> LRUKNode) kv :
  kv ∈ store_update f h st ->
  kv ∈ st \/ exists n, (kv.1, n) ∈ st /\ kv.2 = h n.
Proof.
  induction st as [|[k x] st IH]; simpl; [auto|].
  destruct (Z.eqb k f); rewrite !elem_of_cons.
  - intros [->|?]; [|auto]. right. exists x. split; [left|]; reflexivity.
  - intros [->|Hin]; [auto|]. destruct (IH Hin) as [?|(n & ? & ?)]; [auto|].
    right. exists n. rewrite elem_of_cons. auto.
Qed.

(** Unique keys inside [0, N) are at most [N]. *)
Lemma keys_in_range_length st (N : Z) :
  NoDup st.*1 -> (forall k, k ∈ st.*1 -> 0 <= k < N) ->
  Z.of_nat (List.length st) <= Z.max 0 N.
Proof.
  intros Hnd Hr.
  assert (Hsub : st.*1 ⊆+ (Z.of_nat <$> seq 0 (Z.to_nat N))).
  { apply NoDup_submseteq; [assumption|]. intros k Hk.
    apply list_elem_of_fmap. exists (Z.to_nat k). specialize (Hr k Hk).
    split; [lia|]. apply elem_of_seq. lia. }
  apply submseteq_length in Hsub.
  rewrite !length_fmap, length_seq in Hsub. lia.
Qed.

Lemma has_node_keys r f : has_node r f <-> f ∈ (node_store_ r).*1.
Proof.
  unfold has_node, find_node.
  destruct (store_find f (node_store_ r)) eqn:E.
  - split; [intros _ | eauto].
    apply list_elem_of_fmap. exists (f, l). split; [reflexivity|].
    apply store_find_elem. exact E.
  - split; [intros [? ?]; discriminate|].
    intros Hin. apply store_find_None_keys in E. contradiction.
Qed.

Lemma set_flag_same n : set_flag (is_evictable_ n) n = n.
Proof. destruct n; reflexivity. Qed.

Lemma find_node_SetEvictable r f (b : bool) g :
  find_node (SetEvictable f b r) g
  = if Z.eqb f g then set_flag b <$> find_node r g else find_node r g.
Proof.
  unfold find_node, SetEvictable.
  destruct (store_find f (node_store_ r)) as [n|] eqn:E.
  - destruct (Bool.eqb_spec (is_evictable_ n) b) as [<-|Hne].
    + destruct (Z.eqb_spec f g) as [<-|]; [|reflexivity].
      rewrite E. cbn. rewrite set_flag_same. reflexivity.
    + cbn [node_store_]. apply store_find_update.
  - destruct (Z.eqb_spec f g) as [<-|]; [|reflexivity].
    rewrite E. reflexivity.
Qed.

Lemma SetEvictable_wf r f (b : bool) :
  replacer_wf r -> replacer_wf (SetEvictable f b r).
Proof.
  intros (Hnd & Hfid & Hsz & Hlen). unfold SetEvictable.
  destruct (store_find f (node_store_ r)) as [n|] eqn:E; [|repeat split; assumption].
  destruct (Bool.eqb_spec (is_evictable_ n) b) as [Heq|Hne]; [repeat split; assumption|].
  unfold replacer_wf. cbn [node_store_ curr_size_].
  rewrite store_update_keys, store_update_length.
  split; [assumption|]. split; [|split; [|assumption]].
  - intros kv [Hin|(m & Hin & Hm)]%store_update_elem; [auto|].
    rewrite Hm. cbn. apply (Hfid _ Hin).
  - rewrite (count_evictable_update _ _ _ _ E). cbn [set_flag is_evictable_].
    pose proof (count_evictable_bounds (node_store_ r)) as Hb.
    pose proof (count_evictable_bounds (store_update f (set_flag b) (node_store_ r))) as Hb'.
    rewrite (count_evictable_update _ _ _ _ E), store_update_length in Hb'.
    cbn [set_flag is_evictable_] in Hb'.
    rewrite Hsz. unfold wrap64.
    destruct (is_evictable_ n), b; try congruence; rewrite Z.mod_small; lia.
Qed.

Lemma SetEvictable_size r f (b : bool) :
  replacer_size_ (SetEvictable f b r) = replacer_size_ r.
Proof.
  unfold SetEvictable. destruct (store_find f (node_store_ r)); [|reflexivity].
  destruct (Bool.eqb _ _); reflexivity.
Qed.

Lemma has_node_SetEvictable r f (b : bool) g :
  has_node (SetEvictable f b r) g <-> has_node r g.
Proof.
  unfold has_node. rewrite find_node_SetEvictable.
  destruct (Z.eqb f g); [|reflexivity].
  rewrite fmap_is_Some. reflexivity.
Qed.

Lemma evictable_SetEvictable r f (b : bool) g :
  evictable (SetEvictable f b r) g
  <-> if Z.eqb f g then has_node r f /\ b = true else evictable r g.
Proof.
  unfold evictable, has_node. rewrite find_node_SetEvictable.
  destruct (Z.eqb_spec f g) as [<-|]; [|reflexivity].
  destruct (find_node r f) as [n|]; cbn.
  - split; [intros (m & [= <-] & Hb); cbn in Hb; eauto|].
    intros [_ ->]. eexists. split; reflexivity.
  - split; [intros (m & [=] & _) | intros [[? [=]] _]].
Qed.

Lemma SetEvictable_RInvB N M r f (b : bool) :
  RInvB N M r -> RInvB N M (SetEvictable f b r).
Proof.
  intros (Hwf & Hsz & Hr & HN). split; [apply SetEvictable_wf; assumption|].
  rewrite SetEvictable_size. split; [assumption|]. split; [|assumption].
  intros g Hg%has_node_SetEvictable. auto.
Qed.

(** [RecordAccess] on a frame of the pool. *)
Lemma RecordAccess_runB N M r f :
  RInvB N M r -> 0 <= f < M -> f <= N ->
  exists r',
    RecordAccess f r = Some r'
    /\ RInvB N M r'
    /\ has_node r' f
    /\ (forall g, has_node r' g <-> has_node r g \/ g = f)
    /\ (forall g, evictable r' g <-> evictable r g).
Proof.
  intros ((Hnd & Hfid & Hsz & Hlen) & HN & Hr & Hmax) Hf HfN.
  unfold RecordAccess, GetCurrentTimeStamp.
  cbn [curr_size_ node_store_ current_timestamp_ replacer_size_ rk_].
  destruct (Z.leb_spec 0 f); [|lia].
  destruct (Z.leb_spec f (replacer_size_ r)); [|lia]. cbn [andb].
  destruct (store_find f (node_store_ r)) as [n|] eqn:E.
  - eexists. split; [reflexivity|].
    assert (Hfind : forall g,
      store_find g (store_update f (node_RecordAccess (current_timestamp_ r)) (node_store_ r))
      = if Z.eqb f g then node_RecordAccess (current_timestamp_ r) <$> store_find g (node_store_ r)
        else store_find g (node_store_ r)) by (intros; apply store_find_update).
    assert (Hhas : forall g,
      has_node (mkReplacer (store_update f (node_RecordAccess (current_timestamp_ r)) (node_store_ r))
                  (current_timestamp_ r + 1) (curr_size_ r) (replacer_size_ r) (rk_ r)) g
      <-> has_node r g).
    { intros g. unfold has_node, find_node. cbn [node_store_]. rewrite Hfind.
      destruct (Z.eqb f g); [rewrite fmap_is_Some|]; reflexivity. }
    split; [|split; [|split]].
    + split; [|split; [assumption|split; [|assumption]]].
      * unfold replacer_wf. cbn [node_store_ curr_size_].
        rewrite store_update_keys, store_update_length.
        split; [assumption|]. split; [|split; [|assumption]].
        -- intros kv [Hin|(m & Hin & Hm)]%store_update_elem; [auto|].
           rewrite Hm. cbn. apply (Hfid _ Hin).
        -- rewrite (count_evictable_update _ _ _ _ E). cbn. lia.
      * intros g Hg%Hhas. auto.
    + apply Hhas. unfold has_node, find_node. rewrite E. eauto.
    + intros g. rewrite Hhas. split; [auto|]. intros [?| ->]; [assumption|].
      unfold has_node, find_node. rewrite E. eauto.
    + intros g. unfold evictable, find_node. cbn [node_store_]. rewrite Hfind.
      destruct (Z.eqb_spec f g) as [<-|]; [|reflexivity].
      rewrite E. cbn. split.
      * intros (m & [= <-] & Hm). eauto.
      * intros (m & [= <-] & Hm). eexists. split; [reflexivity | exact Hm].
  - eexists. split; [reflexivity|].
    set (node := node_RecordAccess (current_timestamp_ r) (LRUKNode_new f (rk_ r))).
    assert (Hfind : forall g,
      store_find g (node_store_ r ++ [(f, node)])
      = match store_find g (node_store_ r) with
        | Some x => Some x
        | None => if Z.eqb f g then Some node else None
        end) by (intros; apply store_find_app).
    assert (Hhas : forall g,
      has_node (mkReplacer (node_store_ r ++ [(f, node)])
                  (current_timestamp_ r + 1) (curr_size_ r) (replacer_size_ r) (rk_ r)) g
      <-> has_node r g \/ g = f).
    { intros g. unfold has_node, find_node. cbn [node_store_]. rewrite Hfind.
      destruct (store_find g (node_store_ r)) eqn:Eg.
      - split; eauto.
      - destruct (Z.eqb_spec f g) as [<-|].
        + split; eauto.
        + split; [intros [? [=]] | intros [[? [=]] | ?]; congruence]. }
    assert (Hnd' : NoDup (node_store_ r ++ [(f, node)]).*1).
    { rewrite fmap_app. apply NoDup_app. split; [assumption|]. split.
      - intros k Hk [->|[]%elem_of_nil]%elem_of_cons.
        apply store_find_None_keys in E. contradiction.
      - apply NoDup_singleton. }
    assert (Hrange : forall g,
      has_node (mkReplacer (node_store_ r ++ [(f, node)])
                  (current_timestamp_ r + 1) (curr_size_ r) (replacer_size_ r) (rk_ r)) g
      -> 0 <= g < M).
    { intros g [Hg| ->]%Hhas; [auto | lia]. }
    split; [|split; [|split]].
    + split; [|split; [assumption|split; [assumption|assumption]]].
      unfold replacer_wf. cbn [node_store_ curr_size_].
      split; [assumption|]. split; [|split].
      * intros kv [Hin | ->%list_elem_of_singleton]%elem_of_app; [auto | reflexivity].
      * rewrite count_evictable_app. cbn. lia.
      * pose proof (keys_in_range_length (node_store_ r ++ [(f, node)]) M Hnd') as Hk.
        assert (Z.of_nat (List.length (node_store_ r ++ [(f, node)])) <= Z.max 0 M).
        { apply Hk. intros k Hk'. apply Hrange. apply has_node_keys. exact Hk'. }
        lia.
    + apply Hhas. auto.
    + exact Hhas.
    + intros g. unfold evictable, find_node. cbn [node_store_]. rewrite Hfind.
      destruct (store_find g (node_store_ r)) eqn:Eg; [reflexivity|].
      destruct (Z.eqb f g).
      * split; [intros (m & [= <-] & Hm); discriminate | intros (m & [=] & _)].
      * reflexivity.
Qed.

(** [Evict] on the replacer of a pool. *)
Lemma Evict_runB N M r :
  RInvB N M r ->
  (exists r', Evict r = Some (None, r')
     /\ (forall f, ~ evictable r f)
     /\ RInvB N M r'
     /\ (forall g, has_node r' g <-> has_node r g)
     /\ (forall g, evictable r' g <-> evictable r g))
  \/ (exists f r', Evict r = Some (Some f, r')
        /\ evictable r f
        /\ RInvB N M r'
        /\ ~ has_node r' f
        /\ (forall g, g <> f -> has_node r' g <-> has_node r g)
        /\ (forall g, g <> f -> evictable r' g <-> evictable r g)).
Proof.
  intros (Hwf & HN & Hr & Hmax). pose proof Hwf as (Hnd & Hfid & Hsz & Hlen).
  pose proof (count_evictable_bounds (node_store_ r)) as Hb.
  destruct (Z.eq_dec (count_evictable (node_store_ r)) 0) as [H0|Hne].
  - left. exists (tick r). split; [apply Evict_nothing; assumption|].
    split.
    { intros f (n & Hn & Hev).
      assert (0 < count_evictable (node_store_ r)); [|lia].
      apply count_evictable_pos. exists (f, n). split; [|exact Hev].
      apply store_find_elem. exact Hn. }
    split; [|split; reflexivity].
    split; [exact Hwf|]. split; [exact HN|]. split; [exact Hr | exact Hmax].
  - right. destruct (Evict_selects r Hwf) as (f & n & HE & Hfind & Hev & _); [lia|].
    exists f. eexists. split; [exact HE|].
    assert (Hfn : forall g,
      store_find g (store_erase f (node_store_ r))
      = if Z.eqb f g then None else store_find g (node_store_ r))
      by (intros; apply store_find_erase; assumption).
    split; [exists n; auto|]. split; [|split; [|split]].
    + split; [|split; [assumption|split; [|assumption]]].
      * unfold replacer_wf. cbn [node_store_ curr_size_].
        split; [apply store_erase_NoDup; assumption|].
        split; [|split].
        -- intros kv Hin%store_erase_elem. auto.
        -- rewrite (count_evictable_erase _ _ _ Hfind), Hev. lia.
        -- pose proof (store_erase_length (node_store_ r) f). lia.
      * intros g. unfold has_node, find_node. cbn [node_store_]. rewrite Hfn.
        destruct (Z.eqb f g); [intros [? [=]]|]. apply Hr.
    + unfold has_node, find_node. cbn [node_store_]. rewrite Hfn, Z.eqb_refl.
      intros [? [=]].
    + intros g Hg. unfold has_node, find_node. cbn [node_store_]. rewrite Hfn.
      destruct (Z.eqb_spec f g); [congruence | reflexivity].
    + intros g Hg. unfold evictable, find_node. cbn [node_store_]. rewrite Hfn.
      destruct (Z.eqb_spec f g); [congruence | reflexivity].
Qed.

Lemma evictable_has_node r f : evictable r f -> has_node r f.
Proof. intros (n & H & _). unfold has_node. rewrite H. eauto. Qed.

Lemma RInvB_new (N M : Z) (k : nat) :
  M <= 2 ^ 31 -> RInvB N M (LRUKReplacer_new N k).
Proof.
  intros H. split; [|split; [reflexivity|split; [|assumption]]].
  - unfold replacer_wf. cbn. split; [apply NoDup_nil_2|].
    split; [intros kv []%elem_of_nil|]. split; [reflexivity | lia].
  - intros f [? [=]].
Qed.

Lemma Remove_RInvB N M r f :
  RInvB N M r -> RInvB N M (Remove f r).
Proof.
  intros (Hwf & HN & Hr & Hmax). pose proof Hwf as (Hnd & Hfid & Hsz & Hlen).
  unfold Remove. destruct (store_find f (node_store_ r)) as [n|] eqn:E;
    [|split; [exact Hwf | auto]].
  assert (Hfn : forall g,
    store_find g (store_erase f (node_store_ r))
    = if Z.eqb f g then None else store_find g (node_store_ r))
    by (intros; apply store_find_erase; assumption).
  split; [|split; [assumption|split; [|assumption]]].
  - unfold replacer_wf. cbn [node_store_ curr_size_].
    split; [apply store_erase_NoDup; assumption|].
    split; [|split].
    + intros kv Hin%store_erase_elem. auto.
    + rewrite (count_evictable_erase _ _ _ E).
      pose proof (count_evictable_bounds (node_store_ r)) as Hb.
      pose proof (count_evictable_bounds (store_erase f (node_store_ r))) as Hb'.
      rewrite (count_evictable_erase _ _ _ E) in Hb'.
      pose proof (store_erase_length (node_store_ r) f).
      rewrite Hsz. unfold wrap64.
      destruct (is_evictable_ n); rewrite Z.mod_small; lia.
    + pose proof (store_erase_length (node_store_ r) f). lia.
  - intros g. unfold has_node, find_node. cbn [node_store_]. rewrite Hfn.
    destruct (Z.eqb f g); [intros [? [=]]|]. apply Hr.
Qed.

(** The corollaries the buffer pool uses. *)
Lemma SetEvictable_RInv N r f (b : bool) :
  RInv N r -> RInv N (SetEvictable f b r).
Proof. apply SetEvictable_RInvB. Qed.

Lemma RecordAccess_run N r f :
  RInv N r -> 0 <= f < N ->
  exists r',
    RecordAccess f r = Some r'
    /\ RInv N r'
    /\ has_node r' f
    /\ (forall g, has_node r' g <-> has_node r g \/ g = f)
    /\ (forall g, evictable r' g <-> evictable r g).
Proof. intros H Hf. apply (RecordAccess_runB N N r f H Hf). lia. Qed.

Lemma Evict_run N r :
  RInv N r ->
  (exists r', Evict r = Some (None, r')
     /\ (forall f, ~ evictable r f)
     /\ RInv N r'
     /\ (forall g, has_node r' g <-> has_node r g)
     /\ (forall g, evictable r' g <-> evictable r g))
  \/ (exists f r', Evict r = Some (Some f, r')
        /\ evictable r f
        /\ RInv N r'
        /\ ~ has_node r' f
        /\ (forall g, g <> f -> has_node r' g <-> has_node r g)
        /\ (forall g, g <> f -> evictable r' g <-> evictable r g)).
Proof. apply Evict_runB. Qed.

Lemma RInv_new (pool_size : nat) (k : nat) :
  Z.of_nat pool_size <= 2 ^ 31 - 1 ->
  RInv (Z.of_nat pool_size) (LRUKReplacer_new (Z.of_nat pool_size) k).
Proof. intros H. apply RInvB_new. lia. Qed.

(** The states a replacer for at most [INT_MAX] frames reaches from its
    construction through its public operations. *)
Inductive replacer_reachable : LRUKReplacer -> Prop :=
| rreach_new (num_frames : Z) (k : nat) :
    0 <= num_frames <= 2 ^ 31 - 1 ->
    replacer_reachable (LRUKReplacer_new num_frames k)
| rreach_RecordAccess r f r' :
    replacer_reachable r -> RecordAccess f r = Some r' -> replacer_reachable r'
| rreach_SetEvictable r f (b : bool) :
    replacer_reachable r -> replacer_reachable (SetEvictable f b r)
| rreach_Remove r f :
    replacer_reachable r -> replacer_reachable (Remove f r)
| rreach_Evict r res r' :
    replacer_reachable r -> Evict r = Some (res, r') -> replacer_reachable r'.

Lemma replacer_reachable_RInvB r :
  replacer_reachable r -> RInvB (replacer_size_ r) (replacer_size_ r + 1) r.
Proof.
  induction 1 as [n k Hn | r f r' _ IH HR | r f b _ IH | r f _ IH | r res r' _ IH HE].
  - apply RInvB_new. cbn. lia.
  - assert (Hf : 0 <= f <= replacer_size_ r).
    { destruct (Z.le_gt_cases 0 f), (Z.le_gt_cases f (replacer_size_ r)); try lia;
        assert (Hn : RecordAccess f r = None) by (apply RecordAccess_aborts; lia);
        congruence. }
    destruct (RecordAccess_runB _ _ r f IH) as (r'' & HR' & Hinv & _); [lia | lia |].
    assert (r'' = r') by congruence. subst r''.
    pose proof Hinv as (_ & Hsz & _). rewrite Hsz. exact Hinv.
  - pose proof (SetEvictable_RInvB _ _ r f b IH) as Hinv.
    rewrite SetEvictable_size. exact Hinv.
  - pose proof (Remove_RInvB _ _ r f IH) as Hinv.
    pose proof Hinv as (_ & Hsz & _). rewrite Hsz. exact Hinv.
  - destruct (Evict_runB _ _ r IH)
      as [(r1 & HE1 & _ & Hinv & _) | (f & r1 & HE1 & _ & Hinv & _)];
      rewrite HE1 in HE; injection HE as _ <-;
      pose proof Hinv as (_ & Hsz & _); rewrite Hsz; exact Hinv.
Qed.

(** Reachable replacer states are well formed. *)
Lemma replacer_reachable_wf r : replacer_reachable r -> replacer_wf r.
Proof. intros H. apply (replacer_reachable_RInvB r H). Qed.

End ReplacerView.

(** ** The replacer's contract on reachable states *)

Section ReplacerReachable.
Import Replacer.

(** Two frames under K = 3: frame 0 is accessed at times 0 and 3, frame 1 at
    times 1 and 2, and both are made evictable. *)
Definition tie_replacer : option LRUKReplacer :=
  r1 ← RecordAccess 0 (LRUKReplacer_new 2 3);
  r2 ← RecordAccess 1 r1;
  r3 ← RecordAccess 1 r2;
  r4 ← RecordAccess 0 r3;
  Some (SetEvictable 1 true (SetEvictable 0 true r4)).

(** The state [tie_replacer] builds. *)
Definition tie_state : LRUKReplacer :=
  mkReplacer [(0, mkNode [0; 3] 3 0 true); (1, mkNode [1; 2] 3 1 true)] 4 2 2 3.

Lemma tie_replacer_state : tie_replacer = Some tie_state.
Proof. vm_compute. reflexivity. Qed.

Lemma tie_state_reachable : replacer_reachable tie_state.
Proof.
  assert (H0 : replacer_reachable (LRUKReplacer_new 2 3)) by (apply rreach_new; lia).
  pose proof tie_replacer_state as Ht. unfold tie_replacer in Ht.
  destruct (RecordAccess 0 (LRUKReplacer_new 2 3)) as [r1|] eqn:E1; [|discriminate].
  cbn [mbind option_bind] in Ht.
  destruct (RecordAccess 1 r1) as [r2|] eqn:E2; [|discriminate].
  cbn [mbind option_bind] in Ht.
  destruct (RecordAccess 1 r2) as [r3|] eqn:E3; [|discriminate].
  cbn [mbind option_bind] in Ht.
  destruct (RecordAccess 0 r3) as [r4|] eqn:E4; [|discriminate].
  cbn [mbind option_bind] in Ht. injection Ht as <-.
  apply rreach_SetEvictable, rreach_SetEvictable.
  apply (rreach_RecordAccess r3 0 r4); [|assumption].
  apply (rreach_RecordAccess r2 1 r3); [|assumption].
  apply (rreach_RecordAccess r1 1 r2); [|assumption].
  apply (rreach_RecordAccess (LRUKReplacer_new 2 3) 0 r1); assumption.
Qed.

(** The timestamps of a node: increasing from the front of [history_] to
    its back, and all before the clock [t]. *)
Fixpoint increasing (l : list Z) : Prop :=
  match l with
  | [] => True
  | a :: rest => Forall (fun x => a < x) rest /\ increasing rest
  end.

Definition history_ok (t : Z) (n : LRUKNode) : Prop :=
  increasing (history_ n) /\ Forall (fun x => x < t) (history_ n).

Lemma history_ok_mono t t' n : t <= t' -> history_ok t n -> history_ok t' n.
Proof.
  intros Ht [Hs Hb]. split; [assumption|].
  eapply Forall_impl; [exact Hb|]. cbn. intros x Hx. lia.
Qed.

Lemma increasing_snoc (l : list Z) (t : Z) :
  increasing l -> Forall (fun x => x < t) l -> increasing (l ++ [t]).
Proof.
  induction l as [|a l IH]; intros Hs Hb; cbn [app increasing].
  - split; [constructor | exact I].
  - destruct Hs as [Ha Hs]. apply Forall_cons in Hb as [Hat Hb].
    split; [|auto]. apply Forall_app. split; [assumption|].
    constructor; [assumption | constructor].
Qed.

Lemma increasing_drop (l : list Z) (i : nat) :
  increasing l -> increasing (drop i l).
Proof.
  revert i. induction l as [|a l IH]; intros [|i] Hs; cbn [drop]; try assumption.
  apply IH. destruct Hs as [_ Hs]. assumption.
Qed.

Lemma node_RecordAccess_ok t n :
  history_ok t n -> history_ok (t + 1) (node_RecordAccess t n).
Proof.
  intros [Hs Hb]. unfold history_ok, node_RecordAccess. cbn [history_]. split.
  - apply increasing_drop, increasing_snoc; assumption.
  - apply Forall_drop, Forall_app. split.
    + eapply Forall_impl; [exact Hb|]. cbn. intros x Hx. lia.
    + constructor; [lia | constructor].
Qed.

Lemma store_update_Forall (P Q : Z * LRUKNode -> Prop) st f (g : LRUKNode -> LRUKNode) :
  Forall P st -> (forall kv, P kv -> Q kv) -> (forall k n, P (k, n) -> Q (k, g n)) ->
  Forall Q (store_update f g st).
Proof.
  intros H HPQ Hg.
  induction H as [|[k n] st Hkn Hst IH]; cbn [store_update]; [constructor|].
  destruct (Z.eqb k f); constructor; auto.
  eapply Forall_impl; [exact Hst | exact HPQ].
Qed.

Lemma store_erase_Forall (P : Z * LRUKNode -> Prop) st f :
  Forall P st -> Forall P (store_erase f st).
Proof.
  intros H. rewrite Forall_forall in *. intros kv Hin. apply H.
  eapply store_erase_elem. exact Hin.
Qed.

(** In every state the replacer reaches, each node's timestamps increase
    from the front of its history and lie before the clock. *)
Lemma replacer_reachable_history r :
  replacer_reachable r ->
  Forall (fun kv => history_ok (current_timestamp_ r) kv.2) (node_store_ r).
Proof.
  induction 1 as [n k Hn | r f r' Hr IH HR | r f b Hr IH | r f Hr IH | r res r' Hr IH HE].
  - constructor.
  - unfold RecordAccess, GetCurrentTimeStamp in HR.
    cbn [curr_size_ node_store_ current_timestamp_ replacer_size_ rk_] in HR.
    destruct ((0 <=? f) && (f <=? replacer_size_ r)); [|discriminate].
    assert (IH' : Forall (fun kv => history_ok (current_timestamp_ r + 1) kv.2)
                    (node_store_ r)).
    { eapply Forall_impl; [exact IH|]. cbn. intros kv. apply history_ok_mono. lia. }
    destruct (store_find f (node_store_ r)); injection HR as <-;
      cbn [node_store_ current_timestamp_].
    + apply (store_update_Forall _ _ _ _ _ IH).
      * intros kv. apply history_ok_mono. lia.
      * intros k0 n0. cbn [snd]. apply node_RecordAccess_ok.
    + apply Forall_app. split; [exact IH'|]. constructor; [|constructor].
      cbn [snd]. apply node_RecordAccess_ok. split; [exact I | constructor].
  - unfold SetEvictable. destruct (store_find f (node_store_ r)) as [n|]; [|exact IH].
    destruct (Bool.eqb (is_evictable_ n) b); [exact IH|].
    cbn [node_store_ current_timestamp_].
    apply (store_update_Forall _ _ _ _ _ IH); [auto|].
    intros k0 n0 Hn0. exact Hn0.
  - unfold Remove. destruct (store_find f (node_store_ r)) as [n|]; [|exact IH].
    cbn [node_store_ current_timestamp_]. apply store_erase_Forall. exact IH.
  - pose proof (replacer_reachable_wf r Hr) as Hwf.
    assert (IH' : Forall (fun kv => history_ok (current_timestamp_ r + 1) kv.2)
                    (node_store_ r)).
    { eapply Forall_impl; [exact IH|]. cbn. intros kv. apply history_ok_mono. lia. }
    pose proof (count_evictable_bounds (node_store_ r)) as Hb.
    destruct (Z.eq_dec (count_evictable (node_store_ r)) 0) as [Hz|Hnz].
    + rewrite (Evict_nothing r Hwf Hz) in HE. injection HE as _ <-. exact IH'.
    + destruct (Evict_selects r Hwf) as (fid & n & HE' & _); [lia|].
      rewrite HE' in HE. injection HE as _ <-.
      cbn [node_store_ current_timestamp_]. apply store_erase_Forall. exact IH'.
Qed.

(** The front of an increasing history is its smallest timestamp: the
    earliest-recorded one. *)
Lemma front_earliest t (n : LRUKNode) : history_ok t n -> front n = earliest n.
Proof.
  intros [Hs _]. unfold earliest, front.
  destruct (history_ n) as [|a l]; [reflexivity|]. cbn [hd foldr].
  destruct Hs as [Ha _].
  assert (Hmin : a <= foldr Z.min a l).
  { clear -Ha. induction Ha as [|x l Hx _ IH]; cbn [foldr]; lia. }
  lia.
Qed.

(** For a node within its cap of K timestamps, the backward K-distance is
    +inf with fewer than K accesses held, and otherwise the time since the
    front of [history_], the K-th most recent access. *)
Lemma GetKDistance_front (t : Z) (n : LRUKNode) :
  (0 < k_ n)%nat -> (List.length (history_ n) <= k_ n)%nat ->
  GetKDistance t n
  = if decide (List.length (history_ n) < k_ n)%nat then ULONG_MAX
    else wrap64 (t - front n).
Proof.
  intros Hk Hcap. unfold GetKDistance, newest_first, front.
  destruct (k_ n) as [|k']; [lia|].
  destruct (decide (List.length (history_ n) < S k')%nat) as [Hlt|Hge].
  - rewrite lookup_ge_None_2; [reflexivity|]. rewrite length_rev. lia.
  - destruct (history_ n) as [|a l]; [cbn in Hge; lia|].
    cbn [rev hd]. cbn [List.length] in Hcap, Hge.
    rewrite lookup_app_r by (rewrite length_rev; lia).
    rewrite length_rev. replace (k' - List.length l)%nat with 0%nat by lia.
    reflexivity.
Qed.

(** C2. In every state the replacer reaches, [evict()] returns an evictable
    node of largest backward K-distance; among nodes at +inf it returns one
    whose earliest-recorded timestamp, the smallest timestamp of its
    history, is smallest; the node is removed and [curr_size_] decremented;
    and it returns no frame exactly when no node is evictable. *)
Theorem Evict_largest_k_distance (r : LRUKReplacer) :
  replacer_reachable r -> Evict_contract earliest r.
Proof.
  intros H. pose proof (Evict_contract_wf r (replacer_reachable_wf r H)) as [Hnone Hsome].
  pose proof (replacer_reachable_history r H) as Hhist. rewrite Forall_forall in Hhist.
  split; [exact Hnone|]. intros Hpos.
  destruct (Hsome Hpos) as (fid & n & r' & HE & Hfind & Hev & Hmax & Hrest).
  exists fid, n, r'. split; [exact HE|]. split; [exact Hfind|]. split; [exact Hev|].
  split; [|exact Hrest].
  intros kv Hin Hkv. destruct (Hmax kv Hin Hkv) as [Hle Htie].
  split; [exact Hle|].
  rewrite <- (front_earliest _ n (Hhist (fid, n) (store_find_elem _ _ _ Hfind))).
  rewrite <- (front_earliest _ kv.2 (Hhist kv Hin)). exact Htie.
Qed.

Lemma Evict_largest_k_distance_witness : Evict_contract earliest tie_state.
Proof. apply (Evict_largest_k_distance tie_state). exact tie_state_reachable. Defined.

(** On [tie_state] both frames are at +inf (two accesses under K = 3), and
    [evict()] returns frame 0, first accessed at time 0, although frame 1's
    latest access (time 2) is older than frame 0's (time 3). *)
Lemma Evict_tie_state :
  GetKDistance 4 (mkNode [0; 3] 3 0 true) = ULONG_MAX
  /\ GetKDistance 4 (mkNode [1; 2] 3 1 true) = ULONG_MAX
  /\ Evict tie_state
     = Some (Some 0, mkReplacer [(1, mkNode [1; 2] 3 1 true)] 5 1 2 3).
Proof. vm_compute. auto. Qed.

End ReplacerReachable.

(** ** Running the buffer pool operations *)

Section BPMRuns.
Import Replacer BPM.
Local Open Scope bpm_scope.

Implicit Types (s : BufferPoolManager) (f g p q : Z) (pg : Page).

(** The frame [pages_[f]], when [f] is inside the array. *)
Definition page s f : option Page :=
  if 0 <=? f then pages_ s !! Z.to_nat f else None.

(** [pages_[f] = pg] *)
Definition put_page f pg s : BufferPoolManager :=
  set_pages (<[Z.to_nat f := pg]> (pages_ s)) s.

Lemma page_at_run s f pg : page s f = Some pg -> page_at f s = Some (pg, s).
Proof.
  unfold page, page_at. destruct (0 <=? f); [|discriminate].
  intros ->. reflexivity.
Qed.

Lemma page_at_fail s f : page s f = None -> page_at f s = None.
Proof.
  unfold page, page_at. destruct (0 <=? f); [|reflexivity].
  intros ->. reflexivity.
Qed.

Lemma update_page_run s f pg (h : Page -> Page) :
  page s f = Some pg -> update_page f h s = Some (tt, put_page f (h pg) s).
Proof.
  intros H. unfold update_page, bind. rewrite (page_at_run _ _ _ H). reflexivity.
Qed.

Lemma page_range s f pg :
  page s f = Some pg -> 0 <= f < Z.of_nat (List.length (pages_ s)).
Proof.
  unfold page. destruct (Z.leb_spec 0 f); [|discriminate].
  intros Hl%lookup_lt_Some. lia.
Qed.

Lemma page_in_range s f :
  0 <= f < Z.of_nat (List.length (pages_ s)) -> exists pg, page s f = Some pg.
Proof.
  intros [H0 H1]. unfold page. destruct (Z.leb_spec 0 f); [|lia].
  apply lookup_lt_is_Some_2. lia.
Qed.

Lemma page_put_page s f g pg pg0 :
  page s f = Some pg0 ->
  page (put_page f pg s) g = if Z.eqb f g then Some pg else page s g.
Proof.
  intros H. pose proof (page_range _ _ _ H) as Hr.
  unfold page, put_page, set_pages. cbn [pages_].
  destruct (Z.eqb_spec f g) as [<-|Hne].
  - destruct (Z.leb_spec 0 f); [|lia].
    apply list_lookup_insert_eq. lia.
  - destruct (Z.leb_spec 0 g); [|reflexivity].
    apply list_lookup_insert_ne. lia.
Qed.

Lemma put_page_put_page s f pg pg' :
  put_page f pg' (put_page f pg s) = put_page f pg' s.
Proof.
  unfold put_page, set_pages. cbn. rewrite list_insert_insert_eq. reflexivity.
Qed.

(** The monad's sequencing, one step at a time. *)
Lemma bind_run {A B} (c : M A) (k : A -> M B) s a s' :
  c s = Some (a, s') -> bind c k s = k a s'.
Proof. unfold bind. intros ->. reflexivity. Qed.

Lemma bind_assoc {A B C} (c : M A) (k : A -> M B) (k' : B -> M C) s :
  bind (bind c k) k' s = bind c (fun a => bind (k a) k') s.
Proof. unfold bind. destruct (c s) as [[a s']|]; reflexivity. Qed.

Lemma bind_inv {A B} (c : M A) (k : A -> M B) s b s'' :
  bind c k s = Some (b, s'') ->
  exists a s', c s = Some (a, s') /\ k a s' = Some (b, s'').
Proof.
  unfold bind. destruct (c s) as [[a s']|]; [|discriminate]. eauto.
Qed.

End BPMRuns.

Section BPMSteps.
Import Replacer BPM.
Local Open Scope bpm_scope.
Local Opaque zero_data.

Implicit Types (s : BufferPoolManager) (f g p q : Z) (pg : Page).

Lemma page_set_page_table s pt f pg :
  page s f = Some pg -> page (set_page_table pt s) f = Some pg.
Proof. auto. Qed.
Lemma page_set_free_list s fl f pg :
  page s f = Some pg -> page (set_free_list fl s) f = Some pg.
Proof. auto. Qed.
Lemma page_set_replacer s r f pg :
  page s f = Some pg -> page (set_replacer r s) f = Some pg.
Proof. auto. Qed.
Lemma page_set_next_page_id s n f pg :
  page s f = Some pg -> page (set_next_page_id n s) f = Some pg.
Proof. auto. Qed.
Lemma page_set_disk s d f pg :
  page s f = Some pg -> page (set_disk d s) f = Some pg.
Proof. auto. Qed.
Lemma page_put_page_eq s f pg pg0 :
  page s f = Some pg0 -> page (put_page f pg s) f = Some pg.
Proof. intros H. rewrite (page_put_page _ _ _ _ _ H), Z.eqb_refl. reflexivity. Qed.

Create HintDb pages discriminated.
Hint Resolve page_set_page_table page_set_free_list page_set_replacer
  page_set_next_page_id page_set_disk page_put_page_eq : pages.

(** The disk after the write-back of a frame about to be reused. *)
Definition write_back pg s : BufferPoolManager :=
  if is_dirty_ pg
  then set_disk (disk_WritePage (page_id_ pg) (data_ pg) (disk_manager_ s)) s
  else s.

Lemma page_write_back s pg0 f pg :
  page s f = Some pg -> page (write_back pg0 s) f = Some pg.
Proof. unfold write_back. destruct (is_dirty_ pg0); auto. Qed.
Hint Resolve page_write_back : pages.

Ltac mrun tac :=
  rewrite ?bind_assoc; erewrite bind_run by (tac; eauto 12 with pages).

Lemma write_back_and_unmap_run s f pg :
  page s f = Some pg ->
  write_back_and_unmap f s
  = Some (tt, set_page_table (delete (page_id_ pg) (page_table_ s)) (write_back pg s)).
Proof.
  intros H. unfold write_back_and_unmap.
  mrun ltac:(apply page_at_run).
  assert (Hwb : (if is_dirty_ pg then WritePage (page_id_ pg) (data_ pg) else ret tt) s
                = Some (tt, write_back pg s)).
  { unfold write_back. destruct (is_dirty_ pg); reflexivity. }
  rewrite (bind_run _ _ _ _ _ Hwb).
  mrun ltac:(apply page_at_run).
  unfold write_back. destruct (is_dirty_ pg); reflexivity.
Qed.

(** The state [PinPageToFrame] leaves, given the replacer after
    [RecordAccess]. *)
Definition pinned f pg (r' : LRUKReplacer) s : BufferPoolManager :=
  set_replacer (SetEvictable f false r')
    (put_page f (with_pin_count (pin_count_ pg + 1) pg)
       (set_page_table (<[page_id_ pg := f]> (page_table_ s)) s)).

Lemma PinPageToFrame_run s f pg r' :
  page s f = Some pg -> RecordAccess f (replacer_ s) = Some r' ->
  PinPageToFrame f f s = Some (tt, pinned f pg r' s).
Proof.
  intros H Hr. unfold PinPageToFrame.
  mrun ltac:(apply page_at_run).
  mrun ltac:(reflexivity).
  mrun ltac:(apply update_page_run).
  unfold bind at 1. cbn [replacer_ put_page set_pages set_page_table].
  rewrite Hr. reflexivity.
Qed.

(** The state [NewPage] leaves once frame [f], holding [pg0], is acquired in
    state [s]. *)
Definition new_page_state f pg0 (r' : LRUKReplacer) s : BufferPoolManager :=
  set_replacer (SetEvictable f false r')
    (put_page f (mkPage zero_data (next_page_id_ s) 1 false)
       (set_page_table
          (<[next_page_id_ s := f]> (delete (page_id_ pg0) (page_table_ s)))
          (set_next_page_id (next_page_id_ s + 1) (write_back pg0 s)))).

Lemma next_page_id_write_back pg s :
  next_page_id_ (write_back pg s) = next_page_id_ s.
Proof. unfold write_back. destruct (is_dirty_ pg); reflexivity. Qed.
Lemma replacer_write_back pg s : replacer_ (write_back pg s) = replacer_ s.
Proof. unfold write_back. destruct (is_dirty_ pg); reflexivity. Qed.
Lemma page_table_write_back pg s : page_table_ (write_back pg s) = page_table_ s.
Proof. unfold write_back. destruct (is_dirty_ pg); reflexivity. Qed.
Lemma free_list_write_back pg s : free_list_ (write_back pg s) = free_list_ s.
Proof. unfold write_back. destruct (is_dirty_ pg); reflexivity. Qed.
Lemma pages_write_back pg s : pages_ (write_back pg s) = pages_ s.
Proof. unfold write_back. destruct (is_dirty_ pg); reflexivity. Qed.
Lemma pool_size_write_back pg s : pool_size_ (write_back pg s) = pool_size_ s.
Proof. unfold write_back. destruct (is_dirty_ pg); reflexivity. Qed.

(** Equality of two states written with the setters. *)
Ltac state_eq :=
  unfold pinned, put_page, set_pages, set_page_table, set_replacer,
    set_next_page_id, set_free_list, set_disk, bind, ret;
  cbn [pool_size_ pages_ page_table_ free_list_ replacer_ next_page_id_
       disk_manager_ with_is_dirty with_pin_count with_page_id ResetMemory
       with_data data_ page_id_ pin_count_ is_dirty_];
  rewrite ?list_insert_insert_eq, ?page_table_write_back,
    ?pages_write_back, ?next_page_id_write_back, ?replacer_write_back,
    ?free_list_write_back, ?pool_size_write_back;
  try reflexivity.

Lemma install_new_run s f pg0 r' :
  page s f = Some pg0 -> RecordAccess f (replacer_ s) = Some r' ->
  (write_back_and_unmap f ;;
   let* res := NewPageHelper f in ret (Some res)) s
  = Some (Some (next_page_id_ s, f), new_page_state f pg0 r' s).
Proof.
  intros H Hr.
  mrun ltac:(apply write_back_and_unmap_run).
  unfold NewPageHelper, AllocatePage.
  repeat mrun ltac:(reflexivity).
  cbn [next_page_id_ set_page_table]. rewrite next_page_id_write_back.
  repeat mrun ltac:(apply update_page_run).
  rewrite !put_page_put_page.
  cbn [with_is_dirty with_pin_count with_page_id ResetMemory with_data
       data_ page_id_ pin_count_ is_dirty_].
  rewrite ?bind_assoc. erewrite bind_run.
  2:{ apply PinPageToFrame_run; [eauto 12 with pages|].
      cbn [replacer_ put_page set_pages set_page_table set_next_page_id].
      rewrite replacer_write_back. exact Hr. }
  unfold new_page_state. state_eq.
Qed.

(** The state [DoFetchPage] leaves on a miss once frame [f], holding [pg0],
    is acquired in state [s]. *)
Definition fetch_miss_state p f pg0 (r' : LRUKReplacer) s : BufferPoolManager :=
  set_replacer (SetEvictable f false r')
    (put_page f
       (mkPage (disk_ReadPage p (disk_manager_ (write_back pg0 s))) p 1 false)
       (set_page_table
          (<[p := f]> (delete (page_id_ pg0) (page_table_ s)))
          (write_back pg0 s))).

Lemma install_fetch_run s p f pg0 r' :
  page s f = Some pg0 -> RecordAccess f (replacer_ s) = Some r' ->
  (write_back_and_unmap f ;;
   let* bytes := ReadPage p in
   update_page f (with_data bytes) ;;
   update_page f (with_page_id p) ;;
   update_page f (with_pin_count 0) ;;
   update_page f (with_is_dirty false) ;;
   PinPageToFrame f f ;;
   ret (Some f)) s
  = Some (Some f, fetch_miss_state p f pg0 r' s).
Proof.
  intros H Hr.
  mrun ltac:(apply write_back_and_unmap_run).
  mrun ltac:(reflexivity).
  repeat mrun ltac:(apply update_page_run).
  rewrite !put_page_put_page.
  cbn [with_is_dirty with_pin_count with_page_id ResetMemory with_data
       data_ page_id_ pin_count_ is_dirty_].
  rewrite ?bind_assoc. erewrite bind_run.
  2:{ apply PinPageToFrame_run; [eauto 12 with pages|].
      cbn [replacer_ put_page set_pages set_page_table set_next_page_id].
      rewrite replacer_write_back. exact Hr. }
  unfold fetch_miss_state. state_eq.
Qed.

Lemma UnpinPage_not_resident s p d :
  page_table_ s !! p = None -> UnpinPage p d s = Some (false, s).
Proof.
  intros H. unfold UnpinPage, GetPage, bind, gets. rewrite H. reflexivity.
Qed.

Lemma UnpinPage_unpinned s p d f pg :
  page_table_ s !! p = Some f -> page s f = Some pg -> pin_count_ pg <= 0 ->
  UnpinPage p d s = Some (false, put_page f (with_is_dirty d pg) s).
Proof.
  intros Hp H Hc. unfold UnpinPage, GetPage.
  mrun ltac:(reflexivity). cbn beta. rewrite Hp.
  mrun ltac:(apply update_page_run).
  mrun ltac:(apply page_at_run).
  cbn [with_is_dirty pin_count_].
  destruct (Z.leb_spec (pin_count_ pg) 0); [reflexivity | lia].
Qed.

(** The state a successful [UnpinPage] leaves. *)
Definition unpinned_state f pg (d : bool) s : BufferPoolManager :=
  let s1 := put_page f (mkPage (data_ pg) (page_id_ pg) (pin_count_ pg - 1) d) s in
  if pin_count_ pg - 1 =? 0
  then set_replacer (SetEvictable f true (replacer_ s)) s1
  else s1.

Lemma UnpinPage_pinned s p d f pg :
  page_table_ s !! p = Some f -> page s f = Some pg -> 0 < pin_count_ pg ->
  UnpinPage p d s = Some (true, unpinned_state f pg d s).
Proof.
  intros Hp H Hc. unfold UnpinPage, GetPage.
  mrun ltac:(reflexivity). cbn beta. rewrite Hp.
  mrun ltac:(apply update_page_run).
  mrun ltac:(apply page_at_run).
  cbn [with_is_dirty pin_count_].
  destruct (Z.leb_spec (pin_count_ pg) 0); [lia|].
  mrun ltac:(apply update_page_run).
  mrun ltac:(apply page_at_run).
  cbn [with_is_dirty with_pin_count pin_count_ data_ page_id_ is_dirty_].
  unfold unpinned_state. cbn zeta.
  destruct (pin_count_ pg - 1 =? 0); state_eq.
Qed.

(** The state [DoFetchPage] leaves when the page is resident. *)
Definition fetch_hit_state f pg (r' : LRUKReplacer) s : BufferPoolManager :=
  set_replacer (SetEvictable f false r')
    (put_page f (mkPage (data_ pg) (page_id_ pg) (pin_count_ pg + 1) true)
       (set_page_table (<[page_id_ pg := f]> (page_table_ s)) s)).

Lemma FetchPage_hit s p f pg r' :
  p <> INVALID_PAGE_ID -> page_table_ s !! p = Some f -> page s f = Some pg ->
  RecordAccess f (replacer_ s) = Some r' ->
  FetchPage p s = Some (Some f, fetch_hit_state f pg r' s).
Proof.
  intros Hinv Hp H Hr. unfold FetchPage, DoFetchPage.
  destruct (Z.eqb_spec p INVALID_PAGE_ID); [contradiction|].
  mrun ltac:(reflexivity). cbn beta. rewrite Hp.
  mrun ltac:(apply update_page_run).
  erewrite bind_run.
  2:{ apply PinPageToFrame_run; [eauto 12 with pages | exact Hr]. }
  unfold fetch_hit_state. state_eq.
Qed.

Lemma FlushPage_run s p f pg :
  p <> INVALID_PAGE_ID -> p < next_page_id_ s ->
  page_table_ s !! p = Some f -> page s f = Some pg ->
  FlushPage p s
  = Some (true, put_page f (with_is_dirty false pg)
                  (set_disk (disk_WritePage p (data_ pg) (disk_manager_ s)) s)).
Proof.
  intros Hinv Hlt Hp H. unfold FlushPage, GetPage.
  mrun ltac:(reflexivity). cbn beta.
  destruct (Z.eqb_spec p INVALID_PAGE_ID); [contradiction|].
  destruct (Z.leb_spec (next_page_id_ s) p); [lia|]. cbn [orb].
  mrun ltac:(reflexivity). cbn beta. rewrite Hp.
  mrun ltac:(apply page_at_run).
  mrun ltac:(reflexivity).
  mrun ltac:(apply update_page_run).
  reflexivity.
Qed.

Lemma FlushPage_refused s p :
  p = INVALID_PAGE_ID \/ next_page_id_ s <= p \/ page_table_ s !! p = None ->
  FlushPage p s = Some (false, s).
Proof.
  intros H. unfold FlushPage, GetPage.
  mrun ltac:(reflexivity). cbn beta.
  destruct (Z.eqb_spec p INVALID_PAGE_ID); [reflexivity|].
  destruct (Z.leb_spec (next_page_id_ s) p); [reflexivity|]. cbn [orb].
  mrun ltac:(reflexivity). cbn beta.
  destruct H as [?|[?|Hn]]; [contradiction | lia | rewrite Hn; reflexivity].
Qed.

Lemma DeletePage_not_resident s p :
  page_table_ s !! p = None -> DeletePage p s = Some (true, s).
Proof.
  intros H. unfold DeletePage, bind, gets. rewrite H. reflexivity.
Qed.

Lemma DeletePage_pinned s p f pg :
  page_table_ s !! p = Some f -> page s f = Some pg -> 0 < pin_count_ pg ->
  DeletePage p s = Some (false, s).
Proof.
  intros Hp H Hc. unfold DeletePage.
  mrun ltac:(reflexivity). cbn beta. rewrite Hp.
  mrun ltac:(apply page_at_run).
  destruct (Z.ltb_spec 0 (pin_count_ pg)); [reflexivity | lia].
Qed.

(** The state [DeletePage] leaves when it frees frame [f]. *)
Definition deleted_state p f s : BufferPoolManager :=
  put_page f (mkPage zero_data INVALID_PAGE_ID 0 false)
    (set_free_list (free_list_ s ++ [f])
       (set_page_table (delete p (page_table_ s)) s)).

Lemma DeletePage_unpinned s p f pg :
  page_table_ s !! p = Some f -> page s f = Some pg -> pin_count_ pg <= 0 ->
  DeletePage p s = Some (true, deleted_state p f s).
Proof.
  intros Hp H Hc. unfold DeletePage.
  mrun ltac:(reflexivity). cbn beta. rewrite Hp.
  mrun ltac:(apply page_at_run).
  destruct (Z.ltb_spec 0 (pin_count_ pg)); [lia|].
  repeat mrun ltac:(reflexivity).
  repeat mrun ltac:(apply update_page_run).
  unfold deleted_state. state_eq.
Qed.

Lemma WriteData_run s f pg bytes :
  page s f = Some pg -> WriteData f bytes s = Some (tt, put_page f (with_data bytes pg) s).
Proof. intros H. apply update_page_run. exact H. Qed.

End BPMSteps.

(** ** The buffer pool invariant *)

Section BPMInvariant.
Import Replacer BPM.
Local Open Scope bpm_scope.
Local Opaque zero_data.

Implicit Types (s : BufferPoolManager) (f g p q : Z) (pg : Page).

(** The bookkeeping invariant. [limbo] is the frame, if any, that
    [GetAvailableFrameId] has handed out and that is not pinned yet: the one
    frame allowed to be unpinned without being in the free list or evictable. *)
Record bpm_inv_gen (limbo : option Z) s : Prop := {
  inv_len : List.length (pages_ s) = pool_size_ s;
  inv_free_nodup : NoDup (free_list_ s);
  inv_free : forall f, f ∈ free_list_ s ->
    exists pg, page s f = Some pg /\ pin_count_ pg = 0
               /\ page_id_ pg = INVALID_PAGE_ID;
  inv_table : forall p f, page_table_ s !! p = Some f ->
    exists pg, page s f = Some pg /\ page_id_ pg = p /\ p <> INVALID_PAGE_ID;
  inv_repl : RInv (Z.of_nat (pool_size_ s)) (replacer_ s);
  inv_ev : forall f pg, evictable (replacer_ s) f -> page s f = Some pg ->
    pin_count_ pg = 0;
  inv_pin : forall f pg, page s f = Some pg ->
    0 <= pin_count_ pg
    /\ (0 < pin_count_ pg -> has_node (replacer_ s) f)
    /\ (Some f <> limbo -> pin_count_ pg = 0 ->
        f ∈ free_list_ s \/ evictable (replacer_ s) f);
  inv_next : 0 <= next_page_id_ s
}.

Definition bpm_inv : BufferPoolManager -> Prop := bpm_inv_gen None.

Lemma page_of_pages s s' f :
  pages_ s' = pages_ s -> page s' f = page s f.
Proof. unfold page. intros ->. reflexivity. Qed.

Lemma page_of_insert s s' f g pgN :
  is_Some (page s f) ->
  pages_ s' = <[Z.to_nat f := pgN]> (pages_ s) ->
  page s' g = if Z.eqb f g then Some pgN else page s g.
Proof.
  intros [pg0 H] Hp. rewrite <- (page_put_page s f g pgN pg0 H).
  unfold page, put_page, set_pages. cbn [pages_]. rewrite Hp. reflexivity.
Qed.

(** Any step that rewrites one frame and leaves the other frames, and what
    the replacer knows of them, alone. *)
Lemma single_frame_inv limbo limbo' s1 s2 f pgN :
  bpm_inv_gen limbo s1 ->
  is_Some (page s1 f) ->
  pool_size_ s2 = pool_size_ s1 ->
  pages_ s2 = <[Z.to_nat f := pgN]> (pages_ s1) ->
  NoDup (free_list_ s2) ->
  (forall g, g <> f -> g ∈ free_list_ s2 -> g ∈ free_list_ s1) ->
  (forall g, g <> f -> g ∈ free_list_ s1 -> g ∈ free_list_ s2) ->
  (forall q g, page_table_ s2 !! q = Some g -> g <> f -> page_table_ s1 !! q = Some g) ->
  (forall q, page_table_ s2 !! q = Some f -> page_id_ pgN = q /\ q <> INVALID_PAGE_ID) ->
  RInv (Z.of_nat (pool_size_ s1)) (replacer_ s2) ->
  (forall g, g <> f -> has_node (replacer_ s1) g -> has_node (replacer_ s2) g) ->
  (forall g, g <> f -> evictable (replacer_ s2) g <-> evictable (replacer_ s1) g) ->
  0 <= pin_count_ pgN ->
  (evictable (replacer_ s2) f -> pin_count_ pgN = 0) ->
  (0 < pin_count_ pgN -> has_node (replacer_ s2) f) ->
  (Some f <> limbo' -> pin_count_ pgN = 0 ->
   f ∈ free_list_ s2 \/ evictable (replacer_ s2) f) ->
  (f ∈ free_list_ s2 -> pin_count_ pgN = 0 /\ page_id_ pgN = INVALID_PAGE_ID) ->
  (forall g, g <> f -> Some g <> limbo' -> Some g <> limbo) ->
  0 <= next_page_id_ s2 ->
  bpm_inv_gen limbo' s2.
Proof.
  intros Hinv Hf Hps Hpages Hnd Hfl1 Hfl2 Hpt Hptf Hrinv Hhas Hev
    Hpin0 Hevf Hhasf Hzero Hfree Hlimbo Hnext.
  assert (Hpage : forall g, page s2 g = if Z.eqb f g then Some pgN else page s1 g).
  { intros g. apply page_of_insert; assumption. }
  split.
  - rewrite Hpages, length_insert, Hps. apply (inv_len _ _ Hinv).
  - assumption.
  - intros g Hg. rewrite Hpage. destruct (Z.eqb_spec f g) as [<-|Hne].
    + exists pgN. destruct (Hfree Hg). auto.
    + apply (inv_free _ _ Hinv). apply Hfl1; [congruence | assumption].
  - intros q g Hq. rewrite Hpage. destruct (Z.eqb_spec f g) as [<-|Hne].
    + exists pgN. destruct (Hptf _ Hq). auto.
    + apply (inv_table _ _ Hinv). apply Hpt; [assumption | congruence].
  - rewrite Hps. assumption.
  - intros g pg. rewrite Hpage. destruct (Z.eqb_spec f g) as [<-|Hne].
    + intros Hg [= <-]. auto.
    + intros Hg%Hev; [|congruence]. apply (inv_ev _ _ Hinv). assumption.
  - intros g pg. rewrite Hpage. destruct (Z.eqb_spec f g) as [<-|Hne].
    + intros [= <-]. auto.
    + intros Hg. destruct (inv_pin _ _ Hinv _ _ Hg) as (H0 & Hn & Hz).
      split; [assumption|]. split.
      * intros Hpos. apply Hhas; [congruence | auto].
      * intros Hl Hz0.
        destruct Hz as [Hfr|Hevg]; [apply Hlimbo; [congruence | assumption] | assumption | |].
        -- left. apply Hfl2; [congruence | assumption].
        -- right. apply Hev; [congruence | assumption].
  - assumption.
Qed.

(** The freshly constructed pool. *)
Lemma bpm_inv_new (pool_size : nat) (disk : DiskManager) (k : nat) :
  Z.of_nat pool_size <= 2 ^ 31 - 1 ->
  bpm_inv (BufferPoolManager_new pool_size disk k).
Proof.
  intros Hmax.
  assert (Hpage : forall f, page (BufferPoolManager_new pool_size disk k) f
                            = if (0 <=? f) && (f <? Z.of_nat pool_size)
                              then Some Page_new else None).
  { intros f. unfold page, BufferPoolManager_new. cbn [pages_].
    destruct (Z.leb_spec 0 f); [|reflexivity]. cbn [andb].
    destruct (Z.ltb_spec f (Z.of_nat pool_size)).
    - apply lookup_replicate_2. lia.
    - apply lookup_ge_None. rewrite length_replicate. lia. }
  split; unfold BufferPoolManager_new; cbn [pool_size_ pages_ page_table_
    free_list_ replacer_ next_page_id_].
  - apply length_replicate.
  - apply NoDup_fmap; [intros ? ?; lia | apply NoDup_seq].
  - intros f (i & -> & Hi%elem_of_seq)%list_elem_of_fmap.
    exists Page_new. rewrite Hpage.
    destruct (Z.leb_spec 0 (Z.of_nat i)); [|lia].
    destruct (Z.ltb_spec (Z.of_nat i) (Z.of_nat pool_size)); [|lia].
    auto.
  - intros p f. rewrite lookup_empty. discriminate.
  - apply RInv_new. assumption.
  - intros f pg (n & [=] & _).
  - intros f pg. rewrite Hpage.
    destruct (Z.leb_spec 0 f); [|discriminate]. cbn [andb].
    destruct (Z.ltb_spec f (Z.of_nat pool_size)); [|discriminate].
    intros [= <-]. cbn. split; [lia|]. split; [lia|].
    intros _ _. left. apply list_elem_of_fmap. exists (Z.to_nat f).
    split; [lia|]. apply elem_of_seq. lia.
  - lia.
Qed.

End BPMInvariant.

Section BPMPreservation.
Import Replacer BPM.
Local Open Scope bpm_scope.
Local Opaque zero_data.

Implicit Types (s : BufferPoolManager) (f g p q : Z) (pg : Page).

(** [acquired s f pg0 s1]: [GetAvailableFrameId] took frame [f], holding
    [pg0], out of state [s] and left state [s1]. *)
Definition acquired s f pg0 s1 : Prop :=
  page s f = Some pg0 /\ pin_count_ pg0 = 0
  /\ pages_ s1 = pages_ s /\ page_table_ s1 = page_table_ s
  /\ next_page_id_ s1 = next_page_id_ s
  /\ disk_manager_ s1 = disk_manager_ s
  /\ pool_size_ s1 = pool_size_ s
  /\ (f ∉ free_list_ s1)
  /\ bpm_inv_gen (Some f) s1.

Definition all_pinned s : Prop :=
  forall f pg, page s f = Some pg -> 0 < pin_count_ pg.

Lemma bpm_inv_set_replacer s r' :
  bpm_inv s -> RInv (Z.of_nat (pool_size_ s)) r' ->
  (forall g, has_node r' g <-> has_node (replacer_ s) g) ->
  (forall g, evictable r' g <-> evictable (replacer_ s) g) ->
  bpm_inv (set_replacer r' s).
Proof.
  intros [H1 H2 H3 H4 H5 H6 H7 H8] Hr Hh He.
  split; cbn [set_replacer pool_size_ pages_ page_table_ free_list_ replacer_
              next_page_id_]; try assumption.
  - intros f pg Hev%He. apply H6. exact Hev.
  - intros f pg Hpg. destruct (H7 f pg Hpg) as (Ha & Hb & Hc).
    split; [assumption|]. split.
    + intros Hpos. apply Hh. auto.
    + intros Hl Hz. destruct (Hc Hl Hz) as [?|?]; [left | right; apply He]; assumption.
Qed.

Lemma GetAvailableFrameId_spec s :
  bpm_inv s ->
  (exists r', GetAvailableFrameId s = Some (None, set_replacer r' s)
      /\ free_list_ s = [] /\ all_pinned s /\ bpm_inv (set_replacer r' s))
  \/ (exists f pg0 s1, GetAvailableFrameId s = Some (Some f, s1)
        /\ acquired s f pg0 s1).
Proof.
  intros Hinv. unfold GetAvailableFrameId.
  destruct (free_list_ s) as [|f rest] eqn:Hfl.
  - rewrite (bind_run _ _ s (free_list_ s) s) by reflexivity. rewrite Hfl.
    destruct (Evict_run _ _ (inv_repl _ _ Hinv))
      as [(r' & HE & Hnone & Hr & Hh & He) | (f & r' & HE & Hevf & Hr & Hnh & Hh & He)];
      rewrite HE.
    + left. exists r'. split; [reflexivity|]. split; [reflexivity|]. split.
      * intros f pg Hpg. destruct (inv_pin _ _ Hinv f pg Hpg) as (H0 & _ & Hz).
        destruct (Z.eq_dec (pin_count_ pg) 0) as [Hz0|]; [|lia].
        assert (Hl : Some f <> None) by discriminate.
        destruct (Hz Hl Hz0) as [Hin|Hev].
        -- rewrite Hfl in Hin. apply elem_of_nil in Hin as [].
        -- destruct (Hnone _ Hev).
      * apply bpm_inv_set_replacer; assumption.
    + right.
      destruct (inv_repl _ _ Hinv) as (_ & _ & Hrange & _).
      pose proof (Hrange f (evictable_has_node _ _ Hevf)) as Hf.
      destruct (page_in_range s f) as [pg0 Hpg0];
        [rewrite (inv_len _ _ Hinv); lia|].
      pose proof (inv_ev _ _ Hinv f pg0 Hevf Hpg0) as Hpin.
      exists f, pg0, (set_replacer r' s). split; [reflexivity|].
      unfold acquired. cbn [set_replacer pages_ page_table_ next_page_id_
        disk_manager_ pool_size_ free_list_].
      rewrite Hfl.
      repeat (split; [first [assumption | reflexivity | apply not_elem_of_nil]|]).
      apply (single_frame_inv None (Some f) s _ f pg0); cbn [set_replacer pages_
        page_table_ next_page_id_ disk_manager_ pool_size_ free_list_ replacer_];
        try rewrite Hfl;
        [ exact Hinv | eauto | reflexivity
        | symmetry; apply list_insert_id; unfold page in Hpg0;
          destruct (0 <=? f); [assumption | discriminate]
        | apply NoDup_nil_2 | auto | auto | auto
        | intros q Hq; destruct (inv_table _ _ Hinv q f Hq) as (pg & Hpg & Hid & Hne);
          split; congruence
        | exact Hr
        | intros g Hg Hn; apply Hh; assumption
        | exact He
        | lia | auto | lia
        | intros Hl; contradiction
        | intros []%elem_of_nil
        | intros g Hg _; discriminate
        | apply (inv_next _ _ Hinv) ].
  - rewrite (bind_run _ _ s (free_list_ s) s) by reflexivity. rewrite Hfl.
    right.
    destruct (inv_free _ _ Hinv f) as (pg0 & Hpg0 & Hpin & Hid);
      [rewrite Hfl; apply list_elem_of_here|].
    pose proof (inv_free_nodup _ _ Hinv) as Hnd. rewrite Hfl in Hnd.
    apply NoDup_cons in Hnd as [Hnotin Hnd].
    exists f, pg0, (set_free_list rest s). split; [reflexivity|].
    unfold acquired. cbn [set_free_list pages_ page_table_ next_page_id_
      disk_manager_ pool_size_ free_list_].
    repeat (split; [first [assumption | reflexivity]|]).
    apply (single_frame_inv None (Some f) s _ f pg0); cbn [set_free_list pages_
      page_table_ next_page_id_ disk_manager_ pool_size_ free_list_ replacer_];
      try rewrite Hfl;
      [ exact Hinv | eauto | reflexivity
      | symmetry; apply list_insert_id; unfold page in Hpg0;
        destruct (0 <=? f); [assumption | discriminate]
      | exact Hnd
      | intros g Hg Hin; apply list_elem_of_further; assumption
      | intros g Hg [?|?]%elem_of_cons; [congruence | assumption]
      | auto
      | intros q Hq; destruct (inv_table _ _ Hinv q f Hq) as (pg & Hpg & Hid' & Hne);
        split; congruence
      | apply (inv_repl _ _ Hinv)
      | auto
      | reflexivity
      | lia | auto | lia
      | intros Hl; contradiction
      | intros Hin; contradiction
      | intros g Hg _; discriminate
      | apply (inv_next _ _ Hinv) ].
Qed.

(** Installing a page in an acquired frame and pinning it. *)
Lemma install_inv s1 s2 f pg0 pgN r' :
  bpm_inv_gen (Some f) s1 ->
  page s1 f = Some pg0 ->
  f ∉ free_list_ s1 ->
  RecordAccess f (replacer_ s1) = Some r' ->
  pool_size_ s2 = pool_size_ s1 ->
  pages_ s2 = <[Z.to_nat f := pgN]> (pages_ s1) ->
  free_list_ s2 = free_list_ s1 ->
  page_table_ s2 = <[page_id_ pgN := f]> (delete (page_id_ pg0) (page_table_ s1)) ->
  replacer_ s2 = SetEvictable f false r' ->
  pin_count_ pgN = 1 ->
  page_id_ pgN <> INVALID_PAGE_ID ->
  0 <= next_page_id_ s2 ->
  bpm_inv s2.
Proof.
  intros Hinv Hpg0 Hnf Hr Hps Hpages Hfl Hpt Hrep Hpin Hid Hnext.
  pose proof (page_range _ _ _ Hpg0) as Hrange.
  rewrite (inv_len _ _ Hinv) in Hrange.
  destruct (RecordAccess_run _ _ f (inv_repl _ _ Hinv) Hrange)
    as (r'' & Hr'' & Hrinv & Hhasf & Hhas & Hev).
  assert (r'' = r') by congruence. subst r''.
  apply (single_frame_inv (Some f) None s1 s2 f pgN);
    [ exact Hinv | eauto | exact Hps | exact Hpages
    | rewrite Hfl; apply (inv_free_nodup _ _ Hinv)
    | rewrite Hfl; auto
    | rewrite Hfl; auto
    | intros q g; rewrite Hpt; intros Hq Hg;
      apply lookup_insert_Some in Hq as [[_ ?]|[_ Hq]]; [congruence|];
      apply lookup_delete_Some in Hq as [_ Hq]; exact Hq
    | intros q; rewrite Hpt; intros Hq;
      apply lookup_insert_Some in Hq as [[<- _]|[_ Hq]]; [auto|];
      apply lookup_delete_Some in Hq as [Hne Hq];
      destruct (inv_table _ _ Hinv q f Hq) as (pg & Hpg & Hid' & _); congruence
    | rewrite Hrep; apply SetEvictable_RInv; assumption
    | intros g Hg Hn; rewrite Hrep; apply has_node_SetEvictable; apply Hhas; auto
    | intros g Hg; rewrite Hrep, evictable_SetEvictable;
      destruct (Z.eqb_spec f g); [congruence|]; apply Hev
    | lia
    | rewrite Hrep, evictable_SetEvictable, Z.eqb_refl; intros [_ [=]]
    | intros _; rewrite Hrep; apply has_node_SetEvictable; assumption
    | intros _ ?; lia
    | rewrite Hfl; intros ?; contradiction
    | intros g Hg _; congruence
    | exact Hnext ].
Qed.

Lemma acquired_RecordAccess s f pg0 s1 :
  acquired s f pg0 s1 ->
  page s1 f = Some pg0 /\ exists r', RecordAccess f (replacer_ s1) = Some r'.
Proof.
  intros (Hpg0 & Hpin & Hpages & Hpt & Hnext & Hdisk & Hps & Hnf & Hinv).
  assert (Hpg1 : page s1 f = Some pg0) by (rewrite (page_of_pages _ _ _ Hpages); assumption).
  split; [assumption|].
  pose proof (page_range _ _ _ Hpg1) as Hrange. rewrite (inv_len _ _ Hinv) in Hrange.
  destruct (RecordAccess_run _ _ f (inv_repl _ _ Hinv) Hrange) as (r' & Hr' & _).
  eauto.
Qed.

(** [NewPage], case by case. *)
Lemma NewPage_cases s :
  bpm_inv s ->
  (exists r', NewPage s = Some (None, set_replacer r' s)
      /\ free_list_ s = [] /\ all_pinned s /\ bpm_inv (set_replacer r' s))
  \/ (exists f pg0 s1 r',
        NewPage s = Some (Some (next_page_id_ s, f), new_page_state f pg0 r' s1)
        /\ acquired s f pg0 s1
        /\ RecordAccess f (replacer_ s1) = Some r'
        /\ bpm_inv (new_page_state f pg0 r' s1)).
Proof.
  intros Hinv. unfold NewPage.
  destruct (GetAvailableFrameId_spec s Hinv)
    as [(r' & HG & Hfl & Hall & Hinv') | (f & pg0 & s1 & HG & Hacq)];
    rewrite (bind_run _ _ _ _ _ HG).
  - left. exists r'. auto.
  - right. destruct (acquired_RecordAccess _ _ _ _ Hacq) as (Hpg1 & r' & Hr').
    exists f, pg0, s1, r'.
    rewrite (install_new_run s1 f pg0 r' Hpg1 Hr').
    destruct Hacq as (Hpg0 & Hpin & Hpages & Hpt & Hnext & Hdisk & Hps & Hnf & Hinv1).
    split; [rewrite Hnext; reflexivity|].
    split; [repeat (split; [assumption|]); assumption|].
    split; [assumption|].
    pose proof (inv_next _ _ Hinv1).
    eapply (install_inv s1 _ f pg0 (mkPage zero_data (next_page_id_ s1) 1 false) r');
      try eassumption; unfold new_page_state;
      cbn [set_replacer put_page set_pages set_page_table set_next_page_id
           pool_size_ pages_ page_table_ free_list_ replacer_ next_page_id_
           page_id_ pin_count_];
      rewrite ?pool_size_write_back, ?pages_write_back, ?free_list_write_back;
      try reflexivity.
    + unfold INVALID_PAGE_ID. lia.
    + lia.
Qed.

(** [FetchPage], case by case. *)
Lemma FetchPage_cases s p :
  bpm_inv s ->
  (p = INVALID_PAGE_ID /\ FetchPage p s = Some (None, s))
  \/ (exists f pg r',
        p <> INVALID_PAGE_ID /\ page_table_ s !! p = Some f /\ page s f = Some pg
        /\ page_id_ pg = p
        /\ RecordAccess f (replacer_ s) = Some r'
        /\ FetchPage p s = Some (Some f, fetch_hit_state f pg r' s)
        /\ bpm_inv (fetch_hit_state f pg r' s))
  \/ (exists r', p <> INVALID_PAGE_ID /\ page_table_ s !! p = None
        /\ FetchPage p s = Some (None, set_replacer r' s)
        /\ free_list_ s = [] /\ all_pinned s /\ bpm_inv (set_replacer r' s))
  \/ (exists f pg0 s1 r',
        p <> INVALID_PAGE_ID /\ page_table_ s !! p = None
        /\ FetchPage p s = Some (Some f, fetch_miss_state p f pg0 r' s1)
        /\ acquired s f pg0 s1
        /\ RecordAccess f (replacer_ s1) = Some r'
        /\ bpm_inv (fetch_miss_state p f pg0 r' s1)).
Proof.
  intros Hinv.
  destruct (Z.eq_dec p INVALID_PAGE_ID) as [->|Hp]; [left; split; reflexivity|].
  right. destruct (page_table_ s !! p) as [f|] eqn:Hpt.
  - left. destruct (inv_table _ _ Hinv p f Hpt) as (pg & Hpg & Hid & _).
    pose proof (page_range _ _ _ Hpg) as Hrange. rewrite (inv_len _ _ Hinv) in Hrange.
    destruct (RecordAccess_run _ _ f (inv_repl _ _ Hinv) Hrange)
      as (r' & Hr' & Hrinv & Hhasf & Hhas & Hev).
    exists f, pg, r'.
    split; [assumption|]. split; [reflexivity|].
    split; [assumption|]. split; [assumption|]. split; [assumption|].
    split; [apply FetchPage_hit; assumption|].
    destruct (inv_pin _ _ Hinv f pg Hpg) as (Hpin0 & _).
    apply (single_frame_inv None None s _ f
             (mkPage (data_ pg) (page_id_ pg) (pin_count_ pg + 1) true));
      unfold fetch_hit_state;
      cbn [set_replacer put_page set_pages set_page_table set_next_page_id
           pool_size_ pages_ page_table_ free_list_ replacer_ next_page_id_
           page_id_ pin_count_];
      [ exact Hinv | eauto | reflexivity | reflexivity
      | apply (inv_free_nodup _ _ Hinv) | auto | auto
      | intros q g Hq Hg;
        apply lookup_insert_Some in Hq as [[_ ?]|[_ Hq]]; [congruence | assumption]
      | intros q Hq;
        apply lookup_insert_Some in Hq as [[<- _]|[_ Hq]]; [split; congruence|];
        destruct (inv_table _ _ Hinv q f Hq) as (pg' & Hpg' & Hid' & Hne);
        split; congruence
      | apply SetEvictable_RInv; assumption
      | intros g Hg Hn; apply has_node_SetEvictable; apply Hhas; auto
      | intros g Hg; rewrite evictable_SetEvictable;
        destruct (Z.eqb_spec f g); [congruence|]; apply Hev
      | lia
      | rewrite evictable_SetEvictable, Z.eqb_refl; intros [_ [=]]
      | intros _; apply has_node_SetEvictable; assumption
      | intros _ ?; lia
      | intros Hin; destruct (inv_free _ _ Hinv f Hin) as (pg' & Hpg' & _ & Hid');
        congruence
      | auto
      | apply (inv_next _ _ Hinv) ].
  - right. unfold FetchPage, DoFetchPage.
    destruct (Z.eqb_spec p INVALID_PAGE_ID); [contradiction|].
    rewrite (bind_run _ _ s (page_table_ s !! p) s) by reflexivity. rewrite Hpt.
    destruct (GetAvailableFrameId_spec s Hinv)
      as [(r' & HG & Hfl & Hall & Hinv') | (f & pg0 & s1 & HG & Hacq)];
      rewrite (bind_run _ _ _ _ _ HG).
    + left. exists r'. auto 10.
    + right. destruct (acquired_RecordAccess _ _ _ _ Hacq) as (Hpg1 & r' & Hr').
      exists f, pg0, s1, r'.
      rewrite (install_fetch_run s1 p f pg0 r' Hpg1 Hr').
      split; [assumption|]. split; [reflexivity|]. split; [reflexivity|].
      split; [assumption|]. split; [assumption|].
      destruct Hacq as (Hpg0 & Hpin & Hpages & Hpt1 & Hnext & Hdisk & Hps & Hnf & Hinv1).
      pose proof (inv_next _ _ Hinv1).
      eapply (install_inv s1 _ f pg0
                (mkPage (disk_ReadPage p (disk_manager_ (write_back pg0 s1))) p 1 false) r');
        try eassumption; unfold fetch_miss_state;
        cbn [set_replacer put_page set_pages set_page_table set_next_page_id
             pool_size_ pages_ page_table_ free_list_ replacer_ next_page_id_
             page_id_ pin_count_];
        rewrite ?pool_size_write_back, ?pages_write_back, ?free_list_write_back,
          ?next_page_id_write_back;
        try reflexivity; try assumption.
Qed.

End BPMPreservation.

Section BPMReachable.
Import Replacer BPM.
Local Open Scope bpm_scope.
Local Opaque zero_data.

Implicit Types (s : BufferPoolManager) (f g p q : Z) (pg : Page).

(** A step that rewrites a frame without touching its pin count or page id,
    nor the bookkeeping around it. *)
Lemma same_pin_inv s1 s2 f pg pgN :
  bpm_inv s1 ->
  page s1 f = Some pg ->
  pin_count_ pgN = pin_count_ pg ->
  page_id_ pgN = page_id_ pg ->
  pool_size_ s2 = pool_size_ s1 ->
  pages_ s2 = <[Z.to_nat f := pgN]> (pages_ s1) ->
  free_list_ s2 = free_list_ s1 ->
  page_table_ s2 = page_table_ s1 ->
  replacer_ s2 = replacer_ s1 ->
  next_page_id_ s2 = next_page_id_ s1 ->
  bpm_inv s2.
Proof.
  intros Hinv Hpg Hpin Hid Hps Hpages Hfl Hpt Hrep Hnext.
  destruct (inv_pin _ _ Hinv f pg Hpg) as (H0 & Hn & Hz).
  apply (single_frame_inv None None s1 s2 f pgN);
    rewrite ?Hfl, ?Hpt, ?Hrep, ?Hnext, ?Hpin, ?Hid;
    [ exact Hinv | eauto | exact Hps | exact Hpages
    | apply (inv_free_nodup _ _ Hinv) | auto | auto | auto
    | intros q Hq; destruct (inv_table _ _ Hinv q f Hq) as (pg' & Hpg' & Hid' & Hne);
      split; congruence
    | apply (inv_repl _ _ Hinv)
    | auto | reflexivity | exact H0
    | intros Hev; apply (inv_ev _ _ Hinv f pg Hev Hpg)
    | exact Hn | exact Hz
    | intros Hin; destruct (inv_free _ _ Hinv f Hin) as (pg' & Hpg' & Hp' & Hid');
      split; congruence
    | auto
    | apply (inv_next _ _ Hinv) ].
Qed.

Lemma UnpinPage_inv s p d :
  bpm_inv s -> exists b s', UnpinPage p d s = Some (b, s') /\ bpm_inv s'.
Proof.
  intros Hinv. destruct (page_table_ s !! p) as [f|] eqn:Hpt.
  - destruct (inv_table _ _ Hinv p f Hpt) as (pg & Hpg & Hid & Hne).
    destruct (inv_pin _ _ Hinv f pg Hpg) as (H0 & Hn & Hz).
    destruct (Z.le_gt_cases (pin_count_ pg) 0) as [Hle|Hgt].
    + eexists _, _. split; [apply (UnpinPage_unpinned s p d f pg); assumption|].
      apply (same_pin_inv s _ f pg (with_is_dirty d pg)); auto.
    + eexists _, _. split; [apply (UnpinPage_pinned s p d f pg); assumption|].
      assert (Hnf : f ∉ free_list_ s).
      { intros Hin. destruct (inv_free _ _ Hinv f Hin) as (pg' & Hpg' & Hp' & _).
        assert (pg' = pg) by congruence. subst. lia. }
      unfold unpinned_state. cbn zeta.
      destruct (Z.eqb_spec (pin_count_ pg - 1) 0) as [Hz0|Hnz].
      * apply (single_frame_inv None None s _ f
                 (mkPage (data_ pg) (page_id_ pg) (pin_count_ pg - 1) d));
          cbn [set_replacer put_page set_pages pool_size_ pages_ page_table_
               free_list_ replacer_ next_page_id_ page_id_ pin_count_];
          [ exact Hinv | eauto | reflexivity | reflexivity
          | apply (inv_free_nodup _ _ Hinv) | auto | auto | auto
          | intros q Hq; destruct (inv_table _ _ Hinv q f Hq) as (pg' & Hpg' & Hid' & Hne');
            split; congruence
          | apply SetEvictable_RInv; apply (inv_repl _ _ Hinv)
          | intros g Hg Hh; apply has_node_SetEvictable; assumption
          | intros g Hg; rewrite evictable_SetEvictable;
            destruct (Z.eqb_spec f g); [congruence | reflexivity]
          | lia | auto | lia
          | intros _ _; right; rewrite evictable_SetEvictable, Z.eqb_refl;
            split; [apply Hn; lia | reflexivity]
          | intros Hin; contradiction
          | auto
          | apply (inv_next _ _ Hinv) ].
      * apply (single_frame_inv None None s _ f
                 (mkPage (data_ pg) (page_id_ pg) (pin_count_ pg - 1) d));
          cbn [set_replacer put_page set_pages pool_size_ pages_ page_table_
               free_list_ replacer_ next_page_id_ page_id_ pin_count_];
          [ exact Hinv | eauto | reflexivity | reflexivity
          | apply (inv_free_nodup _ _ Hinv) | auto | auto | auto
          | intros q Hq; destruct (inv_table _ _ Hinv q f Hq) as (pg' & Hpg' & Hid' & Hne');
            split; congruence
          | apply (inv_repl _ _ Hinv)
          | auto | reflexivity
          | lia
          | intros Hev; pose proof (inv_ev _ _ Hinv f pg Hev Hpg); lia
          | intros _; apply Hn; lia
          | intros _ ?; lia
          | intros Hin; contradiction
          | auto
          | apply (inv_next _ _ Hinv) ].
  - eexists _, _. split; [apply UnpinPage_not_resident; assumption | assumption].
Qed.

Lemma FlushPage_inv s p :
  bpm_inv s ->
  exists b s', FlushPage p s = Some (b, s') /\ bpm_inv s'
               /\ pool_size_ s' = pool_size_ s.
Proof.
  intros Hinv.
  destruct (Z.eq_dec p INVALID_PAGE_ID) as [Hp|Hp];
    [exists false, s; split; [apply FlushPage_refused; auto | auto]|].
  destruct (Z.le_gt_cases (next_page_id_ s) p) as [Hle|Hgt];
    [exists false, s; split; [apply FlushPage_refused; auto | auto]|].
  destruct (page_table_ s !! p) as [f|] eqn:Hpt;
    [|exists false, s; split; [apply FlushPage_refused; auto | auto]].
  destruct (inv_table _ _ Hinv p f Hpt) as (pg & Hpg & Hid & Hne).
  eexists _, _. split; [apply (FlushPage_run s p f pg); assumption || lia|].
  split; [|reflexivity].
  apply (same_pin_inv s _ f pg (with_is_dirty false pg)); auto.
Qed.

Lemma flush_frame_inv s f :
  bpm_inv s -> 0 <= f < Z.of_nat (pool_size_ s) ->
  exists s', flush_frame f s = Some (tt, s') /\ bpm_inv s'
             /\ pool_size_ s' = pool_size_ s.
Proof.
  intros Hinv Hf. unfold flush_frame.
  destruct (page_in_range s f) as [pg Hpg]; [rewrite (inv_len _ _ Hinv); lia|].
  rewrite (bind_run _ _ _ _ _ (page_at_run _ _ _ Hpg)).
  destruct (negb (page_id_ pg =? INVALID_PAGE_ID) && is_dirty_ pg).
  - destruct (FlushPage_inv s (page_id_ pg) Hinv) as (b & s' & HF & Hinv' & Hps).
    rewrite (bind_run _ _ _ _ _ HF). exists s'. auto.
  - exists s. auto.
Qed.

Lemma for_each_flush_inv (fs : list Z) : forall s,
  bpm_inv s -> (forall f, f ∈ fs -> 0 <= f < Z.of_nat (pool_size_ s)) ->
  exists s', for_each fs flush_frame s = Some (tt, s') /\ bpm_inv s'.
Proof.
  induction fs as [|f fs IH]; intros s Hinv Hr.
  - exists s. auto.
  - cbn [for_each].
    destruct (flush_frame_inv s f Hinv) as (s1 & H1 & Hinv1 & Hps);
      [apply Hr; apply list_elem_of_here|].
    rewrite (bind_run _ _ _ _ _ H1). apply IH; [assumption|].
    intros g Hg. rewrite Hps. apply Hr. apply list_elem_of_further. assumption.
Qed.

Lemma FlushAllPages_inv s :
  bpm_inv s -> exists s', FlushAllPages s = Some (tt, s') /\ bpm_inv s'.
Proof.
  intros Hinv. unfold FlushAllPages.
  rewrite (bind_run _ _ s (pool_size_ s) s) by reflexivity.
  apply for_each_flush_inv; [assumption|].
  intros f (i & -> & Hi%elem_of_seq)%list_elem_of_fmap. lia.
Qed.

Lemma DeletePage_inv s p :
  bpm_inv s -> exists b s', DeletePage p s = Some (b, s') /\ bpm_inv s'.
Proof.
  intros Hinv. destruct (page_table_ s !! p) as [f|] eqn:Hpt.
  - destruct (inv_table _ _ Hinv p f Hpt) as (pg & Hpg & Hid & Hne).
    destruct (Z.le_gt_cases (pin_count_ pg) 0) as [Hle|Hgt].
    + eexists _, _. split; [apply (DeletePage_unpinned s p f pg); assumption|].
      assert (Hnf : f ∉ free_list_ s).
      { intros Hin. destruct (inv_free _ _ Hinv f Hin) as (pg' & Hpg' & _ & Hid').
        congruence. }
      apply (single_frame_inv None None s _ f
               (mkPage zero_data INVALID_PAGE_ID 0 false));
        unfold deleted_state;
        cbn [set_free_list set_page_table put_page set_pages pool_size_ pages_
             page_table_ free_list_ replacer_ next_page_id_ page_id_ pin_count_];
        [ exact Hinv | eauto | reflexivity | reflexivity
        | apply NoDup_app; split; [apply (inv_free_nodup _ _ Hinv)|];
          split; [|apply NoDup_singleton];
          intros g Hg ->%list_elem_of_singleton; contradiction
        | intros g Hg [?| ->%list_elem_of_singleton]%elem_of_app;
          [assumption | contradiction]
        | intros g Hg Hin; apply elem_of_app; auto
        | intros q g Hq Hg; apply lookup_delete_Some in Hq as [_ Hq]; exact Hq
        | intros q Hq; apply lookup_delete_Some in Hq as [Hqp Hq];
          destruct (inv_table _ _ Hinv q f Hq) as (pg' & Hpg' & Hid' & Hne');
          congruence
        | apply (inv_repl _ _ Hinv)
        | auto | reflexivity
        | lia | auto | lia
        | intros _ _; left; apply elem_of_app; right; apply list_elem_of_here
        | auto
        | auto
        | apply (inv_next _ _ Hinv) ].
    + eexists _, _. split; [apply (DeletePage_pinned s p f pg); assumption || lia|].
      assumption.
  - eexists _, _. split; [apply DeletePage_not_resident; assumption | assumption].
Qed.

Lemma WriteData_inv s f bytes s' :
  bpm_inv s -> WriteData f bytes s = Some (tt, s') -> bpm_inv s'.
Proof.
  intros Hinv H. destruct (page s f) as [pg|] eqn:Hpg.
  - rewrite (WriteData_run _ _ _ _ Hpg) in H. injection H as <-.
    apply (same_pin_inv s _ f pg (with_data bytes pg)); auto.
  - unfold WriteData, update_page, bind in H.
    rewrite (page_at_fail _ _ Hpg) in H. discriminate.
Qed.

Lemma NewPage_inv s :
  bpm_inv s -> exists res s', NewPage s = Some (res, s') /\ bpm_inv s'.
Proof.
  intros Hinv.
  destruct (NewPage_cases s Hinv)
    as [(r' & H & _ & _ & Hinv') | (f & pg0 & s1 & r' & H & _ & _ & Hinv')];
    eauto.
Qed.

Lemma FetchPage_inv s p :
  bpm_inv s -> exists res s', FetchPage p s = Some (res, s') /\ bpm_inv s'.
Proof.
  intros Hinv.
  destruct (FetchPage_cases s p Hinv)
    as [(_ & H) | [(f & pg & r' & _ & _ & _ & _ & _ & H & Hinv')
       | [(r' & _ & _ & H & _ & _ & Hinv')
       | (f & pg0 & s1 & r' & _ & _ & H & _ & _ & Hinv')]]]; eauto.
Qed.

End BPMReachable.

(** ** Properties of the buffer pool *)

Section BPMClaims.
Import Replacer BPM.
Local Open Scope bpm_scope.
Local Opaque zero_data.

Implicit Types (s : BufferPoolManager) (f g p q : Z) (pg : Page).

Lemma run_op_inv s o s' :
  bpm_inv s -> run_op o s = Some (tt, s') -> bpm_inv s'.
Proof.
  intros Hinv H. destruct o as [|p|p d|p| |p|p d|f bytes]; cbn [run_op] in H.
  - destruct (NewPage_inv s Hinv) as (res & s1 & H1 & Hinv1).
    rewrite (bind_run _ _ _ _ _ H1) in H. injection H as <-. assumption.
  - destruct (FetchPage_inv s p Hinv) as (res & s1 & H1 & Hinv1).
    rewrite (bind_run _ _ _ _ _ H1) in H. injection H as <-. assumption.
  - destruct (UnpinPage_inv s p d Hinv) as (res & s1 & H1 & Hinv1).
    rewrite (bind_run _ _ _ _ _ H1) in H. injection H as <-. assumption.
  - destruct (FlushPage_inv s p Hinv) as (res & s1 & H1 & Hinv1 & _).
    rewrite (bind_run _ _ _ _ _ H1) in H. injection H as <-. assumption.
  - destruct (FlushAllPages_inv s Hinv) as (s1 & H1 & Hinv1).
    rewrite H1 in H. injection H as <-. assumption.
  - destruct (DeletePage_inv s p Hinv) as (res & s1 & H1 & Hinv1).
    rewrite (bind_run _ _ _ _ _ H1) in H. injection H as <-. assumption.
  - unfold GuardDrop in H.
    destruct (UnpinPage_inv s p d Hinv) as (res & s1 & H1 & Hinv1).
    rewrite (bind_run _ _ _ _ _ H1) in H. injection H as <-. assumption.
  - eapply WriteData_inv; eassumption.
Qed.

(** Every reachable state satisfies the bookkeeping invariant. *)
Lemma reachable_inv s : reachable s -> bpm_inv s.
Proof.
  induction 1 as [pool_size disk k Hmax | s s' o _ IH Hstep].
  - apply bpm_inv_new. assumption.
  - eapply run_op_inv; eassumption.
Qed.

(** No public operation of the pool aborts in a reachable state. *)
Lemma run_op_total s o :
  reachable s ->
  (forall f bytes, o = OpWriteData f bytes -> is_Some (page s f)) ->
  exists s', run_op o s = Some (tt, s').
Proof.
  intros Hinv%reachable_inv Hw.
  destruct o as [|p|p d|p| |p|p d|f bytes]; cbn [run_op].
  - destruct (NewPage_inv s Hinv) as (res & s1 & H1 & _).
    rewrite (bind_run _ _ _ _ _ H1). eexists; reflexivity.
  - destruct (FetchPage_inv s p Hinv) as (res & s1 & H1 & _).
    rewrite (bind_run _ _ _ _ _ H1). eexists; reflexivity.
  - destruct (UnpinPage_inv s p d Hinv) as (res & s1 & H1 & _).
    rewrite (bind_run _ _ _ _ _ H1). eexists; reflexivity.
  - destruct (FlushPage_inv s p Hinv) as (res & s1 & H1 & _).
    rewrite (bind_run _ _ _ _ _ H1). eexists; reflexivity.
  - destruct (FlushAllPages_inv s Hinv) as (s1 & H1 & _). eauto.
  - destruct (DeletePage_inv s p Hinv) as (res & s1 & H1 & _).
    rewrite (bind_run _ _ _ _ _ H1). eexists; reflexivity.
  - unfold GuardDrop. destruct (UnpinPage_inv s p d Hinv) as (res & s1 & H1 & _).
    rewrite (bind_run _ _ _ _ _ H1). eexists; reflexivity.
  - destruct (Hw f bytes eq_refl) as [pg Hpg].
    rewrite (WriteData_run _ _ _ _ Hpg). eauto.
Qed.

Definition unpinned s f : Prop :=
  exists pg, page s f = Some pg /\ pin_count_ pg = 0.

Lemma GetAvailableFrameId_unpinned s f s' :
  bpm_inv s -> GetAvailableFrameId s = Some (Some f, s') -> unpinned s f.
Proof.
  intros Hinv H.
  destruct (GetAvailableFrameId_spec s Hinv)
    as [(r' & HG & _) | (f' & pg0 & s1 & HG & Hpg0 & Hpin & _)];
    rewrite HG in H; [discriminate|].
  injection H as <- <-. exists pg0. auto.
Qed.

(** C1. Eviction safety: in every state reachable through the public
    operations (guard drops and [delete_page], which leaves the frame's
    replacer node behind, included), the frame that frame acquisition hands
    out, and so the frame [new_page] or a missing [fetch_page] reuses, has
    pin count 0. *)
Theorem eviction_safety s :
  reachable s ->
  (forall f s', GetAvailableFrameId s = Some (Some f, s') -> unpinned s f)
  /\ (forall p f s', NewPage s = Some (Some (p, f), s') -> unpinned s f)
  /\ (forall p f s', page_table_ s !! p = None ->
        FetchPage p s = Some (Some f, s') -> unpinned s f).
Proof.
  intros Hinv%reachable_inv. split; [|split].
  - intros f s'. apply GetAvailableFrameId_unpinned. assumption.
  - intros p f s' H.
    destruct (NewPage_cases s Hinv)
      as [(r' & H1 & _) | (f' & pg0 & s1 & r' & H1 & (Hpg0 & Hpin & _) & _)];
      rewrite H1 in H; [discriminate|].
    injection H as _ <- _. exists pg0. auto.
  - intros p f s' Hpt H.
    destruct (FetchPage_cases s p Hinv)
      as [(_ & H1) | [(f' & pg & r' & _ & Hpt' & _)
         | [(r' & _ & _ & H1 & _)
         | (f' & pg0 & s1 & r' & _ & _ & H1 & (Hpg0 & Hpin & _) & _)]]].
    + rewrite H1 in H. discriminate.
    + congruence.
    + rewrite H1 in H. discriminate.
    + rewrite H1 in H. injection H as <- _. exists pg0. auto.
Qed.

Lemma page_new_page_state s f pg0 r' :
  page s f = Some pg0 ->
  page (new_page_state f pg0 r' s) f
  = Some (mkPage zero_data (next_page_id_ s) 1 false).
Proof.
  intros H. unfold new_page_state.
  apply page_set_replacer. eapply page_put_page_eq.
  apply page_set_page_table, page_set_next_page_id, page_write_back. exact H.
Qed.

(** C6. In every reachable state [new_page] returns [nullptr] exactly when
    every frame is pinned; when it returns a frame, the frame holds the page
    id [next_page_id_] stood at, the counter has moved on by one, and the
    frame has pin count 1, a clear dirty flag and zeroed bytes. The call
    always returns. The states are those in which the 32-bit counter can
    still be incremented, [next_page_id_ < INT_MAX]: fewer than [2^31 - 1]
    pages have been allocated. *)
Theorem NewPage_spec s :
  reachable s -> next_page_id_ s < 2 ^ 31 - 1 ->
  ((exists s', NewPage s = Some (None, s')) <-> all_pinned s)
  /\ (forall p f s', NewPage s = Some (Some (p, f), s') ->
        p = next_page_id_ s
        /\ next_page_id_ s' = next_page_id_ s + 1
        /\ next_page_id_ s' <= 2 ^ 31 - 1
        /\ page s' f = Some (mkPage zero_data p 1 false))
  /\ (exists res s', NewPage s = Some (res, s')).
Proof.
  intros Hinv%reachable_inv Hmax.
  destruct (NewPage_cases s Hinv)
    as [(r' & H1 & _ & Hall & _)
       | (f' & pg0 & s1 & r' & H1 & Hacq & Hr' & _)].
  - split; [|split].
    + split; [auto | eauto].
    + intros p f s' H. rewrite H1 in H. discriminate.
    + eauto.
  - destruct (acquired_RecordAccess _ _ _ _ Hacq) as (Hpg1 & _).
    destruct Hacq as (Hpg0 & Hpin & _ & _ & Hnext & _).
    split; [|split].
    + split.
      * intros [s' H]. rewrite H1 in H. discriminate.
      * intros Hall. specialize (Hall f' pg0 Hpg0). lia.
    + intros p f s' H. rewrite H1 in H. injection H as <- <- <-.
      split; [reflexivity|].
      assert (Hn : next_page_id_ (new_page_state f' pg0 r' s1) = next_page_id_ s + 1).
      { unfold new_page_state. cbn [set_replacer put_page set_pages
          set_page_table set_next_page_id next_page_id_].
        rewrite ?next_page_id_write_back. lia. }
      split; [exact Hn|]. split; [lia|].
      rewrite <- Hnext. apply page_new_page_state. assumption.
    + eauto.
Qed.

(** C7. [delete_page] returns true and changes nothing when the page is not
    resident; returns false and changes nothing when the page is resident
    and pinned; otherwise it returns true, having erased the page-table
    entry, appended the frame to the free list, and reset the frame's bytes
    and metadata ([INVALID_PAGE_ID], pin count 0, not dirty). *)
Theorem DeletePage_spec s p :
  (page_table_ s !! p = None -> DeletePage p s = Some (true, s))
  /\ (forall f pg, page_table_ s !! p = Some f -> page s f = Some pg ->
        0 < pin_count_ pg -> DeletePage p s = Some (false, s))
  /\ (forall f pg, page_table_ s !! p = Some f -> page s f = Some pg ->
        pin_count_ pg <= 0 ->
        exists s', DeletePage p s = Some (true, s')
          /\ page_table_ s' = delete p (page_table_ s)
          /\ free_list_ s' = free_list_ s ++ [f]
          /\ page s' f = Some (mkPage zero_data INVALID_PAGE_ID 0 false)
          /\ (forall g, g <> f -> page s' g = page s g)
          /\ replacer_ s' = replacer_ s
          /\ next_page_id_ s' = next_page_id_ s
          /\ disk_manager_ s' = disk_manager_ s
          /\ pool_size_ s' = pool_size_ s).
Proof.
  split; [apply DeletePage_not_resident|].
  split; [apply DeletePage_pinned|].
  intros f pg Hpt Hpg Hpin. exists (deleted_state p f s).
  split; [apply (DeletePage_unpinned s p f pg); assumption|].
  unfold deleted_state. cbn [put_page set_pages set_free_list set_page_table
    page_table_ free_list_ replacer_ next_page_id_ disk_manager_ pool_size_].
  repeat (split; [reflexivity|]).
  assert (Hpage : forall g,
    page (set_pages (<[Z.to_nat f := mkPage zero_data INVALID_PAGE_ID 0 false]> (pages_ s))
            (set_free_list (free_list_ s ++ [f])
               (set_page_table (delete p (page_table_ s)) s))) g
    = if Z.eqb f g then Some (mkPage zero_data INVALID_PAGE_ID 0 false) else page s g).
  { intros g. apply (page_put_page (set_free_list (free_list_ s ++ [f])
      (set_page_table (delete p (page_table_ s)) s)) f g _ pg). exact Hpg. }
  split; [rewrite Hpage, Z.eqb_refl; reflexivity|].
  split; [|repeat split].
  intros g Hg. rewrite Hpage. destruct (Z.eqb_spec f g); [congruence | reflexivity].
Qed.

(** C8. Flush idempotence: for a resident page with a valid id below
    [next_page_id_], [flush_page] returns true and clears the dirty flag,
    and a second [flush_page] right after it returns true again, writes the
    same bytes under the same id, and leaves the frames and the disk
    contents as the first call left them. *)
Theorem FlushPage_idempotent s p f pg :
  p <> INVALID_PAGE_ID -> p < next_page_id_ s ->
  page_table_ s !! p = Some f -> page s f = Some pg ->
  exists s1 s2,
    FlushPage p s = Some (true, s1)
    /\ FlushPage p s1 = Some (true, s2)
    /\ page s1 f = Some (with_is_dirty false pg)
    /\ writes_ (disk_manager_ s1) = writes_ (disk_manager_ s) ++ [(p, data_ pg)]
    /\ writes_ (disk_manager_ s2) = writes_ (disk_manager_ s1) ++ [(p, data_ pg)]
    /\ store_ (disk_manager_ s2) = store_ (disk_manager_ s1)
    /\ pages_ s2 = pages_ s1
    /\ page_table_ s2 = page_table_ s1
    /\ free_list_ s2 = free_list_ s1
    /\ replacer_ s2 = replacer_ s1
    /\ next_page_id_ s2 = next_page_id_ s1.
Proof.
  intros Hp Hlt Hpt Hpg.
  set (s1 := put_page f (with_is_dirty false pg)
               (set_disk (disk_WritePage p (data_ pg) (disk_manager_ s)) s)).
  assert (Hpg1 : page s1 f = Some (with_is_dirty false pg)).
  { unfold s1. eapply page_put_page_eq. apply page_set_disk. exact Hpg. }
  exists s1. eexists.
  split; [apply (FlushPage_run s p f pg); assumption|].
  split; [apply (FlushPage_run s1 p f (with_is_dirty false pg)); assumption|].
  split; [assumption|].
  unfold s1. cbn [put_page set_pages set_disk disk_manager_ disk_WritePage
    writes_ store_ pages_ page_table_ free_list_ replacer_ next_page_id_
    with_is_dirty data_ page_id_ pin_count_ is_dirty_].
  split; [reflexivity|]. split; [reflexivity|].
  split; [apply insert_insert_eq|].
  split; [apply list_insert_insert_eq|].
  repeat split.
Qed.

(** C3, at the failing input. On a resident page whose pin count is already
    0, [unpin_page] returns false and yet has overwritten the frame's dirty
    flag with its argument: the state changes whenever the two differ. *)
Theorem UnpinPage_failure_overwrites_dirty s p d f pg :
  page_table_ s !! p = Some f -> page s f = Some pg -> pin_count_ pg <= 0 ->
  exists s',
    UnpinPage p d s = Some (false, s')
    /\ page s' f = Some (with_is_dirty d pg)
    /\ (is_dirty_ pg <> d -> s' <> s).
Proof.
  intros Hpt Hpg Hpin. exists (put_page f (with_is_dirty d pg) s).
  split; [apply UnpinPage_unpinned; assumption|].
  split; [eapply page_put_page_eq; exact Hpg|].
  intros Hd Heq.
  assert (H : page (put_page f (with_is_dirty d pg) s) f = Some (with_is_dirty d pg))
    by (eapply page_put_page_eq; exact Hpg).
  rewrite Heq, Hpg in H. injection H as H. apply Hd.
  rewrite H at 1. reflexivity.
Qed.

End BPMClaims.

(** ** Round trip through eviction *)

Section RoundTrip.
Import Replacer BPM.
Local Open Scope bpm_scope.
Local Opaque zero_data.

Implicit Types (s : BufferPoolManager) (f g p q : Z) (pg : Page)
  (B : list Byte.byte).

(** [holds_page p B s]: the bytes [B] of the allocated page [p] are safe in
    state [s]. A frame that holds [p] is the one the page table names, has
    the bytes [B], and is dirty unless the disk has [B] too; and when [p] is
    not resident the disk has [B]. *)
Definition holds_page p B s : Prop :=
  p <> INVALID_PAGE_ID
  /\ p < next_page_id_ s
  /\ (forall f pg, page s f = Some pg -> page_id_ pg = p ->
        page_table_ s !! p = Some f /\ data_ pg = B
        /\ (is_dirty_ pg = true \/ disk_ReadPage p (disk_manager_ s) = B))
  /\ (page_table_ s !! p = None -> disk_ReadPage p (disk_manager_ s) = B).

(** The calls of the round trip's middle part: [new_page], [fetch_page] and
    [unpin_page], where an [unpin_page] of [p] passes [is_dirty = true]. *)
Definition keeps_dirty p (o : op) : Prop :=
  match o with
  | OpNewPage => True
  | OpFetchPage _ => True
  | OpUnpinPage q d => q = p -> d = true
  | _ => False
  end.

Lemma disk_read_write p q bytes d :
  disk_ReadPage p (disk_WritePage q bytes d)
  = if Z.eqb q p then bytes else disk_ReadPage p d.
Proof.
  unfold disk_ReadPage, disk_WritePage. cbn [store_].
  destruct (Z.eqb_spec q p) as [->|Hne].
  - rewrite lookup_insert_eq. reflexivity.
  - rewrite lookup_insert_ne by assumption. reflexivity.
Qed.

Lemma disk_read_write_back p pg0 s :
  disk_ReadPage p (disk_manager_ (write_back pg0 s))
  = if is_dirty_ pg0 && Z.eqb (page_id_ pg0) p then data_ pg0
    else disk_ReadPage p (disk_manager_ s).
Proof.
  unfold write_back. destruct (is_dirty_ pg0); cbn [andb set_disk disk_manager_];
    [apply disk_read_write | reflexivity].
Qed.

(** A step that changes the flags of one frame only. *)
Lemma holds_page_flags p B s1 s2 f pg pgN :
  holds_page p B s1 ->
  page s1 f = Some pg ->
  page_id_ pgN = page_id_ pg ->
  data_ pgN = data_ pg ->
  (page_id_ pg = p -> is_dirty_ pg = true \/
     disk_ReadPage p (disk_manager_ s1) = B -> is_dirty_ pgN = true \/
     disk_ReadPage p (disk_manager_ s1) = B) ->
  pages_ s2 = <[Z.to_nat f := pgN]> (pages_ s1) ->
  page_table_ s2 = page_table_ s1 ->
  disk_manager_ s2 = disk_manager_ s1 ->
  next_page_id_ s2 = next_page_id_ s1 ->
  holds_page p B s2.
Proof.
  intros (Hp & Hnext & Hfr & Hnone) Hpg Hid Hdata Hdirty Hpages Hpt Hdisk Hn.
  assert (Hpage : forall g, page s2 g = if Z.eqb f g then Some pgN else page s1 g)
    by (intros; apply page_of_insert; eauto).
  unfold holds_page. rewrite Hpt, Hdisk, Hn.
  split; [assumption|]. split; [assumption|]. split; [|assumption].
  intros g pg'. rewrite Hpage. destruct (Z.eqb_spec f g) as [<-|Hne]; [|apply Hfr].
  intros [= <-] Hidp.
  destruct (Hfr f pg Hpg) as (Ht & Hd & Hdd); [congruence|].
  split; [assumption|]. split; [congruence|].
  apply Hdirty; [congruence | assumption].
Qed.

(** Installing a page in an acquired frame. *)
Lemma holds_page_install p B s s1 s2 f pg0 pgN :
  holds_page p B s ->
  acquired s f pg0 s1 ->
  (page_id_ pgN = p ->
   page_table_ s !! p = None
   /\ data_ pgN = disk_ReadPage p (disk_manager_ (write_back pg0 s1))) ->
  pages_ s2 = <[Z.to_nat f := pgN]> (pages_ s1) ->
  page_table_ s2 = <[page_id_ pgN := f]> (delete (page_id_ pg0) (page_table_ s1)) ->
  disk_manager_ s2 = disk_manager_ (write_back pg0 s1) ->
  next_page_id_ s1 <= next_page_id_ s2 ->
  holds_page p B s2.
Proof.
  intros (Hp & Hnext & Hfr & Hnone)
    (Hpg0 & Hpin & Hpages1 & Hpt1 & Hnext1 & Hdisk1 & Hps1 & Hnf & Hinv1)
    Hnew Hpages Hpt Hdisk Hn.
  assert (Hpg1 : page s1 f = Some pg0)
    by (rewrite (page_of_pages _ _ _ Hpages1); assumption).
  assert (Hpage : forall g, page s2 g = if Z.eqb f g then Some pgN else page s g).
  { intros g. rewrite (page_of_insert s1 s2 f g pgN) by eauto.
    rewrite (page_of_pages _ _ _ Hpages1). reflexivity. }
  assert (Hread : disk_ReadPage p (disk_manager_ s2)
                  = if is_dirty_ pg0 && Z.eqb (page_id_ pg0) p then data_ pg0
                    else disk_ReadPage p (disk_manager_ s)).
  { rewrite Hdisk, disk_read_write_back, Hdisk1. reflexivity. }
  (* what the victim frame tells when it holds [p] *)
  assert (Hvictim : page_id_ pg0 = p ->
            page_table_ s !! p = Some f /\ data_ pg0 = B
            /\ (is_dirty_ pg0 = true \/ disk_ReadPage p (disk_manager_ s) = B))
    by (intros; apply Hfr; assumption).
  unfold holds_page. rewrite Hpt, Hpt1.
  split; [assumption|]. split; [lia|]. split.
  - intros g pg'. rewrite Hpage. destruct (Z.eqb_spec f g) as [<-|Hne].
    + intros [= <-] Hidp. destruct (Hnew Hidp) as (Hmiss & Hdata).
      rewrite Hidp, lookup_insert_eq. split; [reflexivity|].
      assert (Hne0 : page_id_ pg0 <> p).
      { intros Heq. destruct (Hvictim Heq) as (Ht & _). congruence. }
      assert (HB : disk_ReadPage p (disk_manager_ s2) = B).
      { rewrite Hread. destruct (Z.eqb_spec (page_id_ pg0) p); [contradiction|].
        rewrite andb_false_r. auto. }
      rewrite Hdata, <- Hdisk. auto.
    + intros Hg Hidp. destruct (Hfr g pg' Hg Hidp) as (Ht & Hd & Hdd).
      assert (Hne0 : page_id_ pg0 <> p).
      { intros Heq. destruct (Hvictim Heq) as (Ht' & _). congruence. }
      assert (HneN : page_id_ pgN <> p).
      { intros Heq. destruct (Hnew Heq) as (Hmiss & _). congruence. }
      rewrite lookup_insert_ne by assumption.
      rewrite lookup_delete_ne by assumption.
      split; [assumption|]. split; [assumption|].
      destruct Hdd as [?|Hdk]; [auto|]. right.
      rewrite Hread. destruct (Z.eqb_spec (page_id_ pg0) p); [contradiction|].
      rewrite andb_false_r. assumption.
  - intros Hlk. apply lookup_insert_None in Hlk as [Hlk HneN].
    rewrite Hread.
    destruct (Z.eqb_spec (page_id_ pg0) p) as [Heq|Hne0].
    + destruct (Hvictim Heq) as (_ & Hd & [Hdy|Hdk]).
      * rewrite Hdy. cbn. assumption.
      * destruct (is_dirty_ pg0); cbn; assumption.
    + rewrite andb_false_r. apply Hnone.
      apply lookup_delete_None in Hlk as [?|?]; [contradiction | assumption].
Qed.

Lemma holds_page_set_replacer p B s r' :
  holds_page p B s -> holds_page p B (set_replacer r' s).
Proof. auto. Qed.

Lemma holds_page_NewPage p B s res s' :
  bpm_inv s -> holds_page p B s -> NewPage s = Some (res, s') ->
  holds_page p B s'.
Proof.
  intros Hinv Hh H.
  destruct (NewPage_cases s Hinv)
    as [(r' & H1 & _) | (f & pg0 & s1 & r' & H1 & Hacq & Hr' & _)];
    rewrite H1 in H; injection H as <- <-.
  - apply holds_page_set_replacer. assumption.
  - pose proof Hacq as (_ & _ & _ & _ & Hnext1 & _).
    apply (holds_page_install p B s s1 _ f pg0
             (mkPage zero_data (next_page_id_ s1) 1 false));
      [ assumption | assumption | | | | | ];
      unfold new_page_state;
      cbn [set_replacer put_page set_pages set_page_table set_next_page_id
           pages_ page_table_ disk_manager_ next_page_id_ page_id_ data_];
      rewrite ?pages_write_back, ?next_page_id_write_back; try reflexivity.
    + destruct Hh as (_ & Hlt & _). intros Heq. lia.
    + lia.
Qed.

Lemma holds_page_FetchPage p B s q res s' :
  bpm_inv s -> holds_page p B s -> FetchPage q s = Some (res, s') ->
  holds_page p B s'.
Proof.
  intros Hinv Hh H.
  destruct (FetchPage_cases s q Hinv)
    as [(_ & H1) | [(f & pg & r' & Hq & Hpt & Hpg & Hid & Hr' & H1 & _)
       | [(r' & _ & _ & H1 & _)
       | (f & pg0 & s1 & r' & Hq & Hpt & H1 & Hacq & Hr' & _)]]];
    rewrite H1 in H; injection H as <- <-.
  - assumption.
  - apply (holds_page_flags p B s _ f pg
             (mkPage (data_ pg) (page_id_ pg) (pin_count_ pg + 1) true));
      unfold fetch_hit_state;
      cbn [set_replacer put_page set_pages set_page_table pages_ page_table_
           disk_manager_ next_page_id_ page_id_ data_ is_dirty_];
      try assumption; try reflexivity.
    + auto.
    + rewrite Hid. apply insert_id. assumption.
  - apply holds_page_set_replacer. assumption.
  - pose proof Hacq as (_ & _ & _ & _ & Hnext1 & _).
    apply (holds_page_install p B s s1 _ f pg0
             (mkPage (disk_ReadPage q (disk_manager_ (write_back pg0 s1))) q 1 false));
      [ assumption | assumption | | | | | ];
      unfold fetch_miss_state;
      cbn [set_replacer put_page set_pages set_page_table set_next_page_id
           pages_ page_table_ disk_manager_ next_page_id_ page_id_ data_];
      rewrite ?pages_write_back, ?next_page_id_write_back; try reflexivity.
    intros <-. auto.
Qed.

Lemma holds_page_UnpinPage p B s q d res s' :
  bpm_inv s -> holds_page p B s -> (q = p -> d = true) ->
  UnpinPage q d s = Some (res, s') ->
  holds_page p B s'.
Proof.
  intros Hinv Hh Hd H. destruct (page_table_ s !! q) as [f|] eqn:Hpt.
  - destruct (inv_table _ _ Hinv q f Hpt) as (pg & Hpg & Hid & Hne).
    destruct (Z.le_gt_cases (pin_count_ pg) 0) as [Hle|Hgt].
    + rewrite (UnpinPage_unpinned s q d f pg Hpt Hpg Hle) in H.
      injection H as <- <-.
      apply (holds_page_flags p B s _ f pg (with_is_dirty d pg));
        try assumption; try reflexivity.
      intros Hp _. left. cbn. apply Hd. congruence.
    + rewrite (UnpinPage_pinned s q d f pg Hpt Hpg) in H by lia.
      injection H as <- <-.
      apply (holds_page_flags p B s _ f pg
               (mkPage (data_ pg) (page_id_ pg) (pin_count_ pg - 1) d));
        try assumption; try reflexivity.
      * intros Hp _. left. cbn. apply Hd. congruence.
      * unfold unpinned_state. cbn zeta.
        destruct (pin_count_ pg - 1 =? 0); reflexivity.
      * unfold unpinned_state. cbn zeta.
        destruct (pin_count_ pg - 1 =? 0); reflexivity.
      * unfold unpinned_state. cbn zeta.
        destruct (pin_count_ pg - 1 =? 0); reflexivity.
      * unfold unpinned_state. cbn zeta.
        destruct (pin_count_ pg - 1 =? 0); reflexivity.
  - rewrite (UnpinPage_not_resident s q d Hpt) in H. injection H as <- <-.
    assumption.
Qed.

Lemma holds_page_run_ops p B (os : list op) : forall s s',
  bpm_inv s -> holds_page p B s -> Forall (keeps_dirty p) os ->
  run_ops os s = Some (tt, s') ->
  bpm_inv s' /\ holds_page p B s'.
Proof.
  induction os as [|o os IH]; intros s s' Hinv Hh Hall H.
  - injection H as <-. auto.
  - apply Forall_cons in Hall as [Ho Hall]. cbn [run_ops] in H.
    apply bind_inv in H as ([] & s1 & Hstep & Hrest).
    assert (Hh1 : holds_page p B s1).
    { destruct o as [|q|q d|q| |q|q d|f bytes]; cbn [keeps_dirty] in Ho;
        try contradiction; cbn [run_op] in Hstep;
        apply bind_inv in Hstep as (res & s1' & Hop & Hret);
        injection Hret as <-.
      - eapply holds_page_NewPage; eassumption.
      - eapply holds_page_FetchPage; eassumption.
      - eapply holds_page_UnpinPage; eassumption. }
    apply (IH s1 s'); try assumption.
    eapply run_op_inv; eassumption.
Qed.

Lemma FetchPage_resident s p f s' :
  bpm_inv s -> FetchPage p s = Some (Some f, s') ->
  bpm_inv s' /\ page_table_ s' !! p = Some f.
Proof.
  intros Hinv H.
  destruct (FetchPage_cases s p Hinv)
    as [(_ & H1) | [(f' & pg & r' & Hq & Hpt & Hpg & Hid & Hr' & H1 & Hinv')
       | [(r' & _ & _ & H1 & _)
       | (f' & pg0 & s1 & r' & Hq & Hpt & H1 & Hacq & Hr' & Hinv')]]];
    rewrite H1 in H; try discriminate; injection H as <- <-.
  - split; [assumption|]. unfold fetch_hit_state.
    cbn [set_replacer put_page set_pages set_page_table page_table_].
    rewrite Hid. apply lookup_insert_eq.
  - split; [assumption|]. unfold fetch_miss_state.
    cbn [set_replacer put_page set_pages set_page_table page_table_].
    apply lookup_insert_eq.
Qed.

(** C4, as amended. Round trip: start in a reachable state none of whose
    frames holds the id [new_page] is about to allocate; call [new_page],
    which yields page [p] in frame [f]; write bytes [B] into the frame; call
    [unpin_page(p, true)]; then run any sequence of [new_page], [fetch_page]
    and [unpin_page] calls in which every [unpin_page] of [p] passes
    [is_dirty = true]. A [fetch_page(p)] that then returns a frame returns
    one that holds page [p] with bytes [B], whether or not [p] was evicted
    and reloaded in between. *)
Theorem round_trip s0 p f B s1 s2 b s3 (os : list op) s4 f' s5 :
  reachable s0 ->
  (forall g pg, page s0 g = Some pg -> page_id_ pg <> next_page_id_ s0) ->
  NewPage s0 = Some (Some (p, f), s1) ->
  WriteData f B s1 = Some (tt, s2) ->
  UnpinPage p true s2 = Some (b, s3) ->
  Forall (keeps_dirty p) os ->
  run_ops os s3 = Some (tt, s4) ->
  FetchPage p s4 = Some (Some f', s5) ->
  exists pg, page s5 f' = Some pg /\ page_id_ pg = p /\ data_ pg = B.
Proof.
  intros Hinv0%reachable_inv Hfresh HN HW HU Hos Hrun HF.
  (* the state after [new_page] *)
  destruct (NewPage_cases s0 Hinv0)
    as [(r' & H1 & _) | (f0 & pg0 & t & r' & H1 & Hacq & Hr' & Hinv1)];
    rewrite H1 in HN; [discriminate|]. injection HN as <- <- <-.
  destruct (acquired_RecordAccess _ _ _ _ Hacq) as (Hpgt & _).
  pose proof Hacq as (Hpg0 & _ & Hpages & _ & Hnext & _).
  set (s1 := new_page_state f0 pg0 r' t) in *.
  assert (Hpg1 : page s1 f0 = Some (mkPage zero_data (next_page_id_ s0) 1 false)).
  { unfold s1. rewrite <- Hnext. apply page_new_page_state. assumption. }
  assert (Hpage1 : forall g, g <> f0 -> page s1 g = page s0 g).
  { intros g Hg. unfold s1, new_page_state.
    assert (Hx : page (set_replacer (SetEvictable f0 false r')
                   (put_page f0 (mkPage zero_data (next_page_id_ t) 1 false)
                      (set_page_table
                         (<[next_page_id_ t := f0]> (delete (page_id_ pg0) (page_table_ t)))
                         (set_next_page_id (next_page_id_ t + 1) (write_back pg0 t))))) g
                 = page (write_back pg0 t) g).
    { change (page (put_page f0 (mkPage zero_data (next_page_id_ t) 1 false)
                      (set_page_table
                         (<[next_page_id_ t := f0]> (delete (page_id_ pg0) (page_table_ t)))
                         (set_next_page_id (next_page_id_ t + 1) (write_back pg0 t)))) g
              = page (write_back pg0 t) g).
      erewrite page_put_page
        by (apply page_set_page_table, page_set_next_page_id, page_write_back;
            exact Hpgt).
      destruct (Z.eqb_spec f0 g); [congruence | reflexivity]. }
    rewrite Hx. rewrite (page_of_pages t (write_back pg0 t)) by apply pages_write_back.
    apply page_of_pages. assumption. }
  assert (Hpt1 : page_table_ s1 !! next_page_id_ s0 = Some f0).
  { unfold s1, new_page_state.
    cbn [set_replacer put_page set_pages set_page_table page_table_].
    rewrite Hnext. apply lookup_insert_eq. }
  assert (Hnext1 : next_page_id_ s1 = next_page_id_ s0 + 1).
  { unfold s1, new_page_state.
    cbn [set_replacer put_page set_pages set_page_table set_next_page_id next_page_id_].
    lia. }
  (* the write *)
  rewrite (WriteData_run _ _ _ _ Hpg1) in HW. injection HW as <-.
  set (s2 := put_page f0 (with_data B (mkPage zero_data (next_page_id_ s0) 1 false)) s1) in *.
  assert (Hinv2 : bpm_inv s2).
  { apply (same_pin_inv s1 s2 f0 _ (with_data B (mkPage zero_data (next_page_id_ s0) 1 false)) Hinv1 Hpg1);
      reflexivity. }
  assert (Hpg2 : page s2 f0 = Some (mkPage B (next_page_id_ s0) 1 false)).
  { unfold s2. eapply page_put_page_eq. exact Hpg1. }
  (* the unpin *)
  rewrite (UnpinPage_pinned s2 (next_page_id_ s0) true f0 _ Hpt1 Hpg2) in HU
    by (cbn; lia).
  injection HU as <- <-.
  assert (Hinv3 : bpm_inv (unpinned_state f0 (mkPage B (next_page_id_ s0) 1 false) true s2)).
  { destruct (UnpinPage_inv s2 (next_page_id_ s0) true Hinv2) as (b' & s' & HU' & Hinv').
    rewrite (UnpinPage_pinned s2 (next_page_id_ s0) true f0 _ Hpt1 Hpg2) in HU'
      by (cbn; lia).
    injection HU' as <- <-. assumption. }
  assert (Hh3 : holds_page (next_page_id_ s0) B
                  (unpinned_state f0 (mkPage B (next_page_id_ s0) 1 false) true s2)).
  { pose proof (inv_next _ _ Hinv0) as Hn0.
    assert (Hpage3 : forall g,
      page (unpinned_state f0 (mkPage B (next_page_id_ s0) 1 false) true s2) g
      = if Z.eqb f0 g then Some (mkPage B (next_page_id_ s0) 0 true) else page s0 g).
    { intros g. unfold unpinned_state. cbn zeta. cbn [data_ page_id_ pin_count_].
      change (1 - 1 =? 0) with true. cbv iota.
      change (page (put_page f0 (mkPage B (next_page_id_ s0) (1 - 1) true) s2) g
              = if Z.eqb f0 g then Some (mkPage B (next_page_id_ s0) 0 true) else page s0 g).
      rewrite (page_put_page s2 f0 g _ _ Hpg2).
      destruct (Z.eqb_spec f0 g) as [<-|Hne]; [reflexivity|].
      unfold s2. rewrite (page_put_page s1 f0 g _ _ Hpg1).
      destruct (Z.eqb_spec f0 g); [contradiction|]. apply Hpage1. congruence. }
    assert (Hpt3 : page_table_ (unpinned_state f0 (mkPage B (next_page_id_ s0) 1 false) true s2)
                   = page_table_ s1).
    { unfold unpinned_state. cbn zeta. destruct (_ =? 0); reflexivity. }
    assert (Hn3 : next_page_id_ (unpinned_state f0 (mkPage B (next_page_id_ s0) 1 false) true s2)
                  = next_page_id_ s1).
    { unfold unpinned_state. cbn zeta. destruct (_ =? 0); reflexivity. }
    unfold holds_page. rewrite Hpt3, Hn3, Hpt1.
    split; [unfold INVALID_PAGE_ID; lia|]. split; [lia|]. split; [|discriminate].
    intros g pg. rewrite Hpage3. destruct (Z.eqb_spec f0 g) as [<-|Hne].
    - intros [= <-] _. cbn. auto.
    - intros Hg Hid. destruct (Hfresh g pg Hg Hid). }
  (* the calls in between *)
  destruct (holds_page_run_ops _ _ os _ _ Hinv3 Hh3 Hos Hrun) as (Hinv4 & Hh4).
  (* the final fetch *)
  pose proof (holds_page_FetchPage _ _ _ _ _ _ Hinv4 Hh4 HF) as Hh5.
  destruct (FetchPage_resident _ _ _ _ Hinv4 HF) as (Hinv5 & Hpt5).
  destruct (inv_table _ _ Hinv5 _ _ Hpt5) as (pg & Hpg & Hid & _).
  exists pg. split; [assumption|]. split; [assumption|].
  destruct Hh5 as (_ & _ & Hfr & _). apply (Hfr f' pg Hpg Hid).
Qed.

End RoundTrip.

(** ** Concrete runs *)

Section ConcreteRuns.
Import Replacer BPM.
Local Open Scope bpm_scope.

Implicit Types (s : BufferPoolManager) (f g p q : Z) (pg : Page).

Definition empty_disk : DiskManager := mkDisk ∅ [].

(** Pools of one and of two frames, K = 2, over an empty disk. *)
Definition pool1 : BufferPoolManager := BufferPoolManager_new 1 empty_disk 2.
Definition pool2 : BufferPoolManager := BufferPoolManager_new 2 empty_disk 2.

(** A page full of the byte 'W'. *)
Definition bytes_W : list Byte.byte := repeat Byte.x57 BUSTUB_PAGE_SIZE.

(** The state a run of calls leaves. *)
Definition state_after (os : list op) s : BufferPoolManager :=
  match run_ops os s with
  | Some (_, s') => s'
  | None => s
  end.

Lemma reachable_run_ops (os : list op) : forall s s',
  reachable s -> run_ops os s = Some (tt, s') -> reachable s'.
Proof.
  induction os as [|o os IH]; intros s s' Hr H.
  - injection H as <-. assumption.
  - cbn [run_ops] in H. apply bind_inv in H as ([] & s1 & Hstep & Hrest).
    apply (IH s1 s'); [|assumption]. eapply reach_step; eassumption.
Qed.

Lemma page_new (pool_size : nat) (disk : DiskManager) (k : nat) f :
  page (BufferPoolManager_new pool_size disk k) f
  = if (0 <=? f) && (f <? Z.of_nat pool_size) then Some Page_new else None.
Proof.
  unfold page, BufferPoolManager_new. cbn [pages_].
  destruct (Z.leb_spec 0 f); [|reflexivity]. cbn [andb].
  destruct (Z.ltb_spec f (Z.of_nat pool_size)).
  - apply lookup_replicate_2. lia.
  - apply lookup_ge_None. rewrite length_replicate. lia.
Qed.

(** No frame of a new pool holds the first id [new_page] allocates. *)
Lemma new_pool_fresh (pool_size : nat) (disk : DiskManager) (k : nat) f pg :
  page (BufferPoolManager_new pool_size disk k) f = Some pg ->
  page_id_ pg <> next_page_id_ (BufferPoolManager_new pool_size disk k).
Proof.
  rewrite page_new. destruct (_ && _); [|discriminate].
  intros [= <-]. discriminate.
Qed.

(** *** Eviction safety after a delete *)

(** [new_page; unpin_page(0, false); delete_page(0)] on a one-frame pool:
    frame 0 is back in the free list and its replacer node stays behind,
    still evictable. *)
Definition stale_state : BufferPoolManager :=
  state_after [OpNewPage; OpUnpinPage 0 false; OpDeletePage 0] pool1.

Lemma stale_state_reachable : reachable stale_state.
Proof.
  apply (reachable_run_ops [OpNewPage; OpUnpinPage 0 false; OpDeletePage 0] pool1).
  - apply reach_new. lia.
  - vm_compute. reflexivity.
Qed.

Lemma stale_state_node :
  free_list_ stale_state = [0]
  /\ store_find 0 (node_store_ (replacer_ stale_state))
     = Some (mkNode [0] 2 0 true)
  /\ curr_size_ (replacer_ stale_state) = 1.
Proof. vm_compute. repeat split. Qed.

Lemma eviction_safety_witness :
  (forall f s', GetAvailableFrameId stale_state = Some (Some f, s') ->
                unpinned stale_state f)
  /\ (forall p f s', NewPage stale_state = Some (Some (p, f), s') ->
                     unpinned stale_state f)
  /\ (forall p f s', page_table_ stale_state !! p = None ->
        FetchPage p stale_state = Some (Some f, s') -> unpinned stale_state f).
Proof. apply (eviction_safety stale_state). exact stale_state_reachable. Defined.

(** *** [new_page] on a full pool *)

Definition full_state : BufferPoolManager := state_after [OpNewPage] pool1.

Lemma full_state_reachable : reachable full_state.
Proof.
  apply (reachable_run_ops [OpNewPage] pool1).
  - apply reach_new. lia.
  - vm_compute. reflexivity.
Qed.

Lemma NewPage_spec_witness :
  ((exists s', NewPage stale_state = Some (None, s')) <-> all_pinned stale_state)
  /\ (forall p f s', NewPage stale_state = Some (Some (p, f), s') ->
        p = next_page_id_ stale_state
        /\ next_page_id_ s' = next_page_id_ stale_state + 1
        /\ next_page_id_ s' <= 2 ^ 31 - 1
        /\ page s' f = Some (mkPage zero_data p 1 false))
  /\ (exists res s', NewPage stale_state = Some (res, s')).
Proof.
  apply (NewPage_spec stale_state); [exact stale_state_reachable|].
  vm_compute. reflexivity.
Defined.

(** On [stale_state] the call succeeds: page 1 in frame 0. *)
Lemma NewPage_stale_state :
  exists s', NewPage stale_state = Some (Some (1, 0), s').
Proof. eexists. vm_compute. reflexivity. Qed.

(** *** Flushing twice *)

Lemma FlushPage_idempotent_witness :
  exists s1 s2,
    FlushPage 0 full_state = Some (true, s1)
    /\ FlushPage 0 s1 = Some (true, s2)
    /\ page s1 0 = Some (with_is_dirty false (mkPage zero_data 0 1 false))
    /\ writes_ (disk_manager_ s1)
       = writes_ (disk_manager_ full_state) ++ [(0, zero_data)]
    /\ writes_ (disk_manager_ s2) = writes_ (disk_manager_ s1) ++ [(0, zero_data)]
    /\ store_ (disk_manager_ s2) = store_ (disk_manager_ s1)
    /\ pages_ s2 = pages_ s1
    /\ page_table_ s2 = page_table_ s1
    /\ free_list_ s2 = free_list_ s1
    /\ replacer_ s2 = replacer_ s1
    /\ next_page_id_ s2 = next_page_id_ s1.
Proof.
  apply (FlushPage_idempotent full_state 0 0 (mkPage zero_data 0 1 false)).
  - discriminate.
  - vm_compute. reflexivity.
  - vm_compute. reflexivity.
  - vm_compute. reflexivity.
Defined.

(** *** A failed unpin that clears the dirty flag *)

(** [new_page; unpin_page(0, true)]: page 0 is resident, unpinned, dirty. *)
Definition dirty_state : BufferPoolManager :=
  state_after [OpNewPage; OpUnpinPage 0 true] pool1.

Lemma UnpinPage_failure_overwrites_dirty_witness :
  exists s',
    UnpinPage 0 false dirty_state = Some (false, s')
    /\ page s' 0 = Some (with_is_dirty false (mkPage zero_data 0 0 true))
    /\ (is_dirty_ (mkPage zero_data 0 0 true) <> false -> s' <> dirty_state).
Proof.
  apply (UnpinPage_failure_overwrites_dirty dirty_state 0 false 0
           (mkPage zero_data 0 0 true)).
  - vm_compute. reflexivity.
  - vm_compute. reflexivity.
  - cbn. lia.
Defined.

(** *** Round trips *)

(** The states of the round trip on the one-frame pool. *)
Definition rt_s1 : BufferPoolManager := state_after [OpNewPage] pool1.
Definition rt_s2 : BufferPoolManager := state_after [OpWriteData 0 bytes_W] rt_s1.
Definition rt_s3 : BufferPoolManager := state_after [OpUnpinPage 0 true] rt_s2.

(** A middle part that evicts page 0 and writes it back. *)
Definition rt_evict : list op := [OpNewPage; OpUnpinPage 1 false].

Lemma round_trip_witness :
  exists pg,
    page (state_after [OpFetchPage 0] (state_after rt_evict rt_s3)) 0 = Some pg
    /\ page_id_ pg = 0 /\ data_ pg = bytes_W.
Proof.
  apply (round_trip pool1 0 0 bytes_W rt_s1 rt_s2 true rt_s3 rt_evict
           (state_after rt_evict rt_s3) 0
           (state_after [OpFetchPage 0] (state_after rt_evict rt_s3))).
  - apply reach_new. lia.
  - apply new_pool_fresh.
  - vm_compute. reflexivity.
  - vm_compute. reflexivity.
  - vm_compute. reflexivity.
  - repeat constructor. discriminate.
  - vm_compute. reflexivity.
  - vm_compute. reflexivity.
Defined.

(** A middle part in which a reader fetches page 0 and unpins it with
    [is_dirty = false] before the page is evicted. *)
Definition rt_clean_unpin : list op :=
  [OpFetchPage 0; OpUnpinPage 0 false; OpNewPage; OpUnpinPage 1 false].

(** The run on a one-frame pool: [new_page] yields page 0, the client writes
    [bytes_W] and calls [unpin_page(0, true)]; a reader then fetches page 0
    and unpins it with [is_dirty = false], which clears the dirty flag;
    [new_page] evicts page 0 without writing it back; and the final
    [fetch_page(0)] returns a frame of zero bytes. *)
Lemma clean_unpin_run :
  reachable pool1
  /\ NewPage pool1 = Some (Some (0, 0), rt_s1)
  /\ WriteData 0 bytes_W rt_s1 = Some (tt, rt_s2)
  /\ UnpinPage 0 true rt_s2 = Some (true, rt_s3)
  /\ run_ops rt_clean_unpin rt_s3 = Some (tt, state_after rt_clean_unpin rt_s3)
  /\ page_table_ (state_after rt_clean_unpin rt_s3) !! 0 = None
  /\ FetchPage 0 (state_after rt_clean_unpin rt_s3)
     = Some (Some 0, state_after [OpFetchPage 0] (state_after rt_clean_unpin rt_s3))
  /\ page (state_after [OpFetchPage 0] (state_after rt_clean_unpin rt_s3)) 0
     = Some (mkPage zero_data 0 1 false)
  /\ zero_data <> bytes_W.
Proof.
  split; [apply reach_new; lia|].
  repeat (split; [vm_compute; reflexivity|]).
  intros H. vm_compute in H. discriminate.
Qed.

(** The calls of the middle part as the round trip is worded: any
    [new_page], [fetch_page] or [unpin_page]. *)
Definition middle_call (o : op) : Prop :=
  match o with
  | OpNewPage | OpFetchPage _ | OpUnpinPage _ _ => True
  | _ => False
  end.

(** The round trip as worded: after [new_page], the write of [B] and
    [unpin_page(p, true)], any middle part that leaves [p] evicted is
    followed by a [fetch_page(p)] whose frame, if any, has the bytes [B]. *)
Definition round_trip_as_worded : Prop :=
  forall s0 p f B s1 s2 b s3 (os : list op) s4 f' s5,
    reachable s0 ->
    NewPage s0 = Some (Some (p, f), s1) ->
    WriteData f B s1 = Some (tt, s2) ->
    UnpinPage p true s2 = Some (b, s3) ->
    Forall middle_call os ->
    run_ops os s3 = Some (tt, s4) ->
    page_table_ s4 !! p = None ->
    FetchPage p s4 = Some (Some f', s5) ->
    exists pg, page s5 f' = Some pg /\ data_ pg = B.

(** C4, as worded, fails: the run [clean_unpin_run] meets every condition
    of the round trip, and its final [fetch_page(0)] returns zero bytes
    instead of [bytes_W]. *)
Lemma round_trip_counterexample : ~ round_trip_as_worded.
Proof.
  intros Hclaim.
  destruct clean_unpin_run as (H0 & HN & HW & HU & Hrun & Hev & HF & Hpg & Hne).
  destruct (Hclaim pool1 0 0 bytes_W rt_s1 rt_s2 true rt_s3 rt_clean_unpin
              (state_after rt_clean_unpin rt_s3) 0
              (state_after [OpFetchPage 0] (state_after rt_clean_unpin rt_s3))
              H0 HN HW HU)
    as (pg & Hpg' & Hdata); try assumption.
  - repeat constructor.
  - rewrite Hpg in Hpg'. injection Hpg' as <-. apply Hne. exact Hdata.
Qed.

(** The state in which page id 0 was fetched, and dirtied by a second
    fetch, before [new_page] allocated it. *)
Definition early_fetch_state : BufferPoolManager :=
  state_after [OpFetchPage 0; OpFetchPage 0; OpUnpinPage 0 true; OpUnpinPage 0 true]
    pool2.

Definition ef_s1 : BufferPoolManager := state_after [OpNewPage] early_fetch_state.
Definition ef_s2 : BufferPoolManager := state_after [OpWriteData 1 bytes_W] ef_s1.
Definition ef_s3 : BufferPoolManager := state_after [OpUnpinPage 0 true] ef_s2.
Definition ef_middle : list op := [OpNewPage; OpNewPage; OpUnpinPage 1 false].

(** The round trip also fails when a frame already holds the id that
    [new_page] allocates, which is why [round_trip] asks for a start state
    without such a frame: [fetch_page(0)] on a new two-frame pool loads
    page 0 into frame 0 before any allocation; [new_page] then allocates
    id 0 in frame 1. Frame 1 is evicted first and written back, the stale
    frame 0 is evicted next and overwrites page 0 on disk, and the final
    [fetch_page(0)] returns zero bytes although every [unpin_page] of page 0
    passed [is_dirty = true]. *)
Lemma stale_frame_run :
  reachable early_fetch_state
  /\ NewPage early_fetch_state = Some (Some (0, 1), ef_s1)
  /\ WriteData 1 bytes_W ef_s1 = Some (tt, ef_s2)
  /\ UnpinPage 0 true ef_s2 = Some (true, ef_s3)
  /\ Forall (keeps_dirty 0) ef_middle
  /\ run_ops ef_middle ef_s3 = Some (tt, state_after ef_middle ef_s3)
  /\ FetchPage 0 (state_after ef_middle ef_s3)
     = Some (Some 1, state_after [OpFetchPage 0] (state_after ef_middle ef_s3))
  /\ page (state_after [OpFetchPage 0] (state_after ef_middle ef_s3)) 1
     = Some (mkPage zero_data 0 1 false)
  /\ zero_data <> bytes_W.
Proof.
  split.
  { apply (reachable_run_ops
             [OpFetchPage 0; OpFetchPage 0; OpUnpinPage 0 true; OpUnpinPage 0 true] pool2).
    - apply reach_new. lia.
    - vm_compute. reflexivity. }
  repeat (split; [vm_compute; reflexivity|]).
  split; [repeat constructor; discriminate|].
  repeat (split; [vm_compute; reflexivity|]).
  intros H. vm_compute in H. discriminate.
Qed.

End ConcreteRuns.

(** ** The persistent trie *)

Section TrieProperties.
Import TrieM.
Local Open Scope nat_scope.

Lemma Search_eq node key index :
  Search node key index =
  if Nat.eq_dec index (String.length key) then
    if is_value_node_ node then Some node else None
  else if le_lt_dec (String.length key) index then None
  else match children_ node !! char_at key index with
       | None => None
       | Some next_node => Search next_node key (index + 1)
       end.
Proof.
  rewrite Search_equation_1.
  destruct (Nat.eq_dec index (String.length key)); simpl; [reflexivity|].
  destruct (le_lt_dec (String.length key) index); simpl; [reflexivity|].
  destruct (children_ node !! char_at key index); reflexivity.
Qed.

Lemma Insert_eq node key index value :
  Insert node key index value =
  if Nat.eq_dec index (String.length key) then CopyCreateNewNode node true value
  else if le_lt_dec (String.length key) index then CopyCreateNewNode node false value
  else
    let child := Insert (child_at node (char_at key index)) key (index + 1) value in
    let new_node := CopyCreateNewNode node false value in
    mkTrieNode (<[char_at key index := child]> (children_ new_node)) (value_ new_node).
Proof.
  rewrite Insert_equation_1.
  destruct (Nat.eq_dec index (String.length key)); simpl; [reflexivity|].
  destruct (le_lt_dec (String.length key) index); reflexivity.
Qed.

Lemma RemoveRecursive_eq n key index :
  RemoveRecursive (Some n) key index =
  if Nat.eq_dec index (String.length key) then
    if decide (children_ n = ∅) then None
    else Some (mkTrieNode (children_ n) None)
  else if le_lt_dec (String.length key) index then Some n
  else
    match RemoveRecursive (children_ n !! char_at key index) key (index + 1) with
    | Some child =>
        Some (mkTrieNode (<[char_at key index := child]> (children_ n)) (value_ n))
    | None =>
        Some (mkTrieNode (delete (char_at key index) (children_ n)) (value_ n))
    end.
Proof.
  rewrite RemoveRecursive_equation_1.
  destruct (Nat.eq_dec index (String.length key)); simpl; [reflexivity|].
  destruct (le_lt_dec (String.length key) index); reflexivity.
Qed.

Lemma Search_Insert node key value :
  forall d index, String.length key - index = d -> index <= String.length key ->
  exists n, Search (Insert node key index value) key index = Some n
            /\ value_ n = Some value.
Proof.
  intros d. revert node. induction d as [|d IH]; intros node index Hd Hle.
  - rewrite Insert_eq, Search_eq.
    destruct (Nat.eq_dec index (String.length key)); [|lia].
    destruct node; simpl; eauto.
  - rewrite Insert_eq, Search_eq.
    destruct (Nat.eq_dec index (String.length key)); [lia|].
    destruct (le_lt_dec (String.length key) index); [lia|].
    cbn zeta. cbn [children_]. rewrite lookup_insert_eq.
    apply IH; lia.
Qed.

Lemma cast_value_same T (v : denote T) : cast_value T (existT T v) = Some v.
Proof.
  unfold cast_value. simpl. destruct (decide (T = T)) as [e|]; [|congruence].
  f_equal. symmetry.
  apply (Eqdep_dec.eq_rect_eq_dec ValueType_eq_dec).
Qed.

(** C9. For every trie [t], key [k] and value [v] of an instantiated type
    [T], [Get<T>] of [k] on [t.Put(k, v)] returns the value [v]. *)
Theorem Put_Get (T : ValueType) (t : Trie) (k : string) (v : denote T) :
  Get T (Put T t k v) k = Some v.
Proof.
  unfold Get, Put. cbn [root_].
  destruct (Search_Insert (root_ t) k (existT T v) (String.length k - 0) 0)
    as (n & Hs & Hv); [reflexivity | lia |].
  rewrite Hs. unfold is_value_node_. rewrite Hv. simpl.
  apply cast_value_same.
Qed.

Lemma Search_RemoveRecursive key :
  forall d node index, String.length key - index = d -> index <= String.length key ->
  match RemoveRecursive node key index with
  | None => True
  | Some n => Search n key index = None
  end.
Proof.
  induction d as [|d IH]; intros [node|] index Hd Hle;
    try (simp RemoveRecursive; exact I).
  - rewrite RemoveRecursive_eq.
    destruct (Nat.eq_dec index (String.length key)); [|lia].
    destruct (decide (children_ node = ∅)); [exact I|].
    rewrite Search_eq. destruct (Nat.eq_dec index (String.length key)); [|lia].
    reflexivity.
  - rewrite RemoveRecursive_eq.
    destruct (Nat.eq_dec index (String.length key)); [lia|].
    destruct (le_lt_dec (String.length key) index); [lia|].
    specialize (IH (children_ node !! char_at key index) (index + 1)).
    destruct (RemoveRecursive (children_ node !! char_at key index) key (index + 1))
      as [child|].
    + rewrite Search_eq.
      destruct (Nat.eq_dec index (String.length key)); [lia|].
      destruct (le_lt_dec (String.length key) index); [lia|].
      cbn [children_]. rewrite lookup_insert_eq. apply IH; lia.
    + rewrite Search_eq.
      destruct (Nat.eq_dec index (String.length key)); [lia|].
      destruct (le_lt_dec (String.length key) index); [lia|].
      cbn [children_]. rewrite lookup_delete_eq. reflexivity.
Qed.

End TrieProperties.

(** ** The trie in memory: [Remove] writes to new nodes only *)

Section TrieHeapProperties.
Import TrieHeap.
Local Open Scope nat_scope.

Implicit Types (h : gmap positive TrieNode) (a b : positive) (n : TrieNode).

(** Every pointer held by a node of [h] points to a node of [h], as
    [shared_ptr] guarantees. *)
Definition heap_closed h : Prop :=
  map_Forall (fun _ n => map_Forall (fun _ b => is_Some (h !! b)) (children_ n)) h.

(** The root of [t], if not null, points to a node of [h]. *)
Definition root_alive h (t : Trie) : Prop :=
  match root_ t with
  | Some a => is_Some (h !! a)
  | None => True
  end.

Lemma heap_closed_child h a n c b :
  heap_closed h -> h !! a = Some n -> children_ n !! c = Some b -> is_Some (h !! b).
Proof.
  intros Hc Ha Hb. exact (map_Forall_lookup_1 _ _ _ _ (map_Forall_lookup_1 _ _ _ _ Hc Ha) Hb).
Qed.

Lemma heap_Search_eq h a key index :
  Search h a key index =
  match h !! a with
  | None => None
  | Some n =>
      if Nat.eq_dec index (String.length key) then
        Some (if is_value_node_ n then Some a else None)
      else if le_lt_dec (String.length key) index then Some None
      else match children_ n !! TrieM.char_at key index with
           | None => Some None
           | Some next_node => Search h next_node key (index + 1)
           end
  end.
Proof.
  rewrite Search_equation_1. destruct (h !! a) as [n|]; simpl; [|reflexivity].
  destruct (Nat.eq_dec index (String.length key)); simpl; [reflexivity|].
  destruct (le_lt_dec (String.length key) index); simpl; [reflexivity|].
  destruct (children_ n !! TrieM.char_at key index); reflexivity.
Qed.

Lemma heap_RemoveRecursive_eq a key index h :
  RemoveRecursive (Some a) key index h =
  match h !! a with
  | None => None
  | Some n =>
      if Nat.eq_dec index (String.length key) then
        if decide (children_ n = ∅) then Some (None, h)
        else Some (Some (make_shared (mkTrieNode (children_ n) None) h).1,
                   (make_shared (mkTrieNode (children_ n) None) h).2)
      else if le_lt_dec (String.length key) index then Some (Some a, h)
      else match RemoveRecursive (children_ n !! TrieM.char_at key index)
                   key (index + 1) h with
           | None => None
           | Some (child, h1) =>
               clone_and_link a (TrieM.char_at key index) child h1
           end
  end.
Proof.
  rewrite RemoveRecursive_equation_1. destruct (h !! a) as [n|]; simpl; [|reflexivity].
  destruct (Nat.eq_dec index (String.length key)); simpl; [reflexivity|].
  destruct (le_lt_dec (String.length key) index); simpl; [reflexivity|].
  destruct (RemoveRecursive _ key (index + 1) h) as [[child h1]|]; reflexivity.
Qed.

(** A search that runs in [h] runs alike among more objects. *)
Lemma heap_Search_mono h h' key :
  h ⊆ h' ->
  forall d a index r, String.length key - index = d ->
    Search h a key index = Some r -> Search h' a key index = Some r.
Proof.
  intros Hsub. induction d as [|d IH]; intros a index r Hd;
    rewrite (heap_Search_eq h a), (heap_Search_eq h' a);
    (destruct (h !! a) as [n|] eqn:Ha; [|discriminate]);
    rewrite (lookup_weaken _ _ _ _ Ha Hsub);
    (destruct (Nat.eq_dec index (String.length key)); [intros H; exact H|]);
    (destruct (le_lt_dec (String.length key) index); [intros H; exact H|]);
    [lia|].
  destruct (children_ n !! TrieM.char_at key index) as [b|]; [|intros H; exact H].
  apply IH. lia.
Qed.

(** The node a search returns is a node of the heap. *)
Lemma heap_Search_found h key :
  forall d a index b, String.length key - index = d ->
    Search h a key index = Some (Some b) -> is_Some (h !! b).
Proof.
  induction d as [|d IH]; intros a index b Hd;
    rewrite (heap_Search_eq h a);
    (destruct (h !! a) as [n|] eqn:Ha; [|discriminate]);
    (destruct (Nat.eq_dec index (String.length key));
       [destruct (is_value_node_ n); [intros [= <-]; eauto | discriminate]|]);
    (destruct (le_lt_dec (String.length key) index); [discriminate|]);
    [lia|].
  destruct (children_ n !! TrieM.char_at key index) as [c|]; [|discriminate].
  apply IH. lia.
Qed.

(** In a closed heap a search from a node of the heap runs to its end. *)
Lemma heap_Search_total h key :
  heap_closed h ->
  forall d a index, String.length key - index = d -> is_Some (h !! a) ->
    is_Some (Search h a key index).
Proof.
  intros Hc. induction d as [|d IH]; intros a index Hd [n Ha];
    rewrite (heap_Search_eq h a), Ha;
    (destruct (Nat.eq_dec index (String.length key)); [eauto|]);
    (destruct (le_lt_dec (String.length key) index); [eauto|]);
    [lia|].
  destruct (children_ n !! TrieM.char_at key index) as [b|] eqn:Hb; [|eauto].
  apply IH; [lia|]. eapply heap_closed_child; eassumption.
Qed.

Lemma make_shared_fresh n h : h !! (make_shared n h).1 = None.
Proof. apply not_elem_of_dom. apply is_fresh. Qed.

Lemma make_shared_subseteq n h : h ⊆ (make_shared n h).2.
Proof. apply insert_subseteq. apply (make_shared_fresh n h). Qed.

(** A heap stays closed when a node is added or rewritten whose pointers
    point into it. *)
Lemma heap_closed_insert h a n :
  heap_closed h ->
  (forall c b, children_ n !! c = Some b -> is_Some (h !! b)) ->
  heap_closed (<[a := n]> h).
Proof.
  intros Hc Hn. assert (Hmono : forall b, is_Some (h !! b) -> is_Some (<[a := n]> h !! b)).
  { intros b [x Hx]. destruct (decide (a = b)) as [->|Hne].
    - rewrite lookup_insert_eq. eauto.
    - rewrite lookup_insert_ne by assumption. eauto. }
  apply map_Forall_insert_2.
  - intros c b Hb. apply Hmono. eapply Hn. eassumption.
  - intros a' n' Ha' c b Hb. apply Hmono. eapply heap_closed_child; eassumption.
Qed.

(** The node [clone_and_link] returns is a new object: the clone of [node]
    with the link for [c] set or erased. Nothing else is written. *)
Lemma clone_and_link_run h a n c (child : option positive) :
  h !! a = Some n ->
  exists new_node,
    h !! new_node = None
    /\ clone_and_link a c child h
       = Some (Some new_node,
               <[new_node := mkTrieNode
                               match child with
                               | Some ch => <[c := ch]> (children_ n)
                               | None => delete c (children_ n)
                               end (value_ n)]> h).
Proof.
  intros Ha. exists (make_shared n h).1. split; [apply make_shared_fresh|].
  unfold clone_and_link. rewrite Ha. cbn zeta.
  unfold make_shared. cbn [fst snd].
  destruct child as [ch|]; unfold set_child, erase_child;
    rewrite lookup_insert_eq, insert_insert_eq; reflexivity.
Qed.

(** [RemoveRecursive] in a closed heap runs to its end, writes to new
    objects only, and returns null or a node under which the key leads to
    no value. *)
Lemma heap_RemoveRecursive_run key :
  forall d (node : option positive) index h,
    String.length key - index = d -> index <= String.length key ->
    heap_closed h ->
    (forall a, node = Some a -> is_Some (h !! a)) ->
    exists res h',
      RemoveRecursive node key index h = Some (res, h')
      /\ h ⊆ h' /\ heap_closed h'
      /\ forall a', res = Some a' ->
           is_Some (h' !! a') /\ Search h' a' key index = Some None.
Proof.
  induction d as [|d IH]; intros [a|] index h Hd Hle Hc Hnode;
    try (exists None, h; rewrite RemoveRecursive_equation_2;
         split; [reflexivity|]; split; [reflexivity|]; split; [assumption|];
         discriminate).
  - destruct (Hnode a eq_refl) as [n Ha].
    rewrite heap_RemoveRecursive_eq, Ha.
    destruct (Nat.eq_dec index (String.length key)); [|lia].
    destruct (decide (children_ n = ∅)).
    + exists None, h. split; [reflexivity|]. split; [reflexivity|].
      split; [assumption|]. discriminate.
    + eexists _, _. split; [reflexivity|].
      pose proof (make_shared_fresh (mkTrieNode (children_ n) None) h) as Hfresh.
      unfold make_shared in *. cbn [fst snd] in *.
      split; [apply insert_subseteq; assumption|]. split.
      { apply heap_closed_insert; [assumption|]. cbn [children_].
        intros c b Hb. eapply heap_closed_child; eassumption. }
      intros a' [= <-]. rewrite lookup_insert_eq. split; [eauto|].
      rewrite heap_Search_eq, lookup_insert_eq.
      destruct (Nat.eq_dec index (String.length key)); [reflexivity | lia].
  - destruct (Hnode a eq_refl) as [n Ha].
    rewrite heap_RemoveRecursive_eq, Ha.
    destruct (Nat.eq_dec index (String.length key)); [lia|].
    destruct (le_lt_dec (String.length key) index); [lia|].
    destruct (IH (children_ n !! TrieM.char_at key index) (index + 1) h)
      as (child & h1 & HR & Hsub1 & Hc1 & Hchild); [lia | lia | assumption | |].
    { intros b Hb. eapply heap_closed_child; eassumption. }
    rewrite HR.
    pose proof (lookup_weaken _ _ _ _ Ha Hsub1) as Ha1.
    destruct (clone_and_link_run h1 a n (TrieM.char_at key index) child Ha1)
      as (new_node & Hfresh & Hrun).
    rewrite Hrun. eexists _, _. split; [reflexivity|].
    assert (Hsub2 : h1 ⊆ <[new_node := mkTrieNode
                             match child with
                             | Some ch => <[TrieM.char_at key index := ch]> (children_ n)
                             | None => delete (TrieM.char_at key index) (children_ n)
                             end (value_ n)]> h1)
      by (apply insert_subseteq; assumption).
    split; [etransitivity; eassumption|]. split.
    { apply heap_closed_insert; [assumption|]. cbn [children_].
      intros c b Hb. destruct child as [ch|].
      - apply lookup_insert_Some in Hb as [[_ <-]|[_ Hb]].
        + apply (Hchild ch eq_refl).
        + eapply heap_closed_child; eassumption.
      - apply lookup_delete_Some in Hb as [_ Hb].
        eapply heap_closed_child; eassumption. }
    intros a' [= <-]. rewrite lookup_insert_eq. split; [eauto|].
    rewrite heap_Search_eq, lookup_insert_eq.
    destruct (Nat.eq_dec index (String.length key)); [lia|].
    destruct (le_lt_dec (String.length key) index); [lia|].
    cbn [children_]. destruct child as [ch|].
    + rewrite lookup_insert_eq.
      apply (heap_Search_mono h1 _ key Hsub2 (String.length key - (index + 1)));
        [reflexivity|]. apply (Hchild ch eq_refl).
    + rewrite lookup_delete_eq. reflexivity.
Qed.

(** C10. [Remove] on a trie in memory runs to its end and returns a trie on
    which [Get<T>] of the removed key returns [nullptr], for every
    instantiated type [T]. It writes to new nodes only: every node object
    alive before the call is alive after it with the same children and the
    same value, so the trie [t] it was called on is unchanged, and [Get] on
    [t], for every key and type, returns after the call what it returned
    before. *)
Theorem Remove_Get (h : gmap positive TrieNode) (t : Trie) (k : string) :
  heap_closed h -> root_alive h t ->
  exists t' h',
    Remove t k h = Some (t', h')
    /\ (forall T, Get T t' k h' = Some None)
    /\ (forall a n, h !! a = Some n -> h' !! a = Some n)
    /\ (forall T' k', Get T' t k' h' = Get T' t k' h)
    /\ heap_closed h' /\ root_alive h' t'.
Proof.
  intros Hc Hroot.
  destruct (heap_RemoveRecursive_run k (String.length k - 0) (root_ t) 0 h)
    as (res & h' & HR & Hsub & Hc' & Hres); [reflexivity | lia | assumption | |].
  { intros a Ha. unfold root_alive in Hroot. rewrite Ha in Hroot. exact Hroot. }
  exists (mkTrie res), h'. unfold Remove. rewrite HR.
  split; [reflexivity|]. split.
  { intros T. unfold Get. cbn [root_]. destruct res as [a'|]; [|reflexivity].
    destruct (Hres a' eq_refl) as [_ HS]. rewrite HS. reflexivity. }
  split; [intros a n Ha; exact (lookup_weaken _ _ _ _ Ha Hsub)|]. split.
  { intros T' k'. unfold Get. destruct (root_ t) as [a|] eqn:Hr; [|reflexivity].
    assert (Ha : is_Some (h !! a)) by (unfold root_alive in Hroot; rewrite Hr in Hroot; exact Hroot).
    destruct (heap_Search_total h k' Hc (String.length k' - 0) a 0 eq_refl Ha) as [r Hs].
    rewrite Hs.
    rewrite (heap_Search_mono h h' k' Hsub (String.length k' - 0) a 0 r eq_refl Hs).
    destruct r as [b|]; [|reflexivity].
    destruct (heap_Search_found h k' (String.length k' - 0) a 0 b eq_refl Hs) as [nb Hb].
    rewrite Hb, (lookup_weaken _ _ _ _ Hb Hsub). reflexivity. }
  split; [assumption|].
  unfold root_alive. cbn [root_]. destruct res as [a'|]; [|exact I].
  apply (Hres a' eq_refl).
Qed.

End TrieHeapProperties.

Section TrieHeapRuns.
Import TrieHeap.
Local Open Scope nat_scope.

(** A trie in memory with the keys "a" (value 7) and "ab" (value 8), both
    [uint32_t]: the root at address 1, the node of "a" at 2, of "ab" at 3. *)
Definition ab_heap : gmap positive TrieNode :=
  {[ 1%positive := mkTrieNode {[ "a"%char := 2%positive ]} None;
     2%positive := mkTrieNode {[ "b"%char := 3%positive ]}
                     (Some (existT TrieM.T_uint32 7%Z));
     3%positive := mkTrieNode ∅ (Some (existT TrieM.T_uint32 8%Z)) ]}.

Definition ab_trie : Trie := mkTrie (Some 1%positive).

Lemma Remove_Get_witness :
  exists t' h',
    Remove ab_trie "ab" ab_heap = Some (t', h')
    /\ (forall T, Get T t' "ab" h' = Some None)
    /\ (forall a n, ab_heap !! a = Some n -> h' !! a = Some n)
    /\ (forall T' k', Get T' ab_trie k' h' = Get T' ab_trie k' ab_heap)
    /\ heap_closed h' /\ root_alive h' t'.
Proof.
  apply (Remove_Get ab_heap ab_trie "ab").
  - unfold heap_closed. apply (bool_decide_unpack _). vm_compute. exact I.
  - vm_compute. eexists. reflexivity.
Defined.

(** The run on [ab_heap]: [Remove("ab")] clones the root and the node of
    "a" into new objects; the new trie has lost "ab" and kept "a", and the
    trie it was made from still holds both. *)
Lemma Remove_ab_trie :
  exists t' h',
    Remove ab_trie "ab" ab_heap = Some (t', h')
    /\ root_ t' <> root_ ab_trie
    /\ Get TrieM.T_uint32 t' "ab" h' = Some None
    /\ Get TrieM.T_uint32 t' "a" h' = Some (Some 7%Z)
    /\ Get TrieM.T_uint32 ab_trie "ab" h' = Some (Some 8%Z)
    /\ Get TrieM.T_uint32 ab_trie "a" h' = Some (Some 7%Z).
Proof.
  eexists _, _. split; [vm_compute; reflexivity|].
  split; [discriminate|]. repeat split; vm_compute; reflexivity.
Qed.

End TrieHeapRuns.

(** * Further properties *)

(** ** The trie: keys other than the one written *)

Section TrieOtherKeys.
Import TrieM.
Local Open Scope nat_scope.

(** Two keys of the same length with the same character at every index are
    the same key. *)
Lemma string_eq_char_at (k k' : string) :
  String.length k = String.length k' ->
  (forall j, j < String.length k -> char_at k j = char_at k' j) ->
  k = k'.
Proof.
  revert k'. induction k as [|a k IH]; intros [|a' k'] Hlen Hch;
    try discriminate; [reflexivity|].
  cbn in Hlen. f_equal.
  - apply (Hch 0). cbn. lia.
  - apply IH; [lia|]. intros j Hj. apply (Hch (S j)). cbn. lia.
Qed.

(** [differ_from k k' i]: the keys [k] and [k'] differ at or after index [i]. *)
Definition differ_from (k k' : string) (i : nat) : Prop :=
  ~ (String.length k = String.length k'
     /\ forall j, i <= j -> j < String.length k -> char_at k j = char_at k' j).

Lemma differ_from_0 (k k' : string) : k <> k' -> differ_from k k' 0.
Proof.
  intros Hne [Hlen Hch]. apply Hne. apply string_eq_char_at; [assumption|].
  intros j Hj. apply Hch; [lia | assumption].
Qed.

Lemma differ_from_S (k k' : string) (i : nat) :
  differ_from k k' i -> char_at k i = char_at k' i -> differ_from k k' (S i).
Proof.
  intros Hd Hc [Hlen Hch]. apply Hd. split; [assumption|].
  intros j Hij Hj. destruct (Nat.eq_dec i j) as [<-|Hne]; [assumption|].
  apply Hch; [lia | assumption].
Qed.

(** The value [Get] reads at the end of a walk from a possibly null node. *)
Definition value_at (node : option TrieNode) (key : string) (index : nat)
    : option TrieValue :=
  match node with
  | None => None
  | Some n =>
      match Search n key index with
      | None => None
      | Some found => value_ found
      end
  end.

Lemma value_at_eq (n : TrieNode) (key : string) (index : nat) :
  value_at (Some n) key index =
  if Nat.eq_dec index (String.length key) then value_ n
  else if le_lt_dec (String.length key) index then None
  else value_at (children_ n !! char_at key index) key (index + 1).
Proof.
  unfold value_at. rewrite Search_eq.
  destruct (Nat.eq_dec index (String.length key)).
  - unfold is_value_node_. destruct (value_ n) eqn:E; [exact E | reflexivity].
  - destruct (le_lt_dec (String.length key) index); [reflexivity|].
    destruct (children_ n !! char_at key index); reflexivity.
Qed.

Lemma Get_value_at (T : ValueType) (t : Trie) (key : string) :
  Get T t key = value_at (root_ t) key 0 ≫= cast_value T.
Proof.
  unfold Get, value_at. destruct (root_ t) as [root|]; [|reflexivity].
  destruct (Search root key 0) as [node|] eqn:E; [|reflexivity].
  unfold is_value_node_. destruct (value_ node); reflexivity.
Qed.

Lemma value_at_Insert_other (key key' : string) (value : TrieValue) :
  forall d index node,
    String.length key - index = d -> index <= String.length key ->
    differ_from key key' index ->
    value_at (Some (Insert node key index value)) key' index
    = value_at node key' index.
Proof.
  induction d as [|d IH]; intros index node Hd Hle Hdiff.
  - rewrite Insert_eq. destruct (Nat.eq_dec index (String.length key)); [|lia].
    rewrite value_at_eq.
    destruct (Nat.eq_dec index (String.length key')) as [Heq|Hne].
    { exfalso. apply Hdiff. split; [lia|]. intros j ? ?. lia. }
    destruct node as [nd|]; cbn [CopyCreateNewNode children_].
    + rewrite (value_at_eq nd). destruct (Nat.eq_dec index (String.length key')); [lia|].
      reflexivity.
    + rewrite lookup_empty. destruct (le_lt_dec _ _); reflexivity.
  - rewrite Insert_eq. destruct (Nat.eq_dec index (String.length key)); [lia|].
    destruct (le_lt_dec (String.length key) index); [lia|]. cbn zeta.
    rewrite value_at_eq. cbn [children_ value_].
    assert (Hstep : value_at
              (<[char_at key index := Insert (child_at node (char_at key index)) key (index + 1) value]>
                 (children_ (CopyCreateNewNode node false value)) !! char_at key' index)
              key' (index + 1)
            = value_at (child_at node (char_at key' index)) key' (index + 1)).
    { destruct (decide (char_at key index = char_at key' index)) as [Hc|Hc].
      - rewrite <- Hc, lookup_insert_eq.
        apply IH; [lia | lia |].
        replace (index + 1) with (S index) by lia. apply differ_from_S; assumption.
      - rewrite lookup_insert_ne by assumption.
        destruct node as [nd|]; cbn [CopyCreateNewNode children_ child_at];
          [reflexivity | rewrite lookup_empty; reflexivity]. }
    rewrite Hstep.
    destruct node as [nd|]; cbn [CopyCreateNewNode value_ child_at].
    + rewrite (value_at_eq nd). reflexivity.
    + destruct (Nat.eq_dec _ _); [reflexivity|]. destruct (le_lt_dec _ _); reflexivity.
Qed.

Lemma value_at_Remove_other (key key' : string) :
  forall d index node,
    String.length key - index = d -> index <= String.length key ->
    differ_from key key' index ->
    value_at (RemoveRecursive node key index) key' index
    = value_at node key' index.
Proof.
  induction d as [|d IH]; intros index [nd|] Hd Hle Hdiff;
    try (simp RemoveRecursive; reflexivity).
  - rewrite RemoveRecursive_eq.
    destruct (Nat.eq_dec index (String.length key)); [|lia].
    assert (Hne : index <> String.length key').
    { intros Heq. apply Hdiff. split; [lia|]. intros j ? ?. lia. }
    rewrite (value_at_eq nd). destruct (Nat.eq_dec index (String.length key')); [lia|].
    destruct (decide (children_ nd = ∅)) as [He|He].
    + rewrite He, lookup_empty. destruct (le_lt_dec _ _); reflexivity.
    + rewrite value_at_eq. destruct (Nat.eq_dec index (String.length key')); [lia|].
      reflexivity.
  - rewrite RemoveRecursive_eq.
    destruct (Nat.eq_dec index (String.length key)); [lia|].
    destruct (le_lt_dec (String.length key) index); [lia|].
    rewrite (value_at_eq nd).
    specialize (IH (index + 1) (children_ nd !! char_at key index)).
    destruct (RemoveRecursive (children_ nd !! char_at key index) key (index + 1))
      as [child|] eqn:ER; rewrite value_at_eq; cbn [children_ value_];
      destruct (Nat.eq_dec index (String.length key')); try reflexivity;
      destruct (le_lt_dec (String.length key') index); try reflexivity.
    + destruct (decide (char_at key index = char_at key' index)) as [Hc|Hc].
      * rewrite <- Hc, lookup_insert_eq. apply IH; [lia | lia |].
        replace (index + 1) with (S index) by lia. apply differ_from_S; assumption.
      * rewrite lookup_insert_ne by assumption. reflexivity.
    + destruct (decide (char_at key index = char_at key' index)) as [Hc|Hc].
      * rewrite <- Hc, lookup_delete_eq. symmetry.
        rewrite <- IH; [reflexivity | lia | lia |].
        replace (index + 1) with (S index) by lia. apply differ_from_S; assumption.
      * rewrite lookup_delete_ne by assumption. reflexivity.
Qed.

(** X1. [Put] writes one key only: on the trie [t.Put(k, v)], [Get] of any
    other key, at any value type, returns what it returns on [t]. *)
Theorem Put_Get_other (T T' : ValueType) (t : Trie) (k k' : string) (v : denote T) :
  k <> k' -> Get T' (Put T t k v) k' = Get T' t k'.
Proof.
  intros Hne. rewrite !Get_value_at. unfold Put. cbn [root_].
  rewrite (value_at_Insert_other k k' (existT T v) (String.length k - 0) 0);
    [reflexivity | reflexivity | lia | apply differ_from_0; assumption].
Qed.

Lemma Put_Get_other_witness :
  Get T_uint32 (Put T_string (Put T_uint32 (mkTrie None) "ab" 7%Z) "a" "x"%string) "ab"
  = Get T_uint32 (Put T_uint32 (mkTrie None) "ab" 7%Z) "ab".
Proof. apply Put_Get_other. discriminate. Defined.

(** X2. [Remove] removes one key only: on the trie [t.Remove(k)], [Get] of
    any other key, at any value type, returns what it returns on [t]. *)
Theorem Remove_Get_other (T' : ValueType) (t : Trie) (k k' : string) :
  k <> k' -> Get T' (Remove t k) k' = Get T' t k'.
Proof.
  intros Hne. rewrite !Get_value_at. unfold Remove. cbn [root_].
  rewrite (value_at_Remove_other k k' (String.length k - 0) 0);
    [reflexivity | reflexivity | lia | apply differ_from_0; assumption].
Qed.

Lemma Remove_Get_other_witness :
  Get T_uint32 (Remove (Put T_uint32 (mkTrie None) "ab" 7%Z) "a") "ab"
  = Get T_uint32 (Put T_uint32 (mkTrie None) "ab" 7%Z) "ab".
Proof. apply Remove_Get_other. discriminate. Defined.

Lemma Get_Put_same (T T' : ValueType) (t : Trie) (k : string) (v : denote T) :
  Get T' (Put T t k v) k = cast_value T' (existT T v).
Proof.
  unfold Get, Put. cbn [root_].
  destruct (Search_Insert (root_ t) k (existT T v) (String.length k - 0) 0)
    as (n & Hs & Hv); [reflexivity | lia |].
  rewrite Hs. unfold is_value_node_. rewrite Hv. reflexivity.
Qed.

Lemma Get_Remove_same (T' : ValueType) (t : Trie) (k : string) :
  Get T' (Remove t k) k = None.
Proof.
  unfold Get, Remove. cbn [root_].
  pose proof (Search_RemoveRecursive k (String.length k - 0) (root_ t) 0 eq_refl) as H.
  destruct (RemoveRecursive (root_ t) k 0) as [n|]; [|reflexivity].
  rewrite H by lia. reflexivity.
Qed.

(** X3. A value is read back at the type it was written with only: after
    [Put<T>(k, v)], [Get<T'>(k)] for another instantiated type [T'] returns
    [nullptr] (the [dynamic_cast] fails). *)
Theorem Put_Get_type_mismatch (T T' : ValueType) (t : Trie) (k : string)
    (v : denote T) :
  T <> T' -> Get T' (Put T t k v) k = None.
Proof.
  intros Hne. rewrite Get_Put_same. unfold cast_value. cbn [projT1].
  destruct (decide (T = T')); [contradiction | reflexivity].
Qed.

Lemma Put_Get_type_mismatch_witness :
  Get T_uint64 (Put T_uint32 (mkTrie None) "k" 1%Z) "k" = None.
Proof. apply Put_Get_type_mismatch. discriminate. Defined.

(** X4. The last [Put] of a key wins and the earlier one leaves no trace:
    [t.Put(k, v1).Put(k, v2)] and [t.Put(k, v2)] answer every [Get] alike,
    also when [v1] and [v2] have different types. *)
Theorem Put_Put (T1 T2 T' : ValueType) (t : Trie) (k k' : string)
    (v1 : denote T1) (v2 : denote T2) :
  Get T' (Put T2 (Put T1 t k v1) k v2) k' = Get T' (Put T2 t k v2) k'.
Proof.
  destruct (decide (k = k')) as [<-|Hne].
  - rewrite !Get_Put_same. reflexivity.
  - rewrite !Get_value_at. unfold Put. cbn [root_].
    rewrite !(value_at_Insert_other k k' (existT T2 v2) (String.length k - 0) 0)
      by (first [reflexivity | lia | apply differ_from_0; assumption]).
    rewrite (value_at_Insert_other k k' (existT T1 v1) (String.length k - 0) 0)
      by (first [reflexivity | lia | apply differ_from_0; assumption]).
    reflexivity.
Qed.

(** X5. [Remove] undoes a [Put] of the same key: [t.Put(k, v).Remove(k)] and
    [t.Remove(k)] answer every [Get] alike. *)
Theorem Put_Remove (T T' : ValueType) (t : Trie) (k k' : string) (v : denote T) :
  Get T' (Remove (Put T t k v) k) k' = Get T' (Remove t k) k'.
Proof.
  destruct (decide (k = k')) as [<-|Hne].
  - rewrite !Get_Remove_same. reflexivity.
  - rewrite !Get_value_at. unfold Remove, Put. cbn [root_].
    rewrite !(value_at_Remove_other k k' (String.length k - 0) 0)
      by (first [reflexivity | lia | apply differ_from_0; assumption]).
    rewrite (value_at_Insert_other k k' (existT T v) (String.length k - 0) 0)
      by (first [reflexivity | lia | apply differ_from_0; assumption]).
    reflexivity.
Qed.

(** X21. [Remove] prunes the node of the removed key only, not the path to
    it: putting a non-empty key into the empty trie and removing it again
    leaves a trie whose root is not null (a node without a value), although
    every [Get] on it returns [nullptr]. *)
Theorem Remove_keeps_emptied_path (T : ValueType) (k : string) (v : denote T) :
  k <> ""%string ->
  (exists n, root_ (Remove (Put T (mkTrie None) k v) k) = Some n /\ value_ n = None)
  /\ forall (T' : ValueType) (k' : string),
       Get T' (Remove (Put T (mkTrie None) k v) k) k' = None.
Proof.
  intros Hk. split.
  - unfold Remove, Put. cbn [root_].
    assert (Hlen : 0 < String.length k) by (destruct k; [congruence | cbn; lia]).
    rewrite RemoveRecursive_eq.
    destruct (Nat.eq_dec 0 (String.length k)); [lia|].
    destruct (le_lt_dec (String.length k) 0); [lia|].
    assert (Hv : value_ (Insert None k 0 (existT T v)) = None).
    { rewrite Insert_eq.
      destruct (Nat.eq_dec 0 (String.length k)); [lia|].
      destruct (le_lt_dec (String.length k) 0); [lia|]. reflexivity. }
    destruct (RemoveRecursive _ k (0 + 1)); eexists; (split; [reflexivity|]); exact Hv.
  - intros T' k'. destruct (decide (k = k')) as [<-|Hne].
    + apply Get_Remove_same.
    + rewrite Get_value_at. unfold Remove, Put. cbn [root_].
      rewrite (value_at_Remove_other k k' (String.length k - 0) 0)
        by (first [reflexivity | lia | apply differ_from_0; assumption]).
      rewrite (value_at_Insert_other k k' (existT T v) (String.length k - 0) 0)
        by (first [reflexivity | lia | apply differ_from_0; assumption]).
      reflexivity.
Qed.

Lemma Remove_keeps_emptied_path_witness :
  (exists n, root_ (Remove (Put T_uint32 (mkTrie None) "ab" 7%Z) "ab") = Some n
             /\ value_ n = None)
  /\ forall (T' : ValueType) (k' : string),
       Get T' (Remove (Put T_uint32 (mkTrie None) "ab" 7%Z) "ab") k' = None.
Proof. apply Remove_keeps_emptied_path. discriminate. Defined.

End TrieOtherKeys.

(** ** The replacer's bookkeeping *)

Section ReplacerBookkeeping.
Import Replacer.

Implicit Types (r : LRUKReplacer) (n : LRUKNode) (f g : Z).

Definition flag_count (b : bool) : Z := if b then 1 else 0.

Lemma find_node_Remove r f g :
  NoDup (node_store_ r).*1 ->
  find_node (Remove f r) g = if Z.eqb f g then None else find_node r g.
Proof.
  intros Hnd. unfold find_node, Remove.
  destruct (store_find f (node_store_ r)) as [n|] eqn:E.
  - cbn [node_store_]. apply store_find_erase. assumption.
  - destruct (Z.eqb_spec f g) as [<-|]; [assumption | reflexivity].
Qed.

(** X6. In every state the replacer reaches, [Size()] is the number of nodes
    whose evictable flag is set: the [size_t] counter never wraps around and
    never exceeds the number of tracked frames. *)
Theorem Size_counts_evictable r :
  replacer_reachable r ->
  Size r = count_evictable (node_store_ r)
  /\ 0 <= Size r <= Z.of_nat (List.length (node_store_ r))
  /\ (0 < Size r <-> exists f, evictable r f).
Proof.
  intros (Hnd & Hfid & Hsz & Hlen)%replacer_reachable_wf. unfold Size.
  pose proof (count_evictable_bounds (node_store_ r)) as Hb.
  split; [assumption|]. split; [lia|].
  rewrite Hsz, count_evictable_pos. split.
  - intros ([k n] & Hin & Hev). exists k, n. split; [|exact Hev].
    apply elem_store_find; assumption.
  - intros (f & n & Hfind & Hev). exists (f, n). split; [|exact Hev].
    apply store_find_elem. exact Hfind.
Qed.

Lemma Size_counts_evictable_witness :
  Size tie_state = count_evictable (node_store_ tie_state)
  /\ 0 <= Size tie_state <= Z.of_nat (List.length (node_store_ tie_state))
  /\ (0 < Size tie_state <-> exists f, evictable tie_state f).
Proof. apply (Size_counts_evictable tie_state). exact tie_state_reachable. Defined.

(** X7. [SetEvictable(f, b)] in a reachable state: the node of frame [f], if
    there is one, gets the flag [b] and nothing else of it changes; the other
    nodes are untouched; and [Size()] moves by exactly the change of that one
    flag (by nothing for an unknown frame or an unchanged flag). *)
Theorem SetEvictable_effect r f (b : bool) :
  replacer_reachable r ->
  find_node (SetEvictable f b r) f = set_flag b <$> find_node r f
  /\ (forall g, g <> f -> find_node (SetEvictable f b r) g = find_node r g)
  /\ Size (SetEvictable f b r)
     = Size r + match find_node r f with
                | Some n => flag_count b - flag_count (is_evictable_ n)
                | None => 0
                end.
Proof.
  intros Hr. pose proof (replacer_reachable_wf r Hr) as Hwf.
  pose proof (SetEvictable_wf r f b Hwf) as Hwf'.
  split; [|split].
  - rewrite find_node_SetEvictable, Z.eqb_refl. reflexivity.
  - intros g Hg. rewrite find_node_SetEvictable.
    destruct (Z.eqb_spec f g); [congruence | reflexivity].
  - destruct Hwf as (_ & _ & Hsz & _). destruct Hwf' as (_ & _ & Hsz' & _).
    unfold Size. rewrite Hsz, Hsz'. unfold SetEvictable, find_node.
    destruct (store_find f (node_store_ r)) as [n|] eqn:E; [|lia].
    destruct (Bool.eqb_spec (is_evictable_ n) b) as [<-|Hne]; [lia|].
    cbn [node_store_]. rewrite (count_evictable_update _ _ _ _ E).
    cbn [set_flag is_evictable_]. unfold flag_count. lia.
Qed.

Lemma SetEvictable_effect_witness :
  find_node (SetEvictable 0 false tie_state) 0 = set_flag false <$> find_node tie_state 0
  /\ (forall g, g <> 0 ->
        find_node (SetEvictable 0 false tie_state) g = find_node tie_state g)
  /\ Size (SetEvictable 0 false tie_state)
     = Size tie_state + match find_node tie_state 0 with
                        | Some n => flag_count false - flag_count (is_evictable_ n)
                        | None => 0
                        end.
Proof. apply (SetEvictable_effect tie_state 0 false). exact tie_state_reachable. Defined.

(** X8. [Remove(f)] in a reachable state: frame [f] has no node afterwards,
    whether or not it was evictable; the other nodes are untouched; [Size()]
    drops by one exactly when the removed node was evictable, and a frame
    without a node changes nothing. *)
Theorem Remove_effect r f :
  replacer_reachable r ->
  find_node (Remove f r) f = None
  /\ (forall g, g <> f -> find_node (Remove f r) g = find_node r g)
  /\ Size (Remove f r)
     = Size r - match find_node r f with
                | Some n => flag_count (is_evictable_ n)
                | None => 0
                end
  /\ (find_node r f = None -> Remove f r = r).
Proof.
  intros Hr. pose proof (replacer_reachable_wf r Hr) as Hwf.
  pose proof (replacer_reachable_wf _ (rreach_Remove r f Hr)) as Hwf'.
  pose proof Hwf as (Hnd & _ & Hsz & _). destruct Hwf' as (_ & _ & Hsz' & _).
  split; [|split; [|split]].
  - rewrite find_node_Remove by assumption. rewrite Z.eqb_refl. reflexivity.
  - intros g Hg. rewrite find_node_Remove by assumption.
    destruct (Z.eqb_spec f g); [congruence | reflexivity].
  - unfold Size. rewrite Hsz, Hsz'. unfold Remove, find_node.
    destruct (store_find f (node_store_ r)) as [n|] eqn:E; [|lia].
    cbn [node_store_]. rewrite (count_evictable_erase _ _ _ E).
    unfold flag_count. lia.
  - unfold find_node, Remove. intros ->. reflexivity.
Qed.

Lemma Remove_effect_witness :
  find_node (Remove 1 tie_state) 1 = None
  /\ (forall g, g <> 1 -> find_node (Remove 1 tie_state) g = find_node tie_state g)
  /\ Size (Remove 1 tie_state)
     = Size tie_state - match find_node tie_state 1 with
                        | Some n => flag_count (is_evictable_ n)
                        | None => 0
                        end
  /\ (find_node tie_state 1 = None -> Remove 1 tie_state = tie_state).
Proof. apply (Remove_effect tie_state 1). exact tie_state_reachable. Defined.

(** X9. [RecordAccess(f)] for [0 <= f <= replacer_size_] never aborts in a
    reachable state; afterwards frame [f] has a node, exactly the frames
    that were evictable are evictable, the nodes of the other frames are
    untouched, and [Size()] is unchanged. *)
Theorem RecordAccess_effect r f :
  replacer_reachable r -> 0 <= f <= replacer_size_ r ->
  exists r',
    RecordAccess f r = Some r'
    /\ has_node r' f
    /\ (forall g, evictable r' g <-> evictable r g)
    /\ (forall g, g <> f -> find_node r' g = find_node r g)
    /\ Size r' = Size r.
Proof.
  intros Hr Hf.
  destruct (RecordAccess_runB _ _ r f (replacer_reachable_RInvB r Hr))
    as (r' & HR & _ & Hhas & _ & Hev); [lia | lia |].
  exists r'. split; [assumption|]. split; [assumption|]. split; [assumption|].
  unfold RecordAccess, GetCurrentTimeStamp in HR.
  cbn [curr_size_ node_store_ current_timestamp_ replacer_size_ rk_] in HR.
  destruct ((0 <=? f) && (f <=? replacer_size_ r)); [|discriminate].
  destruct (store_find f (node_store_ r)) as [n|] eqn:E; injection HR as <-;
    (split; [|reflexivity]); intros g Hg; unfold find_node; cbn [node_store_].
  - rewrite store_find_update. destruct (Z.eqb_spec f g); [congruence | reflexivity].
  - rewrite store_find_app. destruct (store_find g (node_store_ r)); [reflexivity|].
    destruct (Z.eqb_spec f g); [congruence | reflexivity].
Qed.

Lemma RecordAccess_effect_witness :
  exists r',
    RecordAccess 1 tie_state = Some r'
    /\ has_node r' 1
    /\ (forall g, evictable r' g <-> evictable tie_state g)
    /\ (forall g, g <> 1 -> find_node r' g = find_node tie_state g)
    /\ Size r' = Size tie_state.
Proof.
  apply (RecordAccess_effect tie_state 1); [exact tie_state_reachable|].
  cbn. lia.
Defined.

(** X24. [Evict] in a reachable state never aborts. It returns false
    exactly when [Size()] is 0, and then changes no node; otherwise the
    frame it returns was evictable, its node is erased (its access history
    is forgotten), no other node changes, and [Size()] drops by exactly
    one. *)
Theorem Evict_effect r :
  replacer_reachable r ->
  exists res r',
    Evict r = Some (res, r')
    /\ (res = None <-> Size r = 0)
    /\ Size r' = Size r - match res with Some _ => 1 | None => 0 end
    /\ (res = None -> node_store_ r' = node_store_ r)
    /\ (forall f, res = Some f ->
          evictable r f /\ find_node r' f = None
          /\ forall g, g <> f -> find_node r' g = find_node r g).
Proof.
  intros Hwf%replacer_reachable_wf. pose proof Hwf as (Hnd & _ & Hsz & _).
  pose proof (count_evictable_bounds (node_store_ r)) as Hb.
  destruct (Z.eq_dec (count_evictable (node_store_ r)) 0) as [Hz|Hnz].
  - exists None, (tick r). split; [apply Evict_nothing; assumption|].
    unfold Size. split; [split; [intros _; lia | reflexivity]|].
    split; [cbn; lia|]. split; [reflexivity | discriminate].
  - destruct (Evict_selects r Hwf) as (fid & n & HE & Hfind & Hev & _); [lia|].
    eexists (Some fid), _. split; [exact HE|].
    unfold Size. cbn [curr_size_ node_store_].
    split; [split; [discriminate | lia]|]. split; [reflexivity|].
    split; [discriminate|]. intros f [= <-].
    split; [exists n; split; assumption|]. unfold find_node. cbn [node_store_].
    split.
    + rewrite store_find_erase by assumption. rewrite Z.eqb_refl. reflexivity.
    + intros g Hg. rewrite store_find_erase by assumption.
      destruct (Z.eqb_spec fid g); [congruence | reflexivity].
Qed.

Lemma Evict_effect_witness :
  exists res r',
    Evict tie_state = Some (res, r')
    /\ (res = None <-> Size tie_state = 0)
    /\ Size r' = Size tie_state - match res with Some _ => 1 | None => 0 end
    /\ (res = None -> node_store_ r' = node_store_ tie_state)
    /\ (forall f, res = Some f ->
          evictable tie_state f /\ find_node r' f = None
          /\ forall g, g <> f -> find_node r' g = find_node tie_state g).
Proof. apply (Evict_effect tie_state). exact tie_state_reachable. Defined.

End ReplacerBookkeeping.

(** ** What each pool operation does to the frames *)

Section BPMEffects.
Import Replacer BPM.
Local Open Scope bpm_scope.
Local Opaque zero_data.

Implicit Types (s : BufferPoolManager) (f g p q : Z) (pg : Page).

Lemma page_set_replacer_eq s (r : LRUKReplacer) g :
  page (set_replacer r s) g = page s g.
Proof. reflexivity. Qed.

Lemma page_new_page_state_other s f pg0 r' g :
  page s f = Some pg0 -> g <> f ->
  page (new_page_state f pg0 r' s) g = page s g.
Proof.
  intros H Hg. unfold new_page_state.
  change (page (put_page f (mkPage zero_data (next_page_id_ s) 1 false)
                  (set_page_table
                     (<[next_page_id_ s := f]> (delete (page_id_ pg0) (page_table_ s)))
                     (set_next_page_id (next_page_id_ s + 1) (write_back pg0 s)))) g
          = page s g).
  erewrite page_put_page
    by (apply page_set_page_table, page_set_next_page_id, page_write_back; exact H).
  destruct (Z.eqb_spec f g); [congruence|].
  apply (page_of_pages s (write_back pg0 s)). apply pages_write_back.
Qed.

Lemma page_fetch_miss_state s p f pg0 r' g :
  page s f = Some pg0 ->
  page (fetch_miss_state p f pg0 r' s) g
  = if Z.eqb f g
    then Some (mkPage (disk_ReadPage p (disk_manager_ (write_back pg0 s))) p 1 false)
    else page s g.
Proof.
  intros H. unfold fetch_miss_state.
  rewrite page_set_replacer_eq.
  erewrite page_put_page by (apply page_set_page_table, page_write_back; exact H).
  destruct (Z.eqb_spec f g); [reflexivity|].
  apply (page_of_pages s (write_back pg0 s)). apply pages_write_back.
Qed.

Lemma page_fetch_hit_state s f pg r' g :
  page s f = Some pg ->
  page (fetch_hit_state f pg r' s) g
  = if Z.eqb f g
    then Some (mkPage (data_ pg) (page_id_ pg) (pin_count_ pg + 1) true)
    else page s g.
Proof.
  intros H. unfold fetch_hit_state.
  rewrite page_set_replacer_eq.
  erewrite page_put_page by (apply page_set_page_table; exact H).
  reflexivity.
Qed.

Lemma page_unpinned_state s f pg (d : bool) g :
  page s f = Some pg ->
  page (unpinned_state f pg d s) g
  = if Z.eqb f g
    then Some (mkPage (data_ pg) (page_id_ pg) (pin_count_ pg - 1) d)
    else page s g.
Proof.
  intros H. unfold unpinned_state. cbn zeta.
  destruct (pin_count_ pg - 1 =? 0).
  - rewrite page_set_replacer_eq. apply (page_put_page s f g _ pg H).
  - apply (page_put_page s f g _ pg H).
Qed.

Lemma page_deleted_state s p f pg g :
  page s f = Some pg ->
  page (deleted_state p f s) g
  = if Z.eqb f g then Some (mkPage zero_data INVALID_PAGE_ID 0 false) else page s g.
Proof.
  intros H. unfold deleted_state.
  erewrite page_put_page by (apply page_set_free_list, page_set_page_table; exact H).
  reflexivity.
Qed.

(** [frame_kept a b]: frame contents [b] are [a] with the dirty flag
    possibly cleared. *)
Definition frame_kept (a b : Page) : Prop :=
  data_ b = data_ a /\ page_id_ b = page_id_ a /\ pin_count_ b = pin_count_ a
  /\ (is_dirty_ b = true -> is_dirty_ a = true).

(** [flush_related s s']: state [s'] is [s] up to cleared dirty flags and
    the disk. *)
Definition flush_related s s' : Prop :=
  pool_size_ s' = pool_size_ s
  /\ page_table_ s' = page_table_ s
  /\ free_list_ s' = free_list_ s
  /\ replacer_ s' = replacer_ s
  /\ next_page_id_ s' = next_page_id_ s
  /\ (forall g pg, page s g = Some pg ->
        exists pg', page s' g = Some pg' /\ frame_kept pg pg').

Lemma frame_kept_refl (a : Page) : frame_kept a a.
Proof. repeat split; auto. Qed.

Lemma flush_related_refl s : flush_related s s.
Proof.
  repeat split; try reflexivity. intros g pg H. exists pg.
  split; [assumption | apply frame_kept_refl].
Qed.

Lemma flush_related_trans s1 s2 s3 :
  flush_related s1 s2 -> flush_related s2 s3 -> flush_related s1 s3.
Proof.
  intros (A1 & A2 & A3 & A4 & A5 & A6) (B1 & B2 & B3 & B4 & B5 & B6).
  repeat split; try congruence.
  intros g pg H. destruct (A6 g pg H) as (pg2 & H2 & K1 & K2 & K3 & K4).
  destruct (B6 g pg2 H2) as (pg3 & H3 & L1 & L2 & L3 & L4).
  exists pg3. split; [assumption|]. repeat split; try congruence. auto.
Qed.

(** What [FlushPage] does, in a state whose page table points at frames of
    the pool. *)
Lemma FlushPage_effect s p :
  bpm_inv s ->
  (FlushPage p s = Some (false, s)
   /\ (p = INVALID_PAGE_ID \/ next_page_id_ s <= p \/ page_table_ s !! p = None))
  \/ (exists f pg,
        p <> INVALID_PAGE_ID /\ p < next_page_id_ s
        /\ page_table_ s !! p = Some f /\ page s f = Some pg
        /\ FlushPage p s
           = Some (true, put_page f (with_is_dirty false pg)
                           (set_disk (disk_WritePage p (data_ pg) (disk_manager_ s)) s))).
Proof.
  intros Hinv.
  destruct (Z.eq_dec p INVALID_PAGE_ID) as [Hp|Hp];
    [left; split; [apply FlushPage_refused|]; auto|].
  destruct (Z.le_gt_cases (next_page_id_ s) p) as [Hle|Hgt];
    [left; split; [apply FlushPage_refused|]; auto|].
  destruct (page_table_ s !! p) as [f|] eqn:Hpt;
    [|left; split; [apply FlushPage_refused|]; auto].
  destruct (inv_table _ _ Hinv p f Hpt) as (pg & Hpg & Hid & Hne).
  right. exists f, pg. repeat (split; [first [assumption | reflexivity | lia]|]).
  apply FlushPage_run; assumption || lia.
Qed.

Lemma flushed_related s p f pg :
  page s f = Some pg ->
  flush_related s (put_page f (with_is_dirty false pg)
                     (set_disk (disk_WritePage p (data_ pg) (disk_manager_ s)) s)).
Proof.
  intros Hpg. repeat split; try reflexivity.
  intros g pg' Hg.
  rewrite (page_put_page (set_disk _ s) f g _ pg) by (apply page_set_disk; exact Hpg).
  destruct (Z.eqb_spec f g) as [<-|Hne].
  - exists (with_is_dirty false pg). split; [reflexivity|].
    assert (pg' = pg) by congruence. subst. repeat split. discriminate.
  - exists pg'. split; [exact Hg | apply frame_kept_refl].
Qed.

End BPMEffects.

(** ** Flushing *)

Section BPMFlush.
Import Replacer BPM.
Local Open Scope bpm_scope.
Local Opaque zero_data.

Implicit Types (s : BufferPoolManager) (f g p q : Z) (pg : Page).

(** The loop invariant of [FlushAllPages] started in [s0]: only dirty flags
    and the disk have changed, and a resident frame that was dirty and is
    clean by now has its bytes on disk. *)
Definition flush_inv s0 s : Prop :=
  flush_related s0 s
  /\ forall p g pg0 pg,
       page_table_ s0 !! p = Some g -> page s0 g = Some pg0 ->
       page s g = Some pg ->
       is_dirty_ pg0 = true -> is_dirty_ pg = false ->
       disk_ReadPage p (disk_manager_ s) = data_ pg0.

(** [frame_write s w]: the disk write [w] stores the bytes of a frame of
    [s] under the page id that frame holds, which is not
    [INVALID_PAGE_ID]. *)
Definition frame_write s (w : Z * list Byte.byte) : Prop :=
  w.1 <> INVALID_PAGE_ID
  /\ exists f pg, page s f = Some pg /\ page_id_ pg = w.1 /\ data_ pg = w.2.

(** [writes_frames s s']: from [s] to [s'] the trace of disk writes grew by
    writes of frames of [s] only. *)
Definition writes_frames s s' : Prop :=
  exists l, writes_ (disk_manager_ s') = writes_ (disk_manager_ s) ++ l
            /\ Forall (frame_write s) l.

Lemma writes_frames_same s s' :
  disk_manager_ s' = disk_manager_ s -> writes_frames s s'.
Proof. intros Hd. exists []. rewrite Hd, app_nil_r. auto. Qed.

Lemma writes_frames_one s s' f pg :
  page s f = Some pg -> page_id_ pg <> INVALID_PAGE_ID ->
  disk_manager_ s' = disk_WritePage (page_id_ pg) (data_ pg) (disk_manager_ s) ->
  writes_frames s s'.
Proof.
  intros Hpg Hne Hd. exists [(page_id_ pg, data_ pg)]. split; [rewrite Hd; reflexivity|].
  constructor; [|constructor]. split; [assumption|]. exists f, pg. auto.
Qed.

Lemma flush_related_back s s' g pg' :
  bpm_inv s -> bpm_inv s' -> flush_related s s' -> page s' g = Some pg' ->
  exists pg, page s g = Some pg /\ frame_kept pg pg'.
Proof.
  intros Hinv Hinv' (Hps & _ & _ & _ & _ & Hfr) Hpg'.
  pose proof (page_range _ _ _ Hpg') as Hrange.
  rewrite (inv_len _ _ Hinv'), Hps, <- (inv_len _ _ Hinv) in Hrange.
  destruct (page_in_range s g Hrange) as [pg Hpg].
  destruct (Hfr g pg Hpg) as (pgx & Hx & Hkept).
  assert (pgx = pg') by congruence. subst pgx. eauto.
Qed.

Lemma writes_frames_trans s1 s2 s3 :
  bpm_inv s1 -> bpm_inv s2 -> flush_related s1 s2 ->
  writes_frames s1 s2 -> writes_frames s2 s3 -> writes_frames s1 s3.
Proof.
  intros Hinv1 Hinv2 Hrel (l1 & H1 & Hl1) (l2 & H2 & Hl2).
  exists (l1 ++ l2). split; [rewrite H2, H1, app_assoc; reflexivity|].
  apply Forall_app. split; [assumption|].
  eapply Forall_impl; [exact Hl2|].
  intros w (Hne & f & pg2 & Hpg2 & Hid & Hdata). split; [assumption|].
  destruct (flush_related_back s1 s2 f pg2 Hinv1 Hinv2 Hrel Hpg2)
    as (pg1 & Hpg1 & Hd & Hi & _).
  exists f, pg1. split; [assumption|]. split; congruence.
Qed.

Lemma flush_inv_start s : flush_inv s s.
Proof.
  split; [apply flush_related_refl|].
  intros p g pg0 pg _ H0 H Hd Hc. congruence.
Qed.

Lemma flush_frame_step s0 s f :
  bpm_inv s -> flush_inv s0 s -> 0 <= f < Z.of_nat (pool_size_ s) ->
  exists s',
    flush_frame f s = Some (tt, s')
    /\ bpm_inv s' /\ flush_inv s0 s' /\ flush_related s s'
    /\ (forall p pg', page_table_ s !! p = Some f -> p < next_page_id_ s ->
          page s' f = Some pg' -> is_dirty_ pg' = false)
    /\ writes_frames s s'.
Proof.
  intros Hinv (Hrel & Hdisk) Hf. unfold flush_frame.
  destruct (page_in_range s f) as [pg Hpg]; [rewrite (inv_len _ _ Hinv); lia|].
  rewrite (bind_run _ _ _ _ _ (page_at_run _ _ _ Hpg)).
  assert (Hsame : forall p pg', page_table_ s !! p = Some f ->
            p = page_id_ pg /\ p <> INVALID_PAGE_ID).
  { intros p _ Hp. destruct (inv_table _ _ Hinv p f Hp) as (pg1 & H1 & Hid & Hne).
    split; congruence. }
  destruct (negb (page_id_ pg =? INVALID_PAGE_ID) && is_dirty_ pg) eqn:Hcond.
  - destruct (FlushPage_effect s (page_id_ pg) Hinv)
      as [(HF & Href) | (f' & pg' & Hp & Hlt & Hpt & Hpg' & HF)];
      rewrite (bind_run _ _ _ _ _ HF).
    + exists s. split; [reflexivity|]. split; [assumption|].
      split; [split; assumption|]. split; [apply flush_related_refl|].
      split; [|apply writes_frames_same; reflexivity].
      intros p pgx Hpf Hlt Hx. destruct (Hsame p pgx Hpf) as [-> Hne].
      destruct Href as [?|[?|?]]; [contradiction | lia | congruence].
    + set (s' := put_page f' (with_is_dirty false pg')
                   (set_disk (disk_WritePage (page_id_ pg) (data_ pg') (disk_manager_ s)) s)).
      pose proof (flushed_related s (page_id_ pg) f' pg' Hpg') as Hstep. fold s' in Hstep.
      assert (Hpage' : forall g, page s' g
                = if Z.eqb f' g then Some (with_is_dirty false pg') else page s g).
      { intros g. unfold s'.
        rewrite (page_put_page (set_disk _ s) f' g _ pg') by (apply page_set_disk; exact Hpg').
        reflexivity. }
      exists s'. split; [reflexivity|]. split.
      { apply (same_pin_inv s s' f' pg' (with_is_dirty false pg')); auto. }
      split; [|split; [assumption|split]].
      * split; [eapply flush_related_trans; eassumption|].
        intros p g pg0 pgx Hp0 Hg0 Hgx Hd0 Hcx.
        destruct Hrel as (_ & Hpt0 & _ & _ & _ & Hfr).
        assert (Hps : page_table_ s !! p = Some g) by (rewrite Hpt0; exact Hp0).
        destruct (inv_table _ _ Hinv p g Hps) as (pgs & Hgs & Hids & _).
        destruct (Hfr g pg0 Hg0) as (pgs' & Hgs' & Hdata & _).
        assert (pgs' = pgs) by congruence. subst pgs'.
        unfold s'. cbn [put_page set_pages set_disk disk_manager_].
        rewrite disk_read_write.
        rewrite Hpage' in Hgx. revert Hgx.
        destruct (Z.eqb_spec f' g) as [<-|Hne]; intros Hgx.
        -- assert (pgs = pg') by congruence. subst pgs.
           assert (page_id_ pg = p).
           { destruct (inv_table _ _ Hinv _ _ Hpt) as (pgt & Hgt & Hidt & _). congruence. }
           destruct (Z.eqb_spec (page_id_ pg) p); congruence.
        -- destruct (Z.eqb_spec (page_id_ pg) p) as [Heq|Hneq].
           { rewrite Heq in Hpt. congruence. }
           eapply Hdisk; eassumption.
      * intros p pgx Hpf Hlt' Hx. destruct (Hsame p pgx Hpf) as [-> Hne].
        assert (f' = f) by congruence. subst f'.
        rewrite Hpage', Z.eqb_refl in Hx. injection Hx as <-. reflexivity.
      * destruct (inv_table _ _ Hinv _ _ Hpt) as (pgt & Hgt & Hidt & _).
        assert (pgt = pg') by congruence. subst pgt.
        apply (writes_frames_one s s' f' pg' Hpg'); [congruence|].
        unfold s'. cbn [put_page set_pages set_disk disk_manager_]. rewrite Hidt.
        reflexivity.
  - exists s. split; [reflexivity|]. split; [assumption|].
    split; [split; assumption|]. split; [apply flush_related_refl|].
    split; [|apply writes_frames_same; reflexivity].
    intros p pgx Hpf Hlt Hx. destruct (Hsame p pgx Hpf) as [-> Hne].
    assert (pgx = pg) by congruence. subst pgx.
    destruct (Z.eqb_spec (page_id_ pg) INVALID_PAGE_ID); [contradiction|].
    cbn in Hcond. exact Hcond.
Qed.

Lemma flush_related_clean s s' f pg pg' :
  flush_related s s' -> page s f = Some pg -> is_dirty_ pg = false ->
  page s' f = Some pg' -> is_dirty_ pg' = false.
Proof.
  intros (_ & _ & _ & _ & _ & Hfr) Hpg Hc Hpg'.
  destruct (Hfr f pg Hpg) as (pgx & Hx & _ & _ & _ & Hd).
  assert (pgx = pg') by congruence. subst pgx.
  destruct (is_dirty_ pg'); [|reflexivity]. rewrite Hd in Hc by reflexivity. discriminate.
Qed.

Lemma for_each_flush_step s0 (fs : list Z) : forall s,
  bpm_inv s -> flush_inv s0 s ->
  (forall f, f ∈ fs -> 0 <= f < Z.of_nat (pool_size_ s)) ->
  exists s',
    for_each fs flush_frame s = Some (tt, s')
    /\ bpm_inv s' /\ flush_inv s0 s' /\ flush_related s s'
    /\ (forall f p pg', f ∈ fs -> page_table_ s !! p = Some f ->
          p < next_page_id_ s -> page s' f = Some pg' -> is_dirty_ pg' = false)
    /\ writes_frames s s'.
Proof.
  induction fs as [|f fs IH]; intros s Hinv Hfi Hr.
  - exists s. split; [reflexivity|]. split; [assumption|]. split; [assumption|].
    split; [apply flush_related_refl|].
    split; [intros f p pg' []%elem_of_nil | apply writes_frames_same; reflexivity].
  - cbn [for_each].
    destruct (flush_frame_step s0 s f Hinv Hfi)
      as (s1 & H1 & Hinv1 & Hfi1 & Hrel1 & Hc1 & Hw1);
      [apply Hr; apply list_elem_of_here|].
    rewrite (bind_run _ _ _ _ _ H1).
    pose proof Hrel1 as (Hps & Hpt & _ & _ & Hnext & Hfr1).
    destruct (IH s1 Hinv1 Hfi1) as (s' & H' & Hinv' & Hfi' & Hrel' & Hc' & Hw').
    { intros g Hg. rewrite Hps. apply Hr. apply list_elem_of_further. assumption. }
    exists s'. split; [assumption|]. split; [assumption|]. split; [assumption|].
    split; [eapply flush_related_trans; eassumption|].
    split; [|apply (writes_frames_trans s s1 s'); assumption].
    intros g p pg' [->|Hin]%elem_of_cons Hp Hlt Hpg'.
    + destruct (inv_table _ _ Hinv p f Hp) as (pg & Hpg & _).
      destruct (Hfr1 f pg Hpg) as (pg1 & Hpg1 & _).
      eapply (flush_related_clean s1 s' f pg1 pg'); try eassumption.
      eapply Hc1; eassumption.
    + apply (Hc' g p pg'); [assumption | rewrite Hpt | rewrite Hnext |]; assumption.
Qed.

Lemma FlushAllPages_flush s :
  bpm_inv s ->
  exists s',
    FlushAllPages s = Some (tt, s')
    /\ bpm_inv s' /\ flush_inv s s'
    /\ (forall p f pg', page_table_ s !! p = Some f -> p < next_page_id_ s ->
          page s' f = Some pg' -> is_dirty_ pg' = false)
    /\ writes_frames s s'.
Proof.
  intros Hinv. unfold FlushAllPages.
  rewrite (bind_run _ _ s (pool_size_ s) s) by reflexivity.
  destruct (for_each_flush_step s (Z.of_nat <$> seq 0 (pool_size_ s)) s Hinv
              (flush_inv_start s))
    as (s' & H' & Hinv' & Hfi & Hrel & Hclean & Hw).
  { intros f (i & -> & Hi%elem_of_seq)%list_elem_of_fmap. lia. }
  exists s'. split; [assumption|]. split; [assumption|]. split; [assumption|].
  split; [|assumption].
  intros p f pg' Hp Hlt Hpg'.
  destruct (inv_table _ _ Hinv p f Hp) as (pg & Hpg & _).
  pose proof (page_range _ _ _ Hpg) as Hrange. rewrite (inv_len _ _ Hinv) in Hrange.
  apply (Hclean f p pg'); try assumption.
  apply list_elem_of_fmap. exists (Z.to_nat f). split; [lia|].
  apply elem_of_seq. lia.
Qed.

(** X10. [FlushAllPages] in a reachable state never aborts, leaves the page
    table, free list, replacer and id counter alone, and writes back every
    resident page whose id is below [next_page_id_]: afterwards its frame is
    clean with the same bytes and pin count, and if it was dirty the disk
    holds those bytes under its id. *)
Theorem FlushAllPages_writes_back s :
  reachable s ->
  exists s',
    FlushAllPages s = Some (tt, s')
    /\ page_table_ s' = page_table_ s /\ free_list_ s' = free_list_ s
    /\ replacer_ s' = replacer_ s /\ next_page_id_ s' = next_page_id_ s
    /\ forall p f pg,
         page_table_ s !! p = Some f -> page s f = Some pg ->
         p < next_page_id_ s ->
         exists pg',
           page s' f = Some pg' /\ is_dirty_ pg' = false
           /\ data_ pg' = data_ pg /\ pin_count_ pg' = pin_count_ pg
           /\ (is_dirty_ pg = true ->
               disk_ReadPage p (disk_manager_ s') = data_ pg).
Proof.
  intros Hinv%reachable_inv.
  destruct (FlushAllPages_flush s Hinv) as (s' & H' & _ & (Hrel & Hdisk) & Hclean & _).
  exists s'. split; [assumption|].
  pose proof Hrel as (_ & Hpt & Hfl & Hrep & Hnext & Hfr).
  repeat (split; [assumption|]).
  intros p f pg Hp Hpg Hlt.
  destruct (Hfr f pg Hpg) as (pg' & Hpg' & Hdata & _ & Hpin & _).
  assert (Hc : is_dirty_ pg' = false) by (apply (Hclean p f pg'); assumption).
  exists pg'. repeat (split; [assumption|]).
  intros Hd. eapply Hdisk; eassumption.
Qed.

Lemma FlushAllPages_writes_back_witness :
  exists s',
    FlushAllPages dirty_state = Some (tt, s')
    /\ page_table_ s' = page_table_ dirty_state
    /\ free_list_ s' = free_list_ dirty_state
    /\ replacer_ s' = replacer_ dirty_state
    /\ next_page_id_ s' = next_page_id_ dirty_state
    /\ forall p f pg,
         page_table_ dirty_state !! p = Some f -> page dirty_state f = Some pg ->
         p < next_page_id_ dirty_state ->
         exists pg',
           page s' f = Some pg' /\ is_dirty_ pg' = false
           /\ data_ pg' = data_ pg /\ pin_count_ pg' = pin_count_ pg
           /\ (is_dirty_ pg = true ->
               disk_ReadPage p (disk_manager_ s') = data_ pg).
Proof.
  apply (FlushAllPages_writes_back dirty_state).
  apply (reachable_run_ops [OpNewPage; OpUnpinPage 0 true] pool1).
  - apply reach_new. lia.
  - vm_compute. reflexivity.
Defined.

(** X11. [FlushPage(p)] in a reachable state returns true exactly when [p]
    is not [INVALID_PAGE_ID], is below [next_page_id_] and is resident; then
    the disk holds the frame's bytes under [p] and the frame is clean.
    Otherwise (also for a resident page fetched under an id that was never
    allocated) it returns false and changes nothing. *)
Theorem FlushPage_result s p :
  reachable s ->
  exists (b : bool) s',
    FlushPage p s = Some (b, s')
    /\ (b = true <-> p <> INVALID_PAGE_ID /\ p < next_page_id_ s
                     /\ is_Some (page_table_ s !! p))
    /\ (b = false -> s' = s)
    /\ (b = true -> forall f pg,
          page_table_ s !! p = Some f -> page s f = Some pg ->
          page s' f = Some (with_is_dirty false pg)
          /\ disk_ReadPage p (disk_manager_ s') = data_ pg
          /\ (forall g, g <> f -> page s' g = page s g)).
Proof.
  intros Hinv%reachable_inv.
  destruct (FlushPage_effect s p Hinv)
    as [(HF & Href) | (f & pg & Hp & Hlt & Hpt & Hpg & HF)].
  - exists false, s. split; [assumption|]. split; [|split; [reflexivity | discriminate]].
    split; [discriminate|]. intros (H1 & H2 & [x H3]).
    destruct Href as [?|[?|?]]; [contradiction | lia | congruence].
  - eexists true, _. split; [exact HF|]. split; [|split; [discriminate|]].
    + split; [intros _; rewrite Hpt; eauto | reflexivity].
    + intros _ f' pg' Hpt' Hpg'.
      assert (f' = f) by congruence. subst f'.
      assert (pg' = pg) by congruence. subst pg'.
      assert (Hpage : forall g,
        page (put_page f (with_is_dirty false pg)
                (set_disk (disk_WritePage p (data_ pg) (disk_manager_ s)) s)) g
        = if Z.eqb f g then Some (with_is_dirty false pg) else page s g).
      { intros g. rewrite (page_put_page (set_disk _ s) f g _ pg)
          by (apply page_set_disk; exact Hpg). reflexivity. }
      split; [rewrite Hpage, Z.eqb_refl; reflexivity|]. split.
      * cbn [put_page set_pages set_disk disk_manager_]. rewrite disk_read_write.
        rewrite Z.eqb_refl. reflexivity.
      * intros g Hg. rewrite Hpage. destruct (Z.eqb_spec f g); [congruence | reflexivity].
Qed.

Lemma FlushPage_result_witness :
  exists (b : bool) s',
    FlushPage 0 dirty_state = Some (b, s')
    /\ (b = true <-> 0 <> INVALID_PAGE_ID /\ 0 < next_page_id_ dirty_state
                     /\ is_Some (page_table_ dirty_state !! 0))
    /\ (b = false -> s' = dirty_state)
    /\ (b = true -> forall f pg,
          page_table_ dirty_state !! 0 = Some f -> page dirty_state f = Some pg ->
          page s' f = Some (with_is_dirty false pg)
          /\ disk_ReadPage 0 (disk_manager_ s') = data_ pg
          /\ (forall g, g <> f -> page s' g = page dirty_state g)).
Proof.
  apply (FlushPage_result dirty_state 0).
  apply (reachable_run_ops [OpNewPage; OpUnpinPage 0 true] pool1).
  - apply reach_new. lia.
  - vm_compute. reflexivity.
Defined.

End BPMFlush.

(** ** Fetching, pinning and the reuse of frames *)

Section BPMFrames.
Import Replacer BPM.
Local Open Scope bpm_scope.
Local Opaque zero_data.

Implicit Types (s : BufferPoolManager) (f g p q : Z) (pg : Page).

Ltac fields :=
  cbn [set_replacer put_page set_pages set_page_table set_next_page_id
       set_free_list set_disk pool_size_ pages_ page_table_ free_list_
       replacer_ next_page_id_ disk_manager_];
  rewrite ?pool_size_write_back, ?next_page_id_write_back,
    ?page_table_write_back, ?free_list_write_back, ?replacer_write_back.

Lemma disk_manager_write_back pg s :
  disk_manager_ (write_back pg s)
  = if is_dirty_ pg
    then disk_WritePage (page_id_ pg) (data_ pg) (disk_manager_ s)
    else disk_manager_ s.
Proof. unfold write_back. destruct (is_dirty_ pg); reflexivity. Qed.

Lemma acquired_page s f pg0 s1 g : acquired s f pg0 s1 -> page s1 g = page s g.
Proof. intros (_ & _ & Hpages & _). apply page_of_pages. exact Hpages. Qed.

(** Where [GetAvailableFrameId] takes its frame from: the front of the free
    list, and the replacer only when the free list is empty. *)
Lemma GetAvailableFrameId_source s f s1 :
  bpm_inv s -> GetAvailableFrameId s = Some (Some f, s1) ->
  match free_list_ s with
  | f0 :: rest => f = f0 /\ free_list_ s1 = rest /\ replacer_ s1 = replacer_ s
  | [] => evictable (replacer_ s) f /\ free_list_ s1 = []
          /\ (forall g, g <> f ->
                evictable (replacer_ s1) g <-> evictable (replacer_ s) g)
  end.
Proof.
  intros Hinv. unfold GetAvailableFrameId.
  rewrite (bind_run _ _ s (free_list_ s) s) by reflexivity.
  destruct (free_list_ s) as [|f0 rest] eqn:Hfl.
  - destruct (Evict_run _ _ (inv_repl _ _ Hinv))
      as [(r' & HE & _) | (f' & r' & HE & Hevf & _ & _ & _ & He)];
      rewrite HE; intros H; [discriminate|].
    injection H as <- <-. fields. rewrite Hfl. auto.
  - intros H. injection H as <- <-. auto.
Qed.

Lemma NewPage_some s p f s' :
  bpm_inv s -> NewPage s = Some (Some (p, f), s') ->
  exists pg0 s1 r',
    GetAvailableFrameId s = Some (Some f, s1)
    /\ acquired s f pg0 s1
    /\ RecordAccess f (replacer_ s1) = Some r'
    /\ RInv (Z.of_nat (pool_size_ s)) r'
    /\ p = next_page_id_ s
    /\ s' = new_page_state f pg0 r' s1.
Proof.
  intros Hinv H. unfold NewPage in H.
  destruct (GetAvailableFrameId_spec s Hinv)
    as [(r' & HG & _) | (f' & pg0 & s1 & HG & Hacq)];
    rewrite (bind_run _ _ _ _ _ HG) in H; [discriminate|].
  destruct (acquired_RecordAccess _ _ _ _ Hacq) as (Hpg1 & _).
  pose proof Hacq as (Hpg0 & _ & _ & _ & Hnext & _ & Hps & _ & Hinv1).
  pose proof (page_range _ _ _ Hpg1) as Hrange. rewrite (inv_len _ _ Hinv1) in Hrange.
  destruct (RecordAccess_run _ _ f' (inv_repl _ _ Hinv1) Hrange) as (r' & Hr' & HR & _).
  rewrite (install_new_run s1 f' pg0 r' Hpg1 Hr') in H.
  injection H as <- <- <-. exists pg0, s1, r'.
  rewrite <- Hps. auto 10.
Qed.

Lemma FetchPage_miss_some s p f s' :
  bpm_inv s -> page_table_ s !! p = None ->
  FetchPage p s = Some (Some f, s') ->
  exists pg0 s1 r',
    GetAvailableFrameId s = Some (Some f, s1)
    /\ acquired s f pg0 s1
    /\ RecordAccess f (replacer_ s1) = Some r'
    /\ RInv (Z.of_nat (pool_size_ s)) r'
    /\ p <> INVALID_PAGE_ID
    /\ s' = fetch_miss_state p f pg0 r' s1.
Proof.
  intros Hinv Hpt H. unfold FetchPage, DoFetchPage in H.
  destruct (Z.eqb_spec p INVALID_PAGE_ID) as [|Hp]; [discriminate|].
  rewrite (bind_run _ _ s (page_table_ s !! p) s) in H by reflexivity.
  rewrite Hpt in H.
  destruct (GetAvailableFrameId_spec s Hinv)
    as [(r' & HG & _) | (f' & pg0 & s1 & HG & Hacq)];
    rewrite (bind_run _ _ _ _ _ HG) in H; [discriminate|].
  destruct (acquired_RecordAccess _ _ _ _ Hacq) as (Hpg1 & _).
  pose proof Hacq as (Hpg0 & _ & _ & _ & Hnext & _ & Hps & _ & Hinv1).
  pose proof (page_range _ _ _ Hpg1) as Hrange. rewrite (inv_len _ _ Hinv1) in Hrange.
  destruct (RecordAccess_run _ _ f' (inv_repl _ _ Hinv1) Hrange) as (r' & Hr' & HR & _).
  rewrite (install_fetch_run s1 p f' pg0 r' Hpg1 Hr') in H.
  injection H as <- <-. exists pg0, s1, r'.
  rewrite <- Hps. auto 10.
Qed.

Lemma not_evictable_pinned (r : LRUKReplacer) f :
  ~ evictable (SetEvictable f false r) f.
Proof.
  rewrite evictable_SetEvictable, Z.eqb_refl. intros [_ ?]. discriminate.
Qed.

Lemma FetchPage_hit_facts s p f pg :
  bpm_inv s -> page_table_ s !! p = Some f -> page s f = Some pg ->
  exists s',
    FetchPage p s = Some (Some f, s')
    /\ page s' f = Some (mkPage (data_ pg) p (pin_count_ pg + 1) true)
    /\ (forall g, g <> f -> page s' g = page s g)
    /\ page_table_ s' = page_table_ s
    /\ free_list_ s' = free_list_ s
    /\ next_page_id_ s' = next_page_id_ s
    /\ disk_manager_ s' = disk_manager_ s
    /\ ~ evictable (replacer_ s') f
    /\ (forall g, g <> f ->
          evictable (replacer_ s') g <-> evictable (replacer_ s) g).
Proof.
  intros Hinv Hpt Hpg.
  destruct (inv_table _ _ Hinv p f Hpt) as (pg' & Hpg' & Hid & Hne).
  assert (pg' = pg) by congruence. subst pg'.
  pose proof (page_range _ _ _ Hpg) as Hrange. rewrite (inv_len _ _ Hinv) in Hrange.
  destruct (RecordAccess_run _ _ f (inv_repl _ _ Hinv) Hrange)
    as (r' & Hr' & _ & _ & _ & Hev).
  exists (fetch_hit_state f pg r' s).
  split; [apply FetchPage_hit; assumption|].
  split; [rewrite (page_fetch_hit_state s f pg r' f Hpg), Z.eqb_refl, Hid; reflexivity|].
  split.
  { intros g Hg. rewrite (page_fetch_hit_state s f pg r' g Hpg).
    destruct (Z.eqb_spec f g); [congruence | reflexivity]. }
  unfold fetch_hit_state. fields.
  split; [rewrite Hid; apply insert_id; assumption|].
  repeat (split; [reflexivity|]).
  split; [apply not_evictable_pinned|].
  intros g Hg. rewrite evictable_SetEvictable.
  destruct (Z.eqb_spec f g); [congruence | apply Hev].
Qed.

(** X12. A fetch of a resident page returns its frame with the pin count
    one higher and the dirty flag set (although nothing was written); the
    bytes, the other frames, the page table, the free list and the disk are
    untouched, and the frame is not evictable afterwards. *)
Theorem FetchPage_hit_effect s p f pg :
  reachable s -> page_table_ s !! p = Some f -> page s f = Some pg ->
  exists s',
    FetchPage p s = Some (Some f, s')
    /\ page s' f = Some (mkPage (data_ pg) p (pin_count_ pg + 1) true)
    /\ (forall g, g <> f -> page s' g = page s g)
    /\ page_table_ s' = page_table_ s
    /\ free_list_ s' = free_list_ s
    /\ next_page_id_ s' = next_page_id_ s
    /\ disk_manager_ s' = disk_manager_ s
    /\ ~ evictable (replacer_ s') f
    /\ (forall g, g <> f ->
          evictable (replacer_ s') g <-> evictable (replacer_ s) g).
Proof. intros Hinv%reachable_inv. apply FetchPage_hit_facts. assumption. Qed.

Lemma FetchPage_hit_effect_witness :
  exists s',
    FetchPage 0 dirty_state = Some (Some 0, s')
    /\ page s' 0 = Some (mkPage (data_ (mkPage zero_data 0 0 true)) 0
                           (pin_count_ (mkPage zero_data 0 0 true) + 1) true)
    /\ (forall g, g <> 0 -> page s' g = page dirty_state g)
    /\ page_table_ s' = page_table_ dirty_state
    /\ free_list_ s' = free_list_ dirty_state
    /\ next_page_id_ s' = next_page_id_ dirty_state
    /\ disk_manager_ s' = disk_manager_ dirty_state
    /\ ~ evictable (replacer_ s') 0
    /\ (forall g, g <> 0 ->
          evictable (replacer_ s') g <-> evictable (replacer_ dirty_state) g).
Proof.
  apply (FetchPage_hit_effect dirty_state 0 0 (mkPage zero_data 0 0 true)).
  - apply (reachable_run_ops [OpNewPage; OpUnpinPage 0 true] pool1).
    + apply reach_new. lia.
    + vm_compute. reflexivity.
  - vm_compute. reflexivity.
  - vm_compute. reflexivity.
Defined.

(** X13. [NewPage], when it returns a page, takes the front of the free
    list, and the replacer's victim only when the free list is empty. The
    frame it takes was unpinned; if it was dirty its old bytes are written
    to disk under its old page id, and otherwise the disk is untouched. The
    old id's page-table entry is dropped, the new id is mapped to the frame,
    no other frame changes, and the frame is not evictable afterwards. *)
Theorem NewPage_reuses_frame s p f s' :
  reachable s -> NewPage s = Some (Some (p, f), s') ->
  exists pg0,
    page s f = Some pg0 /\ pin_count_ pg0 = 0
    /\ match free_list_ s with
       | f0 :: rest => f = f0 /\ free_list_ s' = rest
       | [] => evictable (replacer_ s) f /\ free_list_ s' = []
       end
    /\ (forall g, g <> f -> page s' g = page s g)
    /\ page_table_ s' = <[p := f]> (delete (page_id_ pg0) (page_table_ s))
    /\ disk_manager_ s'
       = (if is_dirty_ pg0
          then disk_WritePage (page_id_ pg0) (data_ pg0) (disk_manager_ s)
          else disk_manager_ s)
    /\ ~ evictable (replacer_ s') f.
Proof.
  intros Hinv%reachable_inv H.
  destruct (NewPage_some s p f s' Hinv H)
    as (pg0 & s1 & r' & HG & Hacq & Hr' & _ & -> & ->).
  pose proof (GetAvailableFrameId_source s f s1 Hinv HG) as Hsrc.
  pose proof Hacq as (Hpg0 & Hpin & Hpages & Hpt & Hnext & Hdisk & Hps & Hnf & Hinv1).
  assert (Hpg1 : page s1 f = Some pg0)
    by (rewrite (acquired_page _ _ _ _ f Hacq); exact Hpg0).
  exists pg0. split; [assumption|]. split; [assumption|]. split.
  { unfold new_page_state. fields.
    destruct (free_list_ s); [destruct Hsrc as (? & ? & _) | destruct Hsrc as (? & ? & _)];
      auto. }
  split.
  { intros g Hg. rewrite (page_new_page_state_other s1 f pg0 r' g Hpg1 Hg).
    apply (acquired_page _ _ _ _ g Hacq). }
  unfold new_page_state. fields.
  rewrite Hnext, Hpt, disk_manager_write_back, Hdisk.
  split; [reflexivity|]. split; [reflexivity|].
  apply not_evictable_pinned.
Qed.

Lemma NewPage_reuses_frame_witness :
  exists pg0,
    page dirty_state 0 = Some pg0 /\ pin_count_ pg0 = 0
    /\ match free_list_ dirty_state with
       | f0 :: rest => 0 = f0 /\ free_list_ (state_after [OpNewPage] dirty_state) = rest
       | [] => evictable (replacer_ dirty_state) 0
               /\ free_list_ (state_after [OpNewPage] dirty_state) = []
       end
    /\ (forall g, g <> 0 -> page (state_after [OpNewPage] dirty_state) g
                           = page dirty_state g)
    /\ page_table_ (state_after [OpNewPage] dirty_state)
       = <[1 := 0]> (delete (page_id_ pg0) (page_table_ dirty_state))
    /\ disk_manager_ (state_after [OpNewPage] dirty_state)
       = (if is_dirty_ pg0
          then disk_WritePage (page_id_ pg0) (data_ pg0) (disk_manager_ dirty_state)
          else disk_manager_ dirty_state)
    /\ ~ evictable (replacer_ (state_after [OpNewPage] dirty_state)) 0.
Proof.
  apply (NewPage_reuses_frame dirty_state 1 0 (state_after [OpNewPage] dirty_state)).
  - apply (reachable_run_ops [OpNewPage; OpUnpinPage 0 true] pool1).
    + apply reach_new. lia.
    + vm_compute. reflexivity.
  - vm_compute. reflexivity.
Defined.

(** X14. [FetchPage] in a reachable state never aborts. It returns no frame
    exactly when the id is [INVALID_PAGE_ID], or the page is not resident
    and every frame is pinned; then frames, page table and disk are
    unchanged. A returned frame is mapped from the page id, holds that id
    and is pinned. *)
Theorem FetchPage_result s p :
  reachable s ->
  exists res s',
    FetchPage p s = Some (res, s')
    /\ (res = None <->
        p = INVALID_PAGE_ID \/ (page_table_ s !! p = None /\ all_pinned s))
    /\ (res = None ->
        pages_ s' = pages_ s /\ page_table_ s' = page_table_ s
        /\ disk_manager_ s' = disk_manager_ s)
    /\ (forall f, res = Some f ->
        page_table_ s' !! p = Some f
        /\ exists pg, page s' f = Some pg /\ page_id_ pg = p
                      /\ 0 < pin_count_ pg).
Proof.
  intros Hinv%reachable_inv.
  destruct (FetchPage_cases s p Hinv)
    as [(Hp & H) | [(f & pg & r' & Hp & Hpt & Hpg & Hid & _ & H & _)
       | [(r' & Hp & Hpt & H & _ & Hall & _)
       | (f & pg0 & s1 & r' & Hp & Hpt & H & Hacq & _ & _)]]].
  - exists None, s. split; [assumption|]. split; [tauto|]. split; [auto|]. discriminate.
  - eexists (Some f), _. split; [exact H|]. split.
    { split; [discriminate|]. intros [?|[? _]]; congruence. }
    split; [discriminate|]. intros f' [= <-]. split.
    + unfold fetch_hit_state. fields. rewrite Hid. apply lookup_insert_eq.
    + eexists. split; [rewrite (page_fetch_hit_state s f pg r' f Hpg), Z.eqb_refl;
                       reflexivity|].
      cbn [page_id_ pin_count_]. split; [assumption|].
      destruct (inv_pin _ _ Hinv f pg Hpg). lia.
  - eexists None, _. split; [exact H|]. split; [tauto|]. split; [auto|]. discriminate.
  - eexists (Some f), _. split; [exact H|].
    pose proof Hacq as (Hpg0 & Hpin & _).
    assert (Hpg1 : page s1 f = Some pg0)
      by (rewrite (acquired_page _ _ _ _ f Hacq); exact Hpg0).
    split.
    { split; [discriminate|]. intros [?|[_ Hall]]; [contradiction|].
      specialize (Hall f pg0 Hpg0). lia. }
    split; [discriminate|]. intros f' [= <-]. split.
    + unfold fetch_miss_state. fields. apply lookup_insert_eq.
    + eexists. split; [rewrite (page_fetch_miss_state s1 p f pg0 r' f Hpg1), Z.eqb_refl;
                       reflexivity|].
      cbn [page_id_ pin_count_]. split; [reflexivity | lia].
Qed.

Lemma FetchPage_result_witness :
  exists res s',
    FetchPage 7 full_state = Some (res, s')
    /\ (res = None <->
        7 = INVALID_PAGE_ID \/ (page_table_ full_state !! 7 = None /\ all_pinned full_state))
    /\ (res = None ->
        pages_ s' = pages_ full_state /\ page_table_ s' = page_table_ full_state
        /\ disk_manager_ s' = disk_manager_ full_state)
    /\ (forall f, res = Some f ->
        page_table_ s' !! 7 = Some f
        /\ exists pg, page s' f = Some pg /\ page_id_ pg = 7
                      /\ 0 < pin_count_ pg).
Proof. apply (FetchPage_result full_state 7). apply full_state_reachable. Defined.

(** X15. A fetch of a page that is not resident, when it returns a frame,
    takes the frame as [NewPage] does (free list first; a dirty victim is
    written back under its old id) and then loads the frame from the disk as
    it is after that write-back, clean and with pin count 1. *)
Theorem FetchPage_miss_effect s p f s' :
  reachable s -> page_table_ s !! p = None ->
  FetchPage p s = Some (Some f, s') ->
  exists pg0,
    page s f = Some pg0 /\ pin_count_ pg0 = 0
    /\ match free_list_ s with
       | f0 :: rest => f = f0 /\ free_list_ s' = rest
       | [] => evictable (replacer_ s) f /\ free_list_ s' = []
       end
    /\ disk_manager_ s'
       = (if is_dirty_ pg0
          then disk_WritePage (page_id_ pg0) (data_ pg0) (disk_manager_ s)
          else disk_manager_ s)
    /\ page s' f = Some (mkPage (disk_ReadPage p (disk_manager_ s')) p 1 false)
    /\ (forall g, g <> f -> page s' g = page s g)
    /\ page_table_ s' = <[p := f]> (delete (page_id_ pg0) (page_table_ s))
    /\ next_page_id_ s' = next_page_id_ s
    /\ ~ evictable (replacer_ s') f.
Proof.
  intros Hinv%reachable_inv Hnone H.
  destruct (FetchPage_miss_some s p f s' Hinv Hnone H)
    as (pg0 & s1 & r' & HG & Hacq & Hr' & _ & Hp & ->).
  pose proof (GetAvailableFrameId_source s f s1 Hinv HG) as Hsrc.
  pose proof Hacq as (Hpg0 & Hpin & Hpages & Hpt & Hnext & Hdisk & Hps & Hnf & Hinv1).
  assert (Hpg1 : page s1 f = Some pg0)
    by (rewrite (acquired_page _ _ _ _ f Hacq); exact Hpg0).
  exists pg0. split; [assumption|]. split; [assumption|]. split.
  { unfold fetch_miss_state. fields.
    destruct (free_list_ s); [destruct Hsrc as (? & ? & _) | destruct Hsrc as (? & ? & _)];
      auto. }
  split.
  { unfold fetch_miss_state. fields. rewrite disk_manager_write_back, Hdisk. reflexivity. }
  split.
  { rewrite (page_fetch_miss_state s1 p f pg0 r' f Hpg1), Z.eqb_refl.
    unfold fetch_miss_state. fields. reflexivity. }
  split.
  { intros g Hg. rewrite (page_fetch_miss_state s1 p f pg0 r' g Hpg1).
    destruct (Z.eqb_spec f g); [congruence|]. apply (acquired_page _ _ _ _ g Hacq). }
  unfold fetch_miss_state. fields. rewrite Hpt.
  split; [reflexivity|]. split; [assumption|].
  apply not_evictable_pinned.
Qed.

Lemma FetchPage_miss_effect_witness :
  exists pg0,
    page dirty_state 0 = Some pg0 /\ pin_count_ pg0 = 0
    /\ match free_list_ dirty_state with
       | f0 :: rest => 0 = f0 /\ free_list_ (state_after [OpFetchPage 5] dirty_state) = rest
       | [] => evictable (replacer_ dirty_state) 0
               /\ free_list_ (state_after [OpFetchPage 5] dirty_state) = []
       end
    /\ disk_manager_ (state_after [OpFetchPage 5] dirty_state)
       = (if is_dirty_ pg0
          then disk_WritePage (page_id_ pg0) (data_ pg0) (disk_manager_ dirty_state)
          else disk_manager_ dirty_state)
    /\ page (state_after [OpFetchPage 5] dirty_state) 0
       = Some (mkPage (disk_ReadPage 5
                         (disk_manager_ (state_after [OpFetchPage 5] dirty_state)))
                 5 1 false)
    /\ (forall g, g <> 0 -> page (state_after [OpFetchPage 5] dirty_state) g
                           = page dirty_state g)
    /\ page_table_ (state_after [OpFetchPage 5] dirty_state)
       = <[5 := 0]> (delete (page_id_ pg0) (page_table_ dirty_state))
    /\ next_page_id_ (state_after [OpFetchPage 5] dirty_state)
       = next_page_id_ dirty_state
    /\ ~ evictable (replacer_ (state_after [OpFetchPage 5] dirty_state)) 0.
Proof.
  apply (FetchPage_miss_effect dirty_state 5 0 (state_after [OpFetchPage 5] dirty_state)).
  - apply (reachable_run_ops [OpNewPage; OpUnpinPage 0 true] pool1).
    + apply reach_new. lia.
    + vm_compute. reflexivity.
  - vm_compute. reflexivity.
  - vm_compute. reflexivity.
Defined.

End BPMFrames.

(** ** Pinned pages and runs of calls *)

Section BPMPinned.
Import Replacer BPM.
Local Open Scope bpm_scope.
Local Opaque zero_data.

Implicit Types (s : BufferPoolManager) (f g p q : Z) (pg : Page).

Lemma UnpinPage_pinned_facts s p (d : bool) f pg :
  bpm_inv s ->
  page_table_ s !! p = Some f -> page s f = Some pg -> 0 < pin_count_ pg ->
  exists s',
    UnpinPage p d s = Some (true, s')
    /\ page s' f = Some (mkPage (data_ pg) p (pin_count_ pg - 1) d)
    /\ (forall g, g <> f -> page s' g = page s g)
    /\ (evictable (replacer_ s') f <-> pin_count_ pg = 1)
    /\ (forall g, g <> f ->
          evictable (replacer_ s') g <-> evictable (replacer_ s) g)
    /\ page_table_ s' = page_table_ s
    /\ free_list_ s' = free_list_ s
    /\ next_page_id_ s' = next_page_id_ s
    /\ disk_manager_ s' = disk_manager_ s.
Proof.
  intros Hinv Hpt Hpg Hpin.
  destruct (inv_table _ _ Hinv p f Hpt) as (pg' & Hpg' & Hid & Hne).
  assert (pg' = pg) by congruence. subst pg'.
  destruct (inv_pin _ _ Hinv f pg Hpg) as (_ & Hnode & _).
  exists (unpinned_state f pg d s).
  split; [apply UnpinPage_pinned; assumption|].
  split; [rewrite (page_unpinned_state s f pg d f Hpg), Z.eqb_refl, Hid; reflexivity|].
  split.
  { intros g Hg. rewrite (page_unpinned_state s f pg d g Hpg).
    destruct (Z.eqb_spec f g); [congruence | reflexivity]. }
  unfold unpinned_state. cbn zeta.
  destruct (Z.eqb_spec (pin_count_ pg - 1) 0) as [Hz|Hnz];
    cbn [set_replacer put_page set_pages pool_size_ pages_ page_table_ free_list_
         replacer_ next_page_id_ disk_manager_].
  - split.
    { rewrite evictable_SetEvictable, Z.eqb_refl. split; [lia | auto]. }
    split; [|auto].
    intros g Hg. rewrite evictable_SetEvictable.
    destruct (Z.eqb_spec f g); [congruence | reflexivity].
  - split; [|split; [reflexivity | auto]].
    split; [|lia]. intros Hev. pose proof (inv_ev _ _ Hinv f pg Hev Hpg). lia.
Qed.

(** X16. [UnpinPage] of a resident page with a positive pin count returns
    true, lowers the pin count by one and overwrites the dirty flag with its
    argument. The frame becomes evictable exactly when the count reaches
    zero; nothing else changes. *)
Theorem UnpinPage_effect s p (d : bool) f pg :
  reachable s ->
  page_table_ s !! p = Some f -> page s f = Some pg -> 0 < pin_count_ pg ->
  exists s',
    UnpinPage p d s = Some (true, s')
    /\ page s' f = Some (mkPage (data_ pg) p (pin_count_ pg - 1) d)
    /\ (forall g, g <> f -> page s' g = page s g)
    /\ (evictable (replacer_ s') f <-> pin_count_ pg = 1)
    /\ (forall g, g <> f ->
          evictable (replacer_ s') g <-> evictable (replacer_ s) g)
    /\ page_table_ s' = page_table_ s
    /\ free_list_ s' = free_list_ s
    /\ next_page_id_ s' = next_page_id_ s
    /\ disk_manager_ s' = disk_manager_ s.
Proof. intros Hinv%reachable_inv. apply UnpinPage_pinned_facts. assumption. Qed.

Lemma UnpinPage_effect_witness :
  exists s',
    UnpinPage 0 true full_state = Some (true, s')
    /\ page s' 0 = Some (mkPage (data_ (mkPage zero_data 0 1 false)) 0
                           (pin_count_ (mkPage zero_data 0 1 false) - 1) true)
    /\ (forall g, g <> 0 -> page s' g = page full_state g)
    /\ (evictable (replacer_ s') 0 <-> pin_count_ (mkPage zero_data 0 1 false) = 1)
    /\ (forall g, g <> 0 ->
          evictable (replacer_ s') g <-> evictable (replacer_ full_state) g)
    /\ page_table_ s' = page_table_ full_state
    /\ free_list_ s' = free_list_ full_state
    /\ next_page_id_ s' = next_page_id_ full_state
    /\ disk_manager_ s' = disk_manager_ full_state.
Proof.
  apply (UnpinPage_effect full_state 0 true 0 (mkPage zero_data 0 1 false)).
  - apply full_state_reachable.
  - vm_compute. reflexivity.
  - vm_compute. reflexivity.
  - vm_compute. reflexivity.
Defined.

(** X22. A fetch of a resident page followed by [UnpinPage(p, d)] puts the
    pin count back and leaves the bytes, the other frames, the page table,
    the free list and the disk as they were, but the frame's dirty flag is
    now [d]: a reader that unpins with [false] marks a modified page clean
    without anything being written. *)
Theorem FetchPage_UnpinPage s p (d : bool) f pg :
  reachable s -> page_table_ s !! p = Some f -> page s f = Some pg ->
  exists s1 s2,
    FetchPage p s = Some (Some f, s1)
    /\ UnpinPage p d s1 = Some (true, s2)
    /\ page s2 f = Some (mkPage (data_ pg) p (pin_count_ pg) d)
    /\ (forall g, g <> f -> page s2 g = page s g)
    /\ (evictable (replacer_ s2) f <-> pin_count_ pg = 0)
    /\ page_table_ s2 = page_table_ s
    /\ free_list_ s2 = free_list_ s
    /\ next_page_id_ s2 = next_page_id_ s
    /\ disk_manager_ s2 = disk_manager_ s.
Proof.
  intros Hinv%reachable_inv Hpt Hpg.
  destruct (inv_pin _ _ Hinv f pg Hpg) as (Hpin & _).
  destruct (FetchPage_hit_facts s p f pg Hinv Hpt Hpg)
    as (s1 & HF & Hpg1 & Hoth1 & Hpt1 & Hfl1 & Hn1 & Hd1 & _).
  assert (Hinv1 : bpm_inv s1).
  { destruct (FetchPage_inv s p Hinv) as (res & sx & Hx & Hinvx). congruence. }
  destruct (UnpinPage_pinned_facts s1 p d f
              (mkPage (data_ pg) p (pin_count_ pg + 1) true) Hinv1)
    as (s2 & HU & Hpg2 & Hoth2 & Hev2 & _ & Hpt2 & Hfl2 & Hn2 & Hd2);
    [rewrite Hpt1; exact Hpt | exact Hpg1 | cbn [pin_count_]; lia |].
  cbn [data_ pin_count_] in Hpg2, Hev2.
  exists s1, s2. split; [assumption|]. split; [assumption|]. split.
  { rewrite Hpg2. do 2 f_equal. lia. }
  split; [intros g Hg; rewrite Hoth2, Hoth1 by assumption; reflexivity|].
  split; [rewrite Hev2; lia|].
  repeat split; congruence.
Qed.

Lemma FetchPage_UnpinPage_witness :
  exists s1 s2,
    FetchPage 0 dirty_state = Some (Some 0, s1)
    /\ UnpinPage 0 false s1 = Some (true, s2)
    /\ page s2 0 = Some (mkPage (data_ (mkPage zero_data 0 0 true)) 0
                           (pin_count_ (mkPage zero_data 0 0 true)) false)
    /\ (forall g, g <> 0 -> page s2 g = page dirty_state g)
    /\ (evictable (replacer_ s2) 0 <-> pin_count_ (mkPage zero_data 0 0 true) = 0)
    /\ page_table_ s2 = page_table_ dirty_state
    /\ free_list_ s2 = free_list_ dirty_state
    /\ next_page_id_ s2 = next_page_id_ dirty_state
    /\ disk_manager_ s2 = disk_manager_ dirty_state.
Proof.
  apply (FetchPage_UnpinPage dirty_state 0 false 0 (mkPage zero_data 0 0 true)).
  - apply (reachable_run_ops [OpNewPage; OpUnpinPage 0 true] pool1).
    + apply reach_new. lia.
    + vm_compute. reflexivity.
  - vm_compute. reflexivity.
  - vm_compute. reflexivity.
Defined.

(** X25. [UnpinPage] in a reachable state never aborts and returns true
    exactly when the page is resident with a positive pin count. For a page
    that is not resident nothing changes; in every case only the frame the
    page table maps the id to can change. *)
Theorem UnpinPage_result s p (d : bool) :
  reachable s ->
  exists (b : bool) s',
    UnpinPage p d s = Some (b, s')
    /\ (b = true <->
        exists f pg, page_table_ s !! p = Some f /\ page s f = Some pg
                     /\ 0 < pin_count_ pg)
    /\ (page_table_ s !! p = None -> s' = s)
    /\ (forall g, page_table_ s !! p <> Some g -> page s' g = page s g)
    /\ page_table_ s' = page_table_ s
    /\ disk_manager_ s' = disk_manager_ s.
Proof.
  intros Hinv%reachable_inv. destruct (page_table_ s !! p) as [f|] eqn:Hpt.
  - destruct (inv_table _ _ Hinv p f Hpt) as (pg & Hpg & _).
    destruct (Z.le_gt_cases (pin_count_ pg) 0) as [Hle|Hgt].
    + eexists false, _.
      split; [apply (UnpinPage_unpinned s p d f pg); assumption|].
      split.
      { split; [discriminate|]. intros (f' & pg' & [= <-] & Hpg' & Hpos).
        assert (pg' = pg) by congruence. subst. lia. }
      split; [discriminate|]. split; [|split; reflexivity].
      intros g Hg. rewrite (page_put_page s f g _ pg Hpg).
      destruct (Z.eqb_spec f g); [congruence | reflexivity].
    + eexists true, _.
      split; [apply (UnpinPage_pinned s p d f pg); assumption|].
      split; [split; [intros _; exists f, pg; auto | reflexivity]|].
      split; [discriminate|]. split.
      { intros g Hg. rewrite (page_unpinned_state s f pg d g Hpg).
        destruct (Z.eqb_spec f g); [congruence | reflexivity]. }
      unfold unpinned_state. cbn zeta.
      destruct (pin_count_ pg - 1 =? 0); split; reflexivity.
  - exists false, s. split; [apply UnpinPage_not_resident; assumption|].
    split; [split; [discriminate | intros (f & pg & [=] & _)]|].
    auto.
Qed.

Lemma UnpinPage_result_witness :
  exists (b : bool) s',
    UnpinPage 0 true full_state = Some (b, s')
    /\ (b = true <->
        exists f pg, page_table_ full_state !! 0 = Some f /\ page full_state f = Some pg
                     /\ 0 < pin_count_ pg)
    /\ (page_table_ full_state !! 0 = None -> s' = full_state)
    /\ (forall g, page_table_ full_state !! 0 <> Some g -> page s' g = page full_state g)
    /\ page_table_ s' = page_table_ full_state
    /\ disk_manager_ s' = disk_manager_ full_state.
Proof. apply (UnpinPage_result full_state 0 true). apply full_state_reachable. Defined.

(** The calls that release a pin of page [p], and those that write through
    the pointer to frame [f]. *)
Definition releases p (o : op) : Prop :=
  match o with
  | OpUnpinPage q _ | OpGuardDrop q _ => q = p
  | _ => False
  end.

Definition writes_to f (o : op) : Prop :=
  match o with
  | OpWriteData g _ => g = f
  | _ => False
  end.

(** What one call leaves of a pinned frame. *)
Definition pinned_kept (o : op) s s' : Prop :=
  forall f pg, page s f = Some pg -> 0 < pin_count_ pg ->
    exists pg', page s' f = Some pg'
      /\ page_id_ pg' = page_id_ pg
      /\ (~ writes_to f o -> data_ pg' = data_ pg)
      /\ (~ releases (page_id_ pg) o -> pin_count_ pg <= pin_count_ pg').

Lemma pinned_kept_same (o : op) s s' :
  (forall f, page s' f = page s f) -> pinned_kept o s s'.
Proof.
  intros Hsame f pg Hpg _. exists pg. rewrite Hsame. repeat split; auto. lia.
Qed.

(** A step that rewrites frame [f0] only, and keeps it if it was pinned. *)
Lemma pinned_kept_one (o : op) s s' f0 pg0 pgN :
  page s f0 = Some pg0 ->
  (forall g, page s' g = if Z.eqb f0 g then Some pgN else page s g) ->
  (0 < pin_count_ pg0 ->
   page_id_ pgN = page_id_ pg0
   /\ (~ writes_to f0 o -> data_ pgN = data_ pg0)
   /\ (~ releases (page_id_ pg0) o -> pin_count_ pg0 <= pin_count_ pgN)) ->
  pinned_kept o s s'.
Proof.
  intros H0 Hpage Hkeep f pg Hpg Hpin. rewrite Hpage.
  destruct (Z.eqb_spec f0 f) as [->|Hne].
  - assert (pg0 = pg) by congruence. subst pg0. exists pgN. split; [reflexivity|].
    apply Hkeep. assumption.
  - exists pg. repeat split; auto. lia.
Qed.

Lemma UnpinPage_kept s p (d : bool) (o : op) b s' :
  bpm_inv s -> releases p o -> UnpinPage p d s = Some (b, s') ->
  pool_size_ s' = pool_size_ s /\ pinned_kept o s s'.
Proof.
  intros Hinv Hrel H. destruct (page_table_ s !! p) as [f0|] eqn:Hpt.
  - destruct (inv_table _ _ Hinv p f0 Hpt) as (pg0 & Hpg0 & Hid & _).
    destruct (Z.le_gt_cases (pin_count_ pg0) 0) as [Hle|Hgt].
    + rewrite (UnpinPage_unpinned s p d f0 pg0 Hpt Hpg0 Hle) in H.
      injection H as <- <-. split; [reflexivity|].
      apply (pinned_kept_one o s _ f0 pg0 (with_is_dirty d pg0) Hpg0).
      * intros g. apply (page_put_page s f0 g _ pg0 Hpg0).
      * lia.
    + rewrite (UnpinPage_pinned s p d f0 pg0 Hpt Hpg0 Hgt) in H.
      injection H as <- <-. split.
      { unfold unpinned_state. cbn zeta. destruct (pin_count_ pg0 - 1 =? 0); reflexivity. }
      apply (pinned_kept_one o s _ f0 pg0
               (mkPage (data_ pg0) (page_id_ pg0) (pin_count_ pg0 - 1) d) Hpg0).
      * intros g. apply page_unpinned_state. assumption.
      * intros _. cbn [page_id_ data_ pin_count_]. rewrite Hid.
        split; [reflexivity|]. split; [reflexivity|]. intros Hn. contradiction.
  - rewrite (UnpinPage_not_resident s p d Hpt) in H. injection H as <- <-.
    split; [reflexivity|]. apply pinned_kept_same. reflexivity.
Qed.

Lemma flush_related_kept (o : op) s s' :
  flush_related s s' -> pool_size_ s' = pool_size_ s /\ pinned_kept o s s'.
Proof.
  intros (Hps & _ & _ & _ & _ & Hfr). split; [assumption|].
  intros f pg Hpg _. destruct (Hfr f pg Hpg) as (pg' & Hpg' & Hdata & Hid & Hpin & _).
  exists pg'. repeat split; auto. lia.
Qed.

Lemma run_op_kept s (o : op) s' :
  bpm_inv s -> run_op o s = Some (tt, s') ->
  pool_size_ s' = pool_size_ s /\ pinned_kept o s s'.
Proof.
  intros Hinv H. destruct o as [|p|p d|p| |p|p d|f0 bytes]; cbn [run_op] in H.
  - destruct (NewPage_cases s Hinv)
      as [(r' & HN & _) | (f & pg0 & s1 & r' & HN & Hacq & _ & _)];
      rewrite (bind_run _ _ _ _ _ HN) in H; injection H as <-.
    + split; [reflexivity|]. apply pinned_kept_same. reflexivity.
    + pose proof Hacq as (Hpg0 & Hpin & _ & _ & _ & _ & Hps & _).
      assert (Hpg1 : page s1 f = Some pg0)
        by (rewrite (acquired_page _ _ _ _ f Hacq); exact Hpg0).
      split.
      { unfold new_page_state.
        cbn [set_replacer put_page set_pages set_page_table set_next_page_id pool_size_].
        rewrite pool_size_write_back. assumption. }
      intros g pg Hpg Hpos.
      assert (g <> f) by (intros ->; assert (pg = pg0) by congruence; subst; lia).
      exists pg. rewrite (page_new_page_state_other s1 f pg0 r' g Hpg1) by assumption.
      rewrite (acquired_page _ _ _ _ g Hacq). repeat split; auto. lia.
  - destruct (FetchPage_cases s p Hinv)
      as [(Hp & HF) | [(f & pg0 & r' & Hp & Hpt & Hpg0 & Hid & _ & HF & _)
         | [(r' & Hp & Hpt & HF & _)
         | (f & pg0 & s1 & r' & Hp & Hpt & HF & Hacq & _ & _)]]];
      rewrite (bind_run _ _ _ _ _ HF) in H; injection H as <-.
    + split; [reflexivity|]. apply pinned_kept_same. reflexivity.
    + split; [reflexivity|].
      apply (pinned_kept_one _ s _ f pg0
               (mkPage (data_ pg0) (page_id_ pg0) (pin_count_ pg0 + 1) true) Hpg0).
      * intros g. apply page_fetch_hit_state. assumption.
      * intros _. cbn [page_id_ data_ pin_count_]. repeat split; auto. lia.
    + split; [reflexivity|]. apply pinned_kept_same. reflexivity.
    + pose proof Hacq as (Hpg0 & Hpin & _ & _ & _ & _ & Hps & _).
      assert (Hpg1 : page s1 f = Some pg0)
        by (rewrite (acquired_page _ _ _ _ f Hacq); exact Hpg0).
      split.
      { unfold fetch_miss_state.
        cbn [set_replacer put_page set_pages set_page_table pool_size_].
        rewrite pool_size_write_back. assumption. }
      intros g pg Hpg Hpos.
      assert (g <> f) by (intros ->; assert (pg = pg0) by congruence; subst; lia).
      exists pg. rewrite (page_fetch_miss_state s1 p f pg0 r' g Hpg1).
      destruct (Z.eqb_spec f g); [congruence|].
      rewrite (acquired_page _ _ _ _ g Hacq). repeat split; auto. lia.
  - destruct (bind_inv _ _ _ _ _ H) as (b & s1 & HU & Hret). injection Hret as <-.
    apply (UnpinPage_kept s p d _ b s1 Hinv); [reflexivity | assumption].
  - destruct (FlushPage_effect s p Hinv)
      as [(HF & _) | (f & pg0 & _ & _ & _ & Hpg0 & HF)];
      rewrite (bind_run _ _ _ _ _ HF) in H; injection H as <-.
    + split; [reflexivity|]. apply pinned_kept_same. reflexivity.
    + apply flush_related_kept. apply flushed_related. assumption.
  - destruct (FlushAllPages_flush s Hinv) as (s1 & H1 & _ & (Hrel & _) & _).
    rewrite H1 in H. injection H as <-. apply flush_related_kept. assumption.
  - destruct (page_table_ s !! p) as [f|] eqn:Hpt.
    + destruct (inv_table _ _ Hinv p f Hpt) as (pg0 & Hpg0 & Hid & _).
      destruct (Z.le_gt_cases (pin_count_ pg0) 0) as [Hle|Hgt].
      * rewrite (bind_run _ _ _ _ _ (DeletePage_unpinned s p f pg0 Hpt Hpg0 Hle)) in H.
        injection H as <-. split; [reflexivity|].
        apply (pinned_kept_one _ s _ f pg0
                 (mkPage zero_data INVALID_PAGE_ID 0 false) Hpg0).
        -- intros g. apply (page_deleted_state s p f pg0 g Hpg0).
        -- lia.
      * rewrite (bind_run _ _ _ _ _ (DeletePage_pinned s p f pg0 Hpt Hpg0 Hgt)) in H.
        injection H as <-. split; [reflexivity|]. apply pinned_kept_same. reflexivity.
    + rewrite (bind_run _ _ _ _ _ (DeletePage_not_resident s p Hpt)) in H.
      injection H as <-. split; [reflexivity|]. apply pinned_kept_same. reflexivity.
  - unfold GuardDrop in H.
    destruct (bind_inv _ _ _ _ _ H) as (b & s1 & HU & Hret). injection Hret as <-.
    apply (UnpinPage_kept s p d _ b s1 Hinv); [reflexivity | assumption].
  - destruct (page s f0) as [pg0|] eqn:Hpg0.
    + rewrite (WriteData_run s f0 pg0 bytes Hpg0) in H. injection H as <-.
      split; [reflexivity|].
      apply (pinned_kept_one _ s _ f0 pg0 (with_data bytes pg0) Hpg0).
      * intros g. apply (page_put_page s f0 g _ pg0 Hpg0).
      * intros _. cbn [with_data page_id_ data_ pin_count_ writes_to].
        split; [reflexivity|]. split; [intros Hn; contradiction | lia].
    + unfold WriteData, update_page, bind in H.
      rewrite (page_at_fail _ _ Hpg0) in H. discriminate.
Qed.

Lemma run_ops_kept (os : list op) : forall s s' f pg,
  bpm_inv s -> page s f = Some pg -> 0 < pin_count_ pg ->
  Forall (fun o => ~ releases (page_id_ pg) o /\ ~ writes_to f o) os ->
  run_ops os s = Some (tt, s') ->
  exists pg', page s' f = Some pg' /\ page_id_ pg' = page_id_ pg
              /\ data_ pg' = data_ pg /\ pin_count_ pg <= pin_count_ pg'.
Proof.
  induction os as [|o os IH]; intros s s' f pg Hinv Hpg Hpin Hall H.
  - injection H as <-. exists pg. repeat split; auto. lia.
  - cbn [run_ops] in H. destruct (bind_inv _ _ _ _ _ H) as ([] & s1 & Ho & Hrest).
    apply Forall_cons in Hall as [[Hrel Hwr] Hall].
    destruct (run_op_kept s o s1 Hinv Ho) as (_ & Hkept).
    destruct (Hkept f pg Hpg Hpin) as (pg1 & Hpg1 & Hid1 & Hdata1 & Hpin1).
    specialize (Hdata1 Hwr). specialize (Hpin1 Hrel).
    destruct (IH s1 s' f pg1 (run_op_inv _ _ _ Hinv Ho) Hpg1) as (pg' & Hpg' & Hid & Hdata & Hpin');
      [lia | rewrite Hid1; exact Hall | exact Hrest |].
    exists pg'. split; [assumption|]. split; [congruence|]. split; [congruence | lia].
Qed.

(** X17. A pinned frame is never taken away: through any run of calls that
    neither unpins its page id nor writes through its pointer, the frame
    keeps its page id and its bytes and stays pinned, whatever is created,
    fetched, flushed or deleted meanwhile. *)
Theorem pinned_frame_kept (os : list op) s s' f pg :
  reachable s -> page s f = Some pg -> 0 < pin_count_ pg ->
  Forall (fun o => ~ releases (page_id_ pg) o /\ ~ writes_to f o) os ->
  run_ops os s = Some (tt, s') ->
  exists pg', page s' f = Some pg' /\ page_id_ pg' = page_id_ pg
              /\ data_ pg' = data_ pg /\ pin_count_ pg <= pin_count_ pg'.
Proof. intros Hinv%reachable_inv. apply run_ops_kept. assumption. Qed.

(** Page 0 pinned in frame 0 of a pool of two frames, and a run that
    fills, evicts and reuses the other frame. *)
Definition pinned_state : BufferPoolManager := state_after [OpNewPage] pool2.

Definition busy_run : list op :=
  [OpNewPage; OpUnpinPage 1 true; OpFetchPage 3; OpFlushAllPages; OpDeletePage 0;
   OpFetchPage 0; OpUnpinPage 3 false; OpNewPage].

Lemma pinned_frame_kept_witness :
  exists pg', page (state_after busy_run pinned_state) 0 = Some pg'
              /\ page_id_ pg' = page_id_ (mkPage zero_data 0 1 false)
              /\ data_ pg' = data_ (mkPage zero_data 0 1 false)
              /\ pin_count_ (mkPage zero_data 0 1 false) <= pin_count_ pg'.
Proof.
  apply (pinned_frame_kept busy_run pinned_state (state_after busy_run pinned_state) 0
           (mkPage zero_data 0 1 false)).
  - apply (reachable_run_ops [OpNewPage] pool2).
    + apply reach_new. lia.
    + vm_compute. reflexivity.
  - vm_compute. reflexivity.
  - vm_compute. reflexivity.
  - unfold busy_run. repeat (constructor; [cbn; split; [lia | tauto]|]). constructor.
  - vm_compute. reflexivity.
Defined.

(** X18. No call of the pool aborts: from a reachable state every run of
    calls (with client writes going to frames of the pool) runs to its end,
    in a reachable state of the same pool size. *)
Theorem run_ops_total (os : list op) : forall s,
  reachable s ->
  Forall (fun o => forall f bytes, o = OpWriteData f bytes ->
                     0 <= f < Z.of_nat (pool_size_ s)) os ->
  exists s', run_ops os s = Some (tt, s') /\ reachable s'
             /\ pool_size_ s' = pool_size_ s.
Proof.
  induction os as [|o os IH]; intros s Hreach Hall.
  - exists s. auto.
  - apply Forall_cons in Hall as [Ho Hall]. cbn [run_ops].
    pose proof (reachable_inv s Hreach) as Hinv.
    destruct (run_op_total s o Hreach) as (s1 & H1).
    { intros f bytes Hw. apply page_in_range. rewrite (inv_len _ _ Hinv).
      specialize (Ho f bytes Hw). lia. }
    destruct (run_op_kept s o s1 Hinv H1) as (Hps & _).
    destruct (IH s1) as (s' & H' & Hreach' & Hps').
    { eapply reach_step; eassumption. }
    { rewrite Hps. exact Hall. }
    exists s'. rewrite (bind_run _ _ _ _ _ H1). split; [assumption|].
    split; [assumption | congruence].
Qed.

Lemma run_ops_total_witness :
  exists s', run_ops [OpNewPage; OpWriteData 1 bytes_W; OpUnpinPage 0 true;
                      OpFlushAllPages; OpDeletePage 0] pool2 = Some (tt, s')
             /\ reachable s' /\ pool_size_ s' = pool_size_ pool2.
Proof.
  apply (run_ops_total [OpNewPage; OpWriteData 1 bytes_W; OpUnpinPage 0 true;
                        OpFlushAllPages; OpDeletePage 0] pool2).
  - apply reach_new. lia.
  - repeat (constructor; [intros f bytes [=]; subst; change (0 <= 1 < 2); lia|]).
    constructor.
Defined.

(** X19. The bookkeeping of every reachable state: a page-table entry
    points to a frame that holds that page id, so no two ids share a frame;
    the free list has no duplicates, and its frames hold no page, are
    unpinned and unmapped; pin counts are never negative; an evictable
    frame is unpinned, and an unpinned frame is in the free list or
    evictable. *)
Theorem reachable_bookkeeping s :
  reachable s ->
  List.length (pages_ s) = pool_size_ s
  /\ (forall p f, page_table_ s !! p = Some f ->
        p <> INVALID_PAGE_ID /\ exists pg, page s f = Some pg /\ page_id_ pg = p)
  /\ (forall p q f, page_table_ s !! p = Some f -> page_table_ s !! q = Some f ->
        p = q)
  /\ NoDup (free_list_ s)
  /\ (forall f, f ∈ free_list_ s ->
        (exists pg, page s f = Some pg /\ page_id_ pg = INVALID_PAGE_ID
                    /\ pin_count_ pg = 0)
        /\ forall p, page_table_ s !! p <> Some f)
  /\ (forall f pg, page s f = Some pg ->
        0 <= pin_count_ pg
        /\ (evictable (replacer_ s) f -> pin_count_ pg = 0)
        /\ (pin_count_ pg = 0 -> f ∈ free_list_ s \/ evictable (replacer_ s) f)).
Proof.
  intros Hinv%reachable_inv.
  split; [apply (inv_len _ _ Hinv)|]. split.
  { intros p f Hp. destruct (inv_table _ _ Hinv p f Hp) as (pg & Hpg & Hid & Hne). eauto. }
  split.
  { intros p q f Hp Hq.
    destruct (inv_table _ _ Hinv p f Hp) as (pg & Hpg & Hid & _).
    destruct (inv_table _ _ Hinv q f Hq) as (pg' & Hpg' & Hid' & _). congruence. }
  split; [apply (inv_free_nodup _ _ Hinv)|]. split.
  { intros f Hf. destruct (inv_free _ _ Hinv f Hf) as (pg & Hpg & Hpin & Hid).
    split; [eauto|]. intros p Hp.
    destruct (inv_table _ _ Hinv p f Hp) as (pg' & Hpg' & Hid' & Hne). congruence. }
  intros f pg Hpg. destruct (inv_pin _ _ Hinv f pg Hpg) as (H0 & _ & Hz).
  split; [assumption|]. split.
  - intros Hev. apply (inv_ev _ _ Hinv f pg Hev Hpg).
  - apply Hz. discriminate.
Qed.

Lemma reachable_bookkeeping_witness :
  List.length (pages_ stale_state) = pool_size_ stale_state
  /\ (forall p f, page_table_ stale_state !! p = Some f ->
        p <> INVALID_PAGE_ID /\ exists pg, page stale_state f = Some pg /\ page_id_ pg = p)
  /\ (forall p q f, page_table_ stale_state !! p = Some f ->
        page_table_ stale_state !! q = Some f -> p = q)
  /\ NoDup (free_list_ stale_state)
  /\ (forall f, f ∈ free_list_ stale_state ->
        (exists pg, page stale_state f = Some pg /\ page_id_ pg = INVALID_PAGE_ID
                    /\ pin_count_ pg = 0)
        /\ forall p, page_table_ stale_state !! p <> Some f)
  /\ (forall f pg, page stale_state f = Some pg ->
        0 <= pin_count_ pg
        /\ (evictable (replacer_ stale_state) f -> pin_count_ pg = 0)
        /\ (pin_count_ pg = 0 ->
            f ∈ free_list_ stale_state \/ evictable (replacer_ stale_state) f)).
Proof. apply (reachable_bookkeeping stale_state). apply stale_state_reachable. Defined.

End BPMPinned.

(** ** What reaches the disk *)

Section BPMDisk.
Import Replacer BPM.
Local Open Scope bpm_scope.
Local Opaque zero_data.

Implicit Types (s : BufferPoolManager) (f g p q : Z) (pg : Page).

(** A frame that holds no page is clean. *)
Definition invalid_clean s : Prop :=
  forall f pg, page s f = Some pg -> page_id_ pg = INVALID_PAGE_ID ->
    is_dirty_ pg = false.

Lemma invalid_clean_same s s' :
  (forall f, page s' f = page s f) -> invalid_clean s -> invalid_clean s'.
Proof. intros Hsame Hc f pg Hpg. rewrite Hsame in Hpg. eauto. Qed.

Lemma invalid_clean_one s s' f0 pgN :
  (forall g, page s' g = if Z.eqb f0 g then Some pgN else page s g) ->
  (page_id_ pgN = INVALID_PAGE_ID -> is_dirty_ pgN = false) ->
  invalid_clean s -> invalid_clean s'.
Proof.
  intros Hpage HN Hc f pg. rewrite Hpage.
  destruct (Z.eqb_spec f0 f); [intros [= <-]; assumption | apply Hc].
Qed.

Lemma invalid_clean_flush s s' :
  flush_related s s' -> bpm_inv s -> bpm_inv s' ->
  invalid_clean s -> invalid_clean s'.
Proof.
  intros Hrel Hinv Hinv' Hc f pg' Hpg' Hid.
  destruct (flush_related_back s s' f pg' Hinv Hinv' Hrel Hpg')
    as (pg & Hpg & _ & Hi & _ & Hd).
  destruct (is_dirty_ pg') eqn:E; [|reflexivity].
  rewrite <- (Hc f pg Hpg) by congruence. symmetry. apply Hd. reflexivity.
Qed.

(** The write-back of the frame [NewPage] and [DoFetchPage] reuse. *)
Lemma write_back_writes s f pg0 s1 s' :
  invalid_clean s -> acquired s f pg0 s1 ->
  disk_manager_ s' = disk_manager_ (write_back pg0 s1) ->
  writes_frames s s'.
Proof.
  intros Hc (Hpg0 & _ & _ & _ & _ & Hdisk & _) Hd.
  rewrite disk_manager_write_back, Hdisk in Hd.
  destruct (is_dirty_ pg0) eqn:E.
  - apply (writes_frames_one s s' f pg0 Hpg0); [|assumption].
    intros Hid. rewrite (Hc f pg0 Hpg0 Hid) in E. discriminate.
  - apply writes_frames_same. assumption.
Qed.

Lemma UnpinPage_writes s p (d : bool) b s' :
  bpm_inv s -> invalid_clean s -> UnpinPage p d s = Some (b, s') ->
  invalid_clean s' /\ writes_frames s s'.
Proof.
  intros Hinv Hc H. destruct (page_table_ s !! p) as [f0|] eqn:Hpt.
  - destruct (inv_table _ _ Hinv p f0 Hpt) as (pg0 & Hpg0 & Hid & Hne).
    destruct (Z.le_gt_cases (pin_count_ pg0) 0) as [Hle|Hgt].
    + rewrite (UnpinPage_unpinned s p d f0 pg0 Hpt Hpg0 Hle) in H.
      injection H as <- <-. split; [|apply writes_frames_same; reflexivity].
      apply (invalid_clean_one s _ f0 (with_is_dirty d pg0));
        [|cbn [with_is_dirty page_id_]; congruence|assumption].
      intros g. apply (page_put_page s f0 g _ pg0 Hpg0).
    + rewrite (UnpinPage_pinned s p d f0 pg0 Hpt Hpg0 Hgt) in H.
      injection H as <- <-. split.
      * apply (invalid_clean_one s _ f0
                 (mkPage (data_ pg0) (page_id_ pg0) (pin_count_ pg0 - 1) d));
          [|cbn [page_id_]; congruence|assumption].
        intros g. apply page_unpinned_state. assumption.
      * apply writes_frames_same. unfold unpinned_state. cbn zeta.
        destruct (pin_count_ pg0 - 1 =? 0); reflexivity.
  - rewrite (UnpinPage_not_resident s p d Hpt) in H. injection H as <- <-.
    split; [assumption | apply writes_frames_same; reflexivity].
Qed.

Lemma run_op_writes s (o : op) s' :
  bpm_inv s -> invalid_clean s -> run_op o s = Some (tt, s') ->
  invalid_clean s' /\ writes_frames s s'.
Proof.
  intros Hinv Hc H. destruct o as [|p|p d|p| |p|p d|f0 bytes]; cbn [run_op] in H.
  - destruct (NewPage_cases s Hinv)
      as [(r' & HN & _) | (f & pg0 & s1 & r' & HN & Hacq & _ & _)];
      rewrite (bind_run _ _ _ _ _ HN) in H; injection H as <-.
    + split; [assumption | apply writes_frames_same; reflexivity].
    + pose proof Hacq as (Hpg0 & _ & _ & _ & Hnext & _ & _ & _ & Hinv1).
      assert (Hpg1 : page s1 f = Some pg0)
        by (rewrite (acquired_page _ _ _ _ f Hacq); exact Hpg0).
      split; [|apply (write_back_writes s f pg0 s1); auto].
      intros g pg Hpg Hid. destruct (Z.eq_dec g f) as [->|Hg].
      * rewrite page_new_page_state in Hpg by assumption.
        injection Hpg as <-. reflexivity.
      * rewrite (page_new_page_state_other s1 f pg0 r' g Hpg1 Hg) in Hpg.
        rewrite (acquired_page _ _ _ _ g Hacq) in Hpg. eauto.
  - destruct (FetchPage_cases s p Hinv)
      as [(Hp & HF) | [(f & pg0 & r' & Hp & Hpt & Hpg0 & Hid & _ & HF & _)
         | [(r' & Hp & Hpt & HF & _)
         | (f & pg0 & s1 & r' & Hp & Hpt & HF & Hacq & _ & _)]]];
      rewrite (bind_run _ _ _ _ _ HF) in H; injection H as <-.
    + split; [assumption | apply writes_frames_same; reflexivity].
    + split; [|apply writes_frames_same; reflexivity].
      apply (invalid_clean_one s _ f
               (mkPage (data_ pg0) (page_id_ pg0) (pin_count_ pg0 + 1) true));
        [|cbn [page_id_]; congruence|assumption].
      intros g. apply page_fetch_hit_state. assumption.
    + split; [assumption | apply writes_frames_same; reflexivity].
    + pose proof Hacq as (Hpg0 & _).
      assert (Hpg1 : page s1 f = Some pg0)
        by (rewrite (acquired_page _ _ _ _ f Hacq); exact Hpg0).
      split; [|apply (write_back_writes s f pg0 s1); auto].
      apply (invalid_clean_one s _ f
               (mkPage (disk_ReadPage p (disk_manager_ (write_back pg0 s1))) p 1 false));
        [|reflexivity|assumption].
      intros g. rewrite (page_fetch_miss_state s1 p f pg0 r' g Hpg1).
      rewrite (acquired_page _ _ _ _ g Hacq). reflexivity.
  - destruct (bind_inv _ _ _ _ _ H) as (b & s1 & HU & Hret). injection Hret as <-.
    apply (UnpinPage_writes s p d b s1); assumption.
  - destruct (FlushPage_effect s p Hinv)
      as [(HF & _) | (f & pg0 & Hp & _ & Hpt & Hpg0 & HF)];
      rewrite (bind_run _ _ _ _ _ HF) in H; injection H as <-.
    + split; [assumption | apply writes_frames_same; reflexivity].
    + destruct (inv_table _ _ Hinv p f Hpt) as (pgt & Hgt & Hidt & _).
      assert (pgt = pg0) by congruence. subst pgt. split.
      * apply (invalid_clean_one s _ f (with_is_dirty false pg0));
          [|reflexivity|assumption].
        intros g. rewrite (page_put_page (set_disk _ s) f g _ pg0)
          by (apply page_set_disk; exact Hpg0). reflexivity.
      * apply (writes_frames_one s _ f pg0 Hpg0); [congruence|].
        cbn [put_page set_pages set_disk disk_manager_]. rewrite Hidt. reflexivity.
  - destruct (FlushAllPages_flush s Hinv) as (s1 & H1 & Hinv1 & (Hrel & _) & _ & Hw).
    rewrite H1 in H. injection H as <-.
    split; [apply (invalid_clean_flush s s1) |]; assumption.
  - destruct (page_table_ s !! p) as [f|] eqn:Hpt.
    + destruct (inv_table _ _ Hinv p f Hpt) as (pg0 & Hpg0 & Hid & _).
      destruct (Z.le_gt_cases (pin_count_ pg0) 0) as [Hle|Hgt].
      * rewrite (bind_run _ _ _ _ _ (DeletePage_unpinned s p f pg0 Hpt Hpg0 Hle)) in H.
        injection H as <-. split; [|apply writes_frames_same; reflexivity].
        apply (invalid_clean_one s _ f (mkPage zero_data INVALID_PAGE_ID 0 false));
          [|reflexivity|assumption].
        intros g. apply (page_deleted_state s p f pg0 g Hpg0).
      * rewrite (bind_run _ _ _ _ _ (DeletePage_pinned s p f pg0 Hpt Hpg0 Hgt)) in H.
        injection H as <-.
        split; [assumption | apply writes_frames_same; reflexivity].
    + rewrite (bind_run _ _ _ _ _ (DeletePage_not_resident s p Hpt)) in H.
      injection H as <-. split; [assumption | apply writes_frames_same; reflexivity].
  - unfold GuardDrop in H.
    destruct (bind_inv _ _ _ _ _ H) as (b & s1 & HU & Hret). injection Hret as <-.
    apply (UnpinPage_writes s p d b s1); assumption.
  - destruct (page s f0) as [pg0|] eqn:Hpg0.
    + rewrite (WriteData_run s f0 pg0 bytes Hpg0) in H. injection H as <-.
      split; [|apply writes_frames_same; reflexivity].
      apply (invalid_clean_one s _ f0 (with_data bytes pg0)); [| |assumption].
      * intros g. apply (page_put_page s f0 g _ pg0 Hpg0).
      * cbn [with_data page_id_ is_dirty_]. apply (Hc f0 pg0 Hpg0).
    + unfold WriteData, update_page, bind in H.
      rewrite (page_at_fail _ _ Hpg0) in H. discriminate.
Qed.

Lemma reachable_invalid_clean s : reachable s -> invalid_clean s.
Proof.
  induction 1 as [pool_size disk k Hmax | s s' o Hreach IH Hstep].
  - intros f pg. rewrite page_new. destruct (_ && _); [|discriminate].
    intros [= <-] _. reflexivity.
  - apply (run_op_writes s o s' (reachable_inv s Hreach) IH Hstep).
Qed.

(** X20. Whatever a call writes to disk is the bytes of a frame, written
    under the page id that frame holds when the call starts; nothing is ever
    written under [INVALID_PAGE_ID]. A frame that holds no page is clean. *)
Theorem disk_writes_are_frames s (o : op) s' :
  reachable s -> run_op o s = Some (tt, s') ->
  (exists l,
     writes_ (disk_manager_ s') = writes_ (disk_manager_ s) ++ l
     /\ forall q bytes, (q, bytes) ∈ l ->
          q <> INVALID_PAGE_ID
          /\ exists f pg, page s f = Some pg /\ page_id_ pg = q /\ data_ pg = bytes)
  /\ (forall f pg, page s' f = Some pg -> page_id_ pg = INVALID_PAGE_ID ->
        is_dirty_ pg = false).
Proof.
  intros Hreach H.
  destruct (run_op_writes s o s' (reachable_inv s Hreach)
              (reachable_invalid_clean s Hreach) H) as (Hc & l & Hl & Hall).
  split; [|exact Hc].
  exists l. split; [assumption|]. intros q bytes Hin.
  rewrite Forall_forall in Hall. apply (Hall (q, bytes) Hin).
Qed.

Lemma disk_writes_are_frames_witness :
  (exists l,
     writes_ (disk_manager_ (state_after [OpNewPage] dirty_state))
     = writes_ (disk_manager_ dirty_state) ++ l
     /\ forall q bytes, (q, bytes) ∈ l ->
          q <> INVALID_PAGE_ID
          /\ exists f pg, page dirty_state f = Some pg /\ page_id_ pg = q
                          /\ data_ pg = bytes)
  /\ (forall f pg, page (state_after [OpNewPage] dirty_state) f = Some pg ->
        page_id_ pg = INVALID_PAGE_ID -> is_dirty_ pg = false).
Proof.
  apply (disk_writes_are_frames dirty_state OpNewPage
           (state_after [OpNewPage] dirty_state)).
  - apply (reachable_run_ops [OpNewPage; OpUnpinPage 0 true] pool1).
    + apply reach_new. lia.
    + vm_compute. reflexivity.
  - vm_compute. reflexivity.
Defined.

(** X23. [DeletePage] drops what was not flushed: after the delete of an
    unpinned resident page, which appends its frame to the free list, a
    fetch of the same id takes the frame at the front of the free list (and
    pops it), writes nothing back, and loads the page as the disk had it
    before the delete, whatever bytes the deleted frame held and whether or
    not it was dirty. *)
Theorem DeletePage_FetchPage s p f pg :
  reachable s -> page_table_ s !! p = Some f -> page s f = Some pg ->
  pin_count_ pg = 0 ->
  exists s1 f' s2,
    DeletePage p s = Some (true, s1)
    /\ free_list_ s1 = free_list_ s ++ [f]
    /\ FetchPage p s1 = Some (Some f', s2)
    /\ head (free_list_ s1) = Some f'
    /\ free_list_ s2 = tail (free_list_ s1)
    /\ page s2 f' = Some (mkPage (disk_ReadPage p (disk_manager_ s)) p 1 false)
    /\ disk_manager_ s2 = disk_manager_ s.
Proof.
  intros Hreach Hpt Hpg Hpin.
  pose proof (reachable_inv s Hreach) as Hinv.
  destruct (inv_table _ _ Hinv p f Hpt) as (_ & _ & _ & Hne).
  assert (HD : DeletePage p s = Some (true, deleted_state p f s))
    by (apply (DeletePage_unpinned s p f pg); [assumption | assumption | lia]).
  assert (Hreach1 : reachable (deleted_state p f s)).
  { apply (reach_step s _ (OpDeletePage p) Hreach). cbn [run_op].
    rewrite (bind_run _ _ _ _ _ HD). reflexivity. }
  pose proof (reachable_inv _ Hreach1) as Hinv1.
  pose proof (reachable_invalid_clean _ Hreach1) as Hc1.
  assert (Hpt1 : page_table_ (deleted_state p f s) !! p = None).
  { unfold deleted_state. cbn [put_page set_pages set_free_list set_page_table
      page_table_]. apply lookup_delete_eq. }
  destruct (FetchPage_cases _ p Hinv1)
    as [(Hp & _) | [(f' & pg0 & r' & _ & Hx & _)
       | [(r' & _ & _ & _ & Hfl & _)
       | (f' & pg0 & sx & r' & _ & _ & HF & _)]]].
  - contradiction.
  - congruence.
  - exfalso. revert Hfl. unfold deleted_state.
    cbn [put_page set_pages set_free_list set_page_table free_list_].
    destruct (free_list_ s); discriminate.
  - destruct (FetchPage_miss_some _ p f' _ Hinv1 Hpt1 HF)
      as (pg1 & s1' & r1 & HG & Hacq & _ & _ & _ & Hs2).
    pose proof (GetAvailableFrameId_source _ f' s1' Hinv1 HG) as Hsrc.
    pose proof Hacq as (Hpg1 & _ & _ & _ & _ & Hdisk & _).
    assert (Hfront : head (free_list_ (deleted_state p f s)) = Some f'
                     /\ free_list_ s1' = tail (free_list_ (deleted_state p f s))).
    { destruct (free_list_ (deleted_state p f s)) as [|f0 rest] eqn:Hfl.
      - exfalso. revert Hfl. unfold deleted_state.
        cbn [put_page set_pages set_free_list set_page_table free_list_].
        destruct (free_list_ s); discriminate.
      - destruct Hsrc as (-> & -> & _). split; reflexivity. }
    destruct Hfront as [Hhead Htail].
    assert (Hin : f' ∈ free_list_ (deleted_state p f s)).
    { destruct (free_list_ (deleted_state p f s)) as [|f0 rest]; [discriminate|].
      injection Hhead as ->. apply list_elem_of_here. }
    destruct (inv_free _ _ Hinv1 f' Hin) as (pgx & Hpgx & _ & Hidx).
    assert (pgx = pg1) by congruence. subst pgx.
    pose proof (Hc1 f' pg1 Hpg1 Hidx) as Hclean.
    assert (Hpg1' : page s1' f' = Some pg1)
      by (rewrite (acquired_page _ _ _ _ f' Hacq); exact Hpg1).
    assert (Hd : disk_manager_ (write_back pg1 s1') = disk_manager_ s).
    { rewrite disk_manager_write_back, Hclean, Hdisk. reflexivity. }
    exists (deleted_state p f s), f', (fetch_miss_state p f' pg0 r' sx).
    split; [assumption|]. split; [reflexivity|]. split; [assumption|].
    split; [assumption|]. rewrite Hs2.
    split.
    { unfold fetch_miss_state. cbn [set_replacer put_page set_pages set_page_table
        free_list_]. rewrite free_list_write_back. exact Htail. }
    split.
    + rewrite (page_fetch_miss_state s1' p f' pg1 r1 f' Hpg1'), Z.eqb_refl, Hd.
      reflexivity.
    + unfold fetch_miss_state. cbn [set_replacer put_page set_pages set_page_table
        disk_manager_]. exact Hd.
Qed.

Lemma DeletePage_FetchPage_witness :
  exists s1 f' s2,
    DeletePage 0 rt_s3 = Some (true, s1)
    /\ free_list_ s1 = free_list_ rt_s3 ++ [0]
    /\ FetchPage 0 s1 = Some (Some f', s2)
    /\ head (free_list_ s1) = Some f'
    /\ free_list_ s2 = tail (free_list_ s1)
    /\ page s2 f' = Some (mkPage (disk_ReadPage 0 (disk_manager_ rt_s3)) 0 1 false)
    /\ disk_manager_ s2 = disk_manager_ rt_s3.
Proof.
  apply (DeletePage_FetchPage rt_s3 0 0 (mkPage bytes_W 0 0 true)).
  - apply (reachable_run_ops [OpNewPage; OpWriteData 0 bytes_W; OpUnpinPage 0 true] pool1).
    + apply reach_new. lia.
    + vm_compute. reflexivity.
  - vm_compute. reflexivity.
  - vm_compute. reflexivity.
  - reflexivity.
Defined.

End BPMDisk.
